(** * Sudoku engine: solver, conflict detection and board analysis

    A shallow embedding of the logical core of the Sudoku application
    (the backtracking solver and the analysis helpers of
    [solver/sudokuSolver.ts], the conflict and completion checks of
    [utils.ts]) together with the properties stated about it.

    Conventions of the embedding:
    - a JavaScript string is a [string] of 8-bit code units;
    - loop counters and array indices are [nat];
    - a [number] that carries a fraction (the accuracy figures, the
      draws of [Math.random] and what is computed from them) is an
      IEEE-754 binary64 value, [float];
    - [string[][]] and [boolean[][]] are lists of lists, read with a
      default standing for [undefined] and written in place with the
      array-extending assignment of JavaScript;
    - a [Set<string>] is a [gset string];
    - mutation is explicit state passing: a function that mutates its
      argument returns the new value;
    - a callback handed to [setTimeout] is an event of its own, and
      the values its closure captured are part of the state until it
      runs. *)

From Stdlib Require Import ZArith List String Ascii Bool Lia Arith.
From Stdlib Require Import DecimalString QArith Qround Floats Uint63.
From stdpp Require Import base gmap strings.
Import ListNotations.

Local Open Scope string_scope.
Local Open Scope list_scope.
Local Open Scope nat_scope.

(** ** JavaScript primitives used by the sources *)

Module JS.

(** White space skipped by [parseInt]: TAB, LF, VT, FF, CR, SP and
    NBSP are the white-space and line-terminator code units below 256. *)
Definition isWhiteSpace (c : ascii) : bool :=
  let n := nat_of_ascii c in
  ((9 <=? n) && (n <=? 13)) || (n =? 32) || (n =? 160).

Fixpoint trimStart (s : string) : string :=
  match s with
  | String c rest => if isWhiteSpace c then trimStart rest else s
  | EmptyString => s
  end.

(** Value of a code unit as a digit, [0-9a-zA-Z] giving 0..35. *)
Definition digitValue (c : ascii) : option Z :=
  let n := nat_of_ascii c in
  if (48 <=? n) && (n <=? 57) then Some (Z.of_nat (n - 48))
  else if (97 <=? n) && (n <=? 122) then Some (Z.of_nat (n - 87))
  else if (65 <=? n) && (n <=? 90) then Some (Z.of_nat (n - 55))
  else None.

(** Longest prefix of radix-[radix] digits, as an integer; [acc] is
    [None] until a first digit has been read. *)
Fixpoint digits (radix : Z) (s : string) (acc : option Z) : option Z :=
  match s with
  | EmptyString => acc
  | String c rest =>
      match digitValue c with
      | Some d =>
          if (d <? radix)%Z
          then digits radix rest (Some (match acc with
                                        | Some a => a * radix + d
                                        | None => d
                                        end)%Z)
          else acc
      | None => acc
      end
  end.

Definition stripSign (s : string) : bool * string :=
  match s with
  | String "-" rest => (true, rest)
  | String "+" rest => (false, rest)
  | _ => (false, s)
  end.

Definition stripHexPrefix (s : string) : Z * string :=
  match s with
  | String "0" (String "x" rest) => (16%Z, rest)
  | String "0" (String "X" rest) => (16%Z, rest)
  | _ => (10%Z, s)
  end.

(** [parseInt(s)] with no radix argument; [None] is [NaN].  The
    integer is kept exact (JavaScript rounds it to a double beyond
    2^53, and prints -0 as 0 when used as a property key). *)
Definition parseInt (s : string) : option Z :=
  let '(negative, s1) := stripSign (trimStart s) in
  let '(radix, s2) := stripHexPrefix s1 in
  match digits radix s2 None with
  | Some n => Some (if negative then - n else n)%Z
  | None => None
  end.

(** [n.toString()] for a non-negative integer. *)
Definition toString (n : nat) : string :=
  NilEmpty.string_of_uint (Nat.to_uint n).

(** Reading [a[n]]: [hole] is what the caller makes of [undefined]. *)
Definition get {A} (hole : A) (a : list A) (n : nat) : A := nth n a hole.

(** The assignment [a[n] = v]: an index past the end extends the
    array, the skipped slots are holes. *)
Fixpoint set {A} (hole : A) (a : list A) (n : nat) (v : A) : list A :=
  match n, a with
  | 0, [] => [v]
  | 0, _ :: rest => v :: rest
  | S n', [] => hole :: set hole [] n' v
  | S n', x :: rest => x :: set hole rest n' v
  end.

(** [Array.push] *)
Definition push {A} (a : list A) (v : A) : list A := a ++ [v].

(** *** Numbers *)

Definition ofNat (n : nat) : float :=
  PrimFloat.of_uint63 (Uint63.of_Z (Z.of_nat n)).

Definition two52 : float := 4503599627370496%float.

(** [Math.floor] on doubles: below 2^52 in magnitude, adding and
    removing 2^52 rounds to an integer, corrected downwards; an
    integer (and any larger number, infinity or NaN) is returned as
    it is. *)
Definition floor (x : float) : float :=
  if PrimFloat.ltb (PrimFloat.abs x) two52 then
    let r := if PrimFloat.ltb x 0%float
             then ((x - two52) + two52)%float
             else ((x + two52) - two52)%float in
    if PrimFloat.eqb x r then x
    else if PrimFloat.ltb x r then (r - 1)%float else r
  else x.

(** [Math.round]: the nearest integer, a tie going towards +infinity;
    from -0.5 up to -0 the result is -0. *)
Definition round (x : float) : float :=
  if PrimFloat.ltb x 0%float && PrimFloat.leb (-0.5)%float x then (-0)%float
  else
    let f := floor x in
    if PrimFloat.leb 0.5%float (x - f)%float then (f + 1)%float else f.

(** Reading [a[x]] where [x] is a number: the element whose index the
    number equals, 0 and -0 both naming the first one; any other
    number (a fraction, a negative number, NaN, an index past the end)
    names no element and reads [undefined], here [None]. *)
Definition item {A} (a : list A) (x : float) : option A :=
  match List.find (fun k => PrimFloat.eqb x (ofNat k)) (seq 0 (length a)) with
  | Some k => nth_error a k
  | None => None
  end.

End JS.

(** ** Boards *)

(** [type SudokuBoard = string[][]]: rows of cells; "." marks an empty
    cell, "1".."9" a digit, and the user interface also stores the blank
    string in a cell it has cleared. *)
Definition SudokuBoard : Type := list (list string).

(** [board[row][col]] *)
Definition cell (board : SudokuBoard) (row col : nat) : string :=
  JS.get "" (JS.get [] board row) col.

(** [board[row][col] = v] *)
Definition setCell (board : SudokuBoard) (row col : nat) (v : string) : SudokuBoard :=
  JS.set [] board row (JS.set "" (JS.get [] board row) col v).

(** The documented precondition of every operation: nine rows of nine
    cells.  On such a board every access the sources make is in range. *)
Definition wf_board (board : SudokuBoard) : Prop :=
  length board = 9 /\ Forall (fun r => length r = 9) board.

Definition wf_boardb (board : SudokuBoard) : bool :=
  (length board =? 9) && forallb (fun r => length r =? 9) board.

(** [boolean[][]], the mask of the cells given by the puzzle. *)
Definition GivenMask : Type := list (list bool).

Definition given (originalCells : GivenMask) (row col : nat) : bool :=
  JS.get false (JS.get [] originalCells row) col.

(** [for (let i = 0; i < 9; i++)] ranges over [indices]; the nested
    [i], [j] loops visit [positions] in this order. *)
Definition indices : list nat := seq 0 9.

Definition positions : list (nat * nat) :=
  flat_map (fun i => map (fun j => (i, j)) indices) indices.

(** [Math.floor(row / 3) * 3 + Math.floor(col / 3)] *)
Definition blockIndex (row col : nat) : nat := row / 3 * 3 + col / 3.

(** ** solver/sudokuSolver.ts *)

Module Solver.

(** The three private tables of [class SudokuSolver]; a hole or a
    missing entry reads as [undefined], which [!] treats as [false]. *)
Record SudokuSolver : Type := mkSolver {
  rows : list (list bool);
  cols : list (list bool);
  blocks : list (list bool)
}.

(** [Array.from({ length: 9 }, () => Array(10).fill(false))] *)
Definition freshTable : list (list bool) := repeat (repeat false 10) 9.

(** [constructor()] *)
Definition new : SudokuSolver := mkSolver freshTable freshTable freshTable.

(** [table[i][num]] read as a condition. *)
Definition flag (table : list (list bool)) (i num : nat) : bool :=
  JS.get false (JS.get [] table i) num.

(** [table[i][num] = v] *)
Definition setFlag (table : list (list bool)) (i num : nat) (v : bool) : list (list bool) :=
  JS.set [] table i (JS.set false (JS.get [] table i) num v).

(** [table[i][num] = true] where [num] comes out of [parseInt].  A
    key that is no array index ([NaN], a negative number) creates a
    property of the row object outside its elements; no read of the
    solver reaches it, and the table keeps the elements only. *)
Definition mark (table : list (list bool)) (i : nat) (num : option Z) : list (list bool) :=
  match num with
  | Some z => if (0 <=? z)%Z then setFlag table i (Z.to_nat z) true else table
  | None => table
  end.

(** The first pair of loops of [initializeTracking]. *)
Definition resetEntry (this : SudokuSolver) (i j : nat) : SudokuSolver :=
  mkSolver (setFlag (rows this) i j false)
           (setFlag (cols this) i j false)
           (setFlag (blocks this) i j false).

Definition resetTracking (this : SudokuSolver) : SudokuSolver :=
  fold_left (fun this i => fold_left (fun this j => resetEntry this i j) (seq 0 10) this)
            indices this.

(** The second pair of loops of [initializeTracking]. *)
Definition markCell (board : SudokuBoard) (this : SudokuSolver) (p : nat * nat) : SudokuSolver :=
  let '(i, j) := p in
  if negb (cell board i j =? ".")%string then
    let num := JS.parseInt (cell board i j) in
    mkSolver (mark (rows this) i num)
             (mark (cols this) j num)
             (mark (blocks this) (blockIndex i j) num)
  else this.

Definition markExisting (board : SudokuBoard) (this : SudokuSolver) : SudokuSolver :=
  fold_left (markCell board) positions this.

Definition initializeTracking (this : SudokuSolver) (board : SudokuBoard) : SudokuSolver :=
  markExisting board (resetTracking this).

(** What [solveHelper] works on: the board it was handed and the
    tables of [this], both mutated in place. *)
Record State : Type := mkState {
  board : SudokuBoard;
  tracker : SudokuSolver
}.

(** The body of [if (!rows[row][num] && !cols[col][num] && !blocks[b][num])]
    up to the recursive call: place [num] and mark it used. *)
Definition place (s : State) (row col num : nat) : State :=
  let t := tracker s in
  mkState (setCell (board s) row col (JS.toString num))
          (mkSolver (setFlag (rows t) row num true)
                    (setFlag (cols t) col num true)
                    (setFlag (blocks t) (blockIndex row col) num true)).

(** The backtracking step: remove [num] and unmark it. *)
Definition unplace (s : State) (row col num : nat) : State :=
  let t := tracker s in
  mkState (setCell (board s) row col ".")
          (mkSolver (setFlag (rows t) row num false)
                    (setFlag (cols t) col num false)
                    (setFlag (blocks t) (blockIndex row col) num false)).

Definition canPlace (s : State) (row col num : nat) : bool :=
  negb (flag (rows (tracker s)) row num)
  && negb (flag (cols (tracker s)) col num)
  && negb (flag (blocks (tracker s)) (blockIndex row col) num).

(** [for (let num = 1; num <= 9; num++) { ... } return false;] with
    [recur] standing for the call [this.solveHelper(row, col + 1, board)];
    [None] is a call that ran out of fuel. *)
Fixpoint tryNumbers (recur : State -> option (bool * State))
         (row col : nat) (nums : list nat) (s : State) : option (bool * State) :=
  match nums with
  | [] => Some (false, s)
  | num :: rest =>
      if canPlace s row col num then
        match recur (place s row col num) with
        | None => None
        | Some (true, s') => Some (true, s')
        | Some (false, s') => tryNumbers recur row col rest (unplace s' row col num)
        end
      else tryNumbers recur row col rest s
  end.

(** [solveHelper(row, col, board)]; the recursion is not structural,
    so it is bounded by [fuel] (see [solveHelper_terminates]). *)
Fixpoint solveHelper (fuel : nat) (row col : nat) (s : State) : option (bool * State) :=
  match fuel with
  | 0 => None
  | S fuel' =>
      if row =? 9 then Some (true, s)
      else if col =? 9 then solveHelper fuel' (row + 1) 0 s
      else if negb (cell (board s) row col =? ".")%string
           then solveHelper fuel' row (col + 1) s
      else tryNumbers (solveHelper fuel' row (col + 1)) row col (seq 1 9) s
  end.

(** Calls nest at most once per position [(row, col)] with
    [row <= 9] and [col <= 9]. *)
Definition depth (row col : nat) : nat := (9 - row) * 10 + (9 - col) + 1.

(** [solve(board)] on the instance [this]. *)
Definition solve (this : SudokuSolver) (board : SudokuBoard) : option (bool * State) :=
  solveHelper (depth 0 0) 0 0 (mkState board (initializeTracking this board)).

(** [solveSudoku(board)]: a fresh solver, dropped on return; the
    result is the returned boolean and the board as the call leaves it. *)
Definition solveSudoku (board : SudokuBoard) : option (bool * SudokuBoard) :=
  match solve new board with
  | Some (ok, s) => Some (ok, Solver.board s)
  | None => None
  end.

(** [copyBoardForSolving(board)] *)
Definition copyBoardForSolving (board : SudokuBoard) : SudokuBoard :=
  map (fun row => map (fun v => v) row) board.

End Solver.

(** *** Validation and analysis helpers of the same file *)

Module Analysis.

(** [sets[i].has(v)] and [sets[i].add(v)] on an array of nine sets. *)
Definition has (sets : list (gset string)) (i : nat) (v : string) : bool :=
  bool_decide (v ∈ JS.get ∅ sets i).

Definition add (sets : list (gset string)) (i : nat) (v : string) : list (gset string) :=
  JS.set ∅ sets i ({[v]} ∪ JS.get ∅ sets i).

(** [Array.from({ length: 9 }, () => new Set<string>())] *)
Definition emptySets : list (gset string) := repeat ∅ 9.

(** The nested loops of [isValidSudoku] over the positions still to
    visit; [return false] leaves both loops at once. *)
Fixpoint validLoop (board : SudokuBoard) (todo : list (nat * nat))
         (rows cols blocks : list (gset string)) : bool :=
  match todo with
  | [] => true
  | (i, j) :: rest =>
      let value := cell board i j in
      if negb (value =? ".")%string then
        if has rows i value || has cols j value || has blocks (blockIndex i j) value
        then false
        else validLoop board rest (add rows i value) (add cols j value)
                       (add blocks (blockIndex i j) value)
      else validLoop board rest rows cols blocks
  end.

Definition isValidSudoku (board : SudokuBoard) : bool :=
  validLoop board positions emptySets emptySets emptySets.

Definition isCompleteAndValid (board : SudokuBoard) : bool :=
  if existsb (fun '(i, j) => (cell board i j =? ".")%string) positions
  then false
  else isValidSudoku board.

(** [Math.round(accuracy * 100) / 100] *)
Definition roundTwoPlaces (accuracy : float) : float :=
  (JS.round (accuracy * 100) / 100)%float.

(** [filled > 0 ? (correct / filled) * 100 : 0] *)
Definition percentage (correct filled : nat) : float :=
  if 0 <? filled then ((JS.ofNat correct / JS.ofNat filled) * 100)%float else 0%float.

Record Comparison : Type := mkComparison {
  correctCells : list (nat * nat);
  incorrectCells : list (nat * nat);
  emptyCells : list (nat * nat);
  accuracy : float
}.

(** The locals of [compareBoards] while its loops run. *)
Record Tally : Type := mkTally {
  correct : list (nat * nat);
  incorrect : list (nat * nat);
  empty : list (nat * nat);
  totalFilledCells : nat
}.

Definition compareCell (currentBoard solvedBoard : SudokuBoard)
           (t : Tally) (p : nat * nat) : Tally :=
  let '(i, j) := p in
  let currentValue := cell currentBoard i j in
  let solvedValue := cell solvedBoard i j in
  if (currentValue =? ".")%string then
    mkTally (correct t) (incorrect t) (JS.push (empty t) (i, j)) (totalFilledCells t)
  else if (currentValue =? solvedValue)%string then
    mkTally (JS.push (correct t) (i, j)) (incorrect t) (empty t) (totalFilledCells t + 1)
  else
    mkTally (correct t) (JS.push (incorrect t) (i, j)) (empty t) (totalFilledCells t + 1).

Definition compareLoop (currentBoard solvedBoard : SudokuBoard) : Tally :=
  fold_left (compareCell currentBoard solvedBoard) positions (mkTally [] [] [] 0).

Definition compareBoards (currentBoard solvedBoard : SudokuBoard) : Comparison :=
  let t := compareLoop currentBoard solvedBoard in
  let accuracy := percentage (length (correct t)) (totalFilledCells t) in
  mkComparison (correct t) (incorrect t) (empty t) (roundTwoPlaces accuracy).

Record Hint : Type := mkHint { row : nat; col : nat; value : string }.

(** A call either returns or throws. *)
Inductive Completion (A : Type) : Type :=
| Returned (a : A)
| Thrown.
Arguments Returned {A} a.
Arguments Thrown {A}.

(** The first loops of [getHint]. *)
Definition availableHints (currentBoard : SudokuBoard) (originalCells : GivenMask)
  : list (nat * nat) :=
  fold_left
    (fun hints '(i, j) =>
       if (cell currentBoard i j =? ".")%string && negb (given originalCells i j)
       then JS.push hints (i, j) else hints)
    positions [].

(** [getHint]; [random] is the double [Math.random()] hands out, a
    number in [0, 1) by its contract.  The product is the binary64
    product, rounded as the machine rounds it, and [randomIndex] the
    double [Math.floor] makes of it.  [None] is [null]; destructuring
    [availableHints[randomIndex]] throws when the index names no
    element. *)
Definition getHint (currentBoard solvedBoard : SudokuBoard) (originalCells : GivenMask)
           (random : float) : Completion (option Hint) :=
  let hints := availableHints currentBoard originalCells in
  if length hints =? 0 then Returned None
  else
    let randomIndex := JS.floor (random * JS.ofNat (length hints))%float in
    match JS.item hints randomIndex with
    | Some (row, col) => Returned (Some (mkHint row col (cell solvedBoard row col)))
    | None => Thrown
    end.

Record ValidationStats : Type := mkStats {
  totalCells : nat;
  filledCells : nat;
  correctCount : nat;
  incorrectCount : nat;
  originalCount : nat;
  statsAccuracy : float;
  isComplete : bool;
  isValid : bool
}.

(** The counters [(filledCells, correctCells, originalCount)] of
    [getValidationStats] after one more cell. *)
Definition countCell (currentBoard solvedBoard : SudokuBoard) (originalCells : GivenMask)
           (counters : nat * nat * nat) (p : nat * nat) : nat * nat * nat :=
  let '(filledCells, correctCells, originalCount) := counters in
  let '(i, j) := p in
  if given originalCells i j then (filledCells, correctCells, originalCount + 1)
  else if negb (cell currentBoard i j =? ".")%string then
    if (cell currentBoard i j =? cell solvedBoard i j)%string
    then (filledCells + 1, correctCells + 1, originalCount)
    else (filledCells + 1, correctCells, originalCount)
  else counters.

Definition countLoop (currentBoard solvedBoard : SudokuBoard) (originalCells : GivenMask)
  : nat * nat * nat :=
  fold_left (countCell currentBoard solvedBoard originalCells) positions (0, 0, 0).

(** [getValidationStats]; the record fields [correctCells],
    [incorrectCells], [originalCells] and [accuracy] of the source are
    [correctCount], [incorrectCount], [originalCount] and
    [statsAccuracy] here. *)
Definition getValidationStats (currentBoard solvedBoard : SudokuBoard)
           (originalCells : GivenMask) : ValidationStats :=
  let '(filledCells, correctCells, originalCount) :=
    countLoop currentBoard solvedBoard originalCells in
  let totalCells := 81 in
  let incorrectCells := filledCells - correctCells in
  let accuracy := percentage correctCells filledCells in
  let isComplete := filledCells + originalCount =? totalCells in
  let isValid := isValidSudoku currentBoard && (incorrectCells =? 0) in
  mkStats totalCells filledCells correctCells incorrectCells originalCount
          (roundTwoPlaces accuracy) isComplete isValid.

End Analysis.

(** ** utils.ts *)

Module Utils.

(** [value !== "." && value !== ""] *)
Definition filled (value : string) : bool :=
  negb (value =? ".")%string && negb (value =? "")%string.

(** "Mark all occurrences of this duplicate as conflicts", row case. *)
Definition markRow (board : SudokuBoard) (row : nat) (value : string)
           (conflicts : list (nat * nat)) : list (nat * nat) :=
  fold_left
    (fun conflicts c =>
       if (cell board row c =? value)%string then JS.push conflicts (row, c) else conflicts)
    indices conflicts.

(** The inner loop of the row pass from column [col] on; [break] ends it. *)
Fixpoint scanRow (board : SudokuBoard) (row : nat) (todo : list nat)
         (seen : gset string) (conflicts : list (nat * nat)) : list (nat * nat) :=
  match todo with
  | [] => conflicts
  | col :: rest =>
      let value := cell board row col in
      if filled value then
        if bool_decide (value ∈ seen) then markRow board row value conflicts
        else scanRow board row rest ({[value]} ∪ seen) conflicts
      else scanRow board row rest seen conflicts
  end.

Definition checkRows (board : SudokuBoard) (conflicts : list (nat * nat)) : list (nat * nat) :=
  fold_left (fun conflicts row => scanRow board row indices ∅ conflicts) indices conflicts.

(** [conflicts.some(([cr, cc]) => cr === r && cc === col)] *)
Definition alreadyListed (conflicts : list (nat * nat)) (r col : nat) : bool :=
  existsb (fun '(cr, cc) => (cr =? r) && (cc =? col)) conflicts.

Definition markCol (board : SudokuBoard) (col : nat) (value : string)
           (conflicts : list (nat * nat)) : list (nat * nat) :=
  fold_left
    (fun conflicts r =>
       if (cell board r col =? value)%string then
         if negb (alreadyListed conflicts r col) then JS.push conflicts (r, col)
         else conflicts
       else conflicts)
    indices conflicts.

Fixpoint scanCol (board : SudokuBoard) (col : nat) (todo : list nat)
         (seen : gset string) (conflicts : list (nat * nat)) : list (nat * nat) :=
  match todo with
  | [] => conflicts
  | row :: rest =>
      let value := cell board row col in
      if filled value then
        if bool_decide (value ∈ seen) then markCol board col value conflicts
        else scanCol board col rest ({[value]} ∪ seen) conflicts
      else scanCol board col rest seen conflicts
  end.

Definition checkCols (board : SudokuBoard) (conflicts : list (nat * nat)) : list (nat * nat) :=
  fold_left (fun conflicts col => scanCol board col indices ∅ conflicts) indices conflicts.

(** The cells of block [(blockRow, blockCol)] in the order of the
    [r], [c] loops. *)
Definition blockCells (blockRow blockCol : nat) : list (nat * nat) :=
  flat_map (fun r => map (fun c => (blockRow * 3 + r, blockCol * 3 + c)) (seq 0 3)) (seq 0 3).

(** The [r], [c] loops of the block pass. *)
Fixpoint scanBlock (board : SudokuBoard) (todo : list (nat * nat))
         (seen : gset string) (blockConflicts : list (nat * nat)) : list (nat * nat) :=
  match todo with
  | [] => blockConflicts
  | (row, col) :: rest =>
      let value := cell board row col in
      if filled value then
        if bool_decide (value ∈ seen)
        then scanBlock board rest seen (JS.push blockConflicts (row, col))
        else scanBlock board rest ({[value]} ∪ seen) blockConflicts
      else scanBlock board rest seen blockConflicts
  end.

(** [for blockRow ... for blockCol ...] *)
Definition blockOrder : list (nat * nat) :=
  flat_map (fun blockRow => map (fun blockCol => (blockRow, blockCol)) (seq 0 3)) (seq 0 3).

Definition checkBlocks (board : SudokuBoard) (conflicts : list (nat * nat)) : list (nat * nat) :=
  fold_left
    (fun conflicts '(blockRow, blockCol) =>
       conflicts ++ scanBlock board (blockCells blockRow blockCol) ∅ [])
    blockOrder conflicts.

Record ConflictReport : Type := mkReport { conflicts : list (nat * nat) }.

Definition checkIllegalMove (board : SudokuBoard) : ConflictReport :=
  mkReport (checkBlocks board (checkCols board (checkRows board []))).

Definition checkCompletion (board : SudokuBoard) : bool :=
  if existsb
       (fun row =>
          existsb (fun col => (cell board row col =? ".")%string
                              || (cell board row col =? "")%string) indices)
       indices
  then false
  else length (conflicts (checkIllegalMove board)) =? 0.

(** [copyBoard(board)] *)
Definition copyBoard (board : SudokuBoard) : SudokuBoard :=
  map (fun row => map (fun v => v) row) board.

End Utils.

(** ** Vocabulary of the statements *)

(** *** The grid *)

(** Positions are pairs [(row, col)]; those of the grid have both
    indices below 9. *)
Definition inGrid (p : nat * nat) : Prop := fst p < 9 /\ snd p < 9.

Definition cellAt (board : SudokuBoard) (p : nat * nat) : string :=
  cell board (fst p) (snd p).

Definition sameUnit (p q : nat * nat) : Prop :=
  fst p = fst q \/ snd p = snd q
  \/ blockIndex (fst p) (snd p) = blockIndex (fst q) (snd q).

(** Cells are [peers] when they differ and share a row, a column or a
    block. *)
Definition peers (p q : nat * nat) : Prop := p <> q /\ sameUnit p q.

Definition isDigit (v : string) : Prop :=
  In v ["1"; "2"; "3"; "4"; "5"; "6"; "7"; "8"; "9"].

(** The alphabet of a board that holds no blank string. *)
Definition plainCell (v : string) : Prop := v = "." \/ isDigit v.

(** A board over ".", "1".."9". *)
Definition plainBoard (board : SudokuBoard) : Prop :=
  forall p, inGrid p -> plainCell (cellAt board p).

(** A cell [checkCompletion] counts as not filled in. *)
Definition blank (v : string) : Prop := v = "." \/ v = "".

(** [isValidSudoku] skips the cells holding ".". *)
Definition notDot (v : string) : bool := negb (v =? ".")%string.

(** No cell is left empty. *)
Definition full (board : SudokuBoard) : Prop :=
  forall p, inGrid p -> cellAt board p <> ".".

(** A mask of nine rows of nine flags. *)
Definition wf_mask (originalCells : GivenMask) : Prop :=
  length originalCells = 9 /\ Forall (fun r => length r = 9) originalCells.

(** The mask as the interface computes it when a puzzle is loaded:
    [board.map((row) => row.map((cell) => cell !== "." && cell !== ""))]. *)
Definition maskOf (board : SudokuBoard) : GivenMask :=
  map (fun row => map (fun v => negb (v =? ".")%string && negb (v =? "")%string) row) board.

(** Boolean tests, for the facts settled by running through the grid. *)
Definition posEqb (p q : nat * nat) : bool := (fst p =? fst q) && (snd p =? snd q).

Definition posEqDec (p q : nat * nat) : {p = q} + {p <> q}.
Proof. decide equality; apply Nat.eq_dec. Defined.

Definition memb (p : nat * nat) (cells : list (nat * nat)) : bool :=
  existsb (posEqb p) cells.

Definition inGridb (p : nat * nat) : bool := (fst p <? 9) && (snd p <? 9).

Definition sameUnitb (p q : nat * nat) : bool :=
  (fst p =? fst q) || (snd p =? snd q)
  || (blockIndex (fst p) (snd p) =? blockIndex (fst q) (snd q)).

Definition plainCellb (v : string) : bool :=
  existsb (String.eqb v) ["."; "1"; "2"; "3"; "4"; "5"; "6"; "7"; "8"; "9"].

Definition plainBoardb (board : SudokuBoard) : bool :=
  forallb (fun p => plainCellb (cellAt board p)) positions.

(** *** Conflicts and solutions *)

(** No two cells of a unit hold the same value, among the values
    [fill] lets count. *)
Definition conflictFree (fill : string -> bool) (board : SudokuBoard) : Prop :=
  forall p q, inGrid p -> inGrid q -> p <> q -> sameUnit p q ->
              fill (cellAt board p) = true -> cellAt board p <> cellAt board q.

(** The same over a list of cells. *)
Definition distinctOn (fill : string -> bool) (board : SudokuBoard)
           (cells : list (nat * nat)) : Prop :=
  forall p q, In p cells -> In q cells -> p <> q -> sameUnit p q ->
              fill (cellAt board p) = true -> cellAt board p <> cellAt board q.

(** A complete, constraint-satisfying assignment. *)
Definition solution (board : SudokuBoard) : Prop :=
  wf_board board
  /\ (forall p, inGrid p -> isDigit (cellAt board p))
  /\ (forall p q, inGrid p -> inGrid q -> peers p q -> cellAt board p <> cellAt board q).

(** [board'] keeps every cell [board] has filled. *)
Definition completes (board board' : SudokuBoard) : Prop :=
  forall p, inGrid p -> cellAt board p <> "." -> cellAt board' p = cellAt board p.

(** No complete, constraint-satisfying assignment extends the filled
    cells of [board]. *)
Definition unsolvable (board : SudokuBoard) : Prop :=
  forall board', completes board board' -> ~ solution board'.

(** *** Units *)

(** The 27 units of the grid, each as the list of its cells. *)
Definition rowCells (row : nat) : list (nat * nat) := map (fun c => (row, c)) indices.

Definition colCells (col : nat) : list (nat * nat) := map (fun r => (r, col)) indices.

Definition units : list (list (nat * nat)) :=
  map rowCells indices ++ map colCells indices
  ++ map (fun '(blockRow, blockCol) => Utils.blockCells blockRow blockCol) Utils.blockOrder.

(** The cells of a unit lie in the grid and share that unit. *)
Definition unitsSoundb : bool :=
  forallb (fun u => forallb (fun p => inGridb p && forallb (sameUnitb p) u) u) units.

(** Two cells that share a unit lie together in one of [units]. *)
Definition unitsCompleteb : bool :=
  forallb (fun p =>
             forallb (fun q =>
                        implb (sameUnitb p q)
                              (existsb (fun u => memb p u && memb q u) units))
                     positions)
          positions.

(** A scan with a [seen] set meets no value twice. *)
Fixpoint dupFree (seen : gset string) (values : list string) : bool :=
  match values with
  | [] => true
  | v :: rest =>
      if Utils.filled v then
        if bool_decide (v ∈ seen) then false else dupFree ({[v]} ∪ seen) rest
      else dupFree seen rest
  end.

(** The scan of one unit, from an empty [seen] set. *)
Definition unitClean (board : SudokuBoard) (u : list (nat * nat)) : bool :=
  dupFree ∅ (map (cellAt board) u).

(** The sets of [isValidSudoku] hold exactly the values of the cells
    visited so far, unit by unit. *)
Definition tracks (board : SudokuBoard) (visited : list (nat * nat))
           (rows cols blocks : list (gset string)) : Prop :=
  forall i v,
    (v ∈ JS.get ∅ rows i
     <-> exists p, In p visited /\ fst p = i /\ cellAt board p = v /\ v <> ".")
    /\ (v ∈ JS.get ∅ cols i
        <-> exists p, In p visited /\ snd p = i /\ cellAt board p = v /\ v <> ".")
    /\ (v ∈ JS.get ∅ blocks i
        <-> exists p, In p visited /\ blockIndex (fst p) (snd p) = i
                      /\ cellAt board p = v /\ v <> ".").

(** *** The solver *)

(** The shape the constructor gives the tables of a solver and every
    call keeps: nine rows each. *)
Definition shaped (this : Solver.SudokuSolver) : Prop :=
  length (Solver.rows this) = 9
  /\ length (Solver.cols this) = 9
  /\ length (Solver.blocks this) = 9.

(** The three flags a solver holds for digit [num] in unit [i]. *)
Definition flagsAt (this : Solver.SudokuSolver) (i num : nat) : bool * bool * bool :=
  (Solver.flag (Solver.rows this) i num,
   Solver.flag (Solver.cols this) i num,
   Solver.flag (Solver.blocks this) i num).

(** Two solvers hold the same flags wherever [solveHelper] looks. *)
Definition agree (t1 t2 : Solver.SudokuSolver) : Prop :=
  forall i num, i < 9 -> num < 10 -> flagsAt t1 i num = flagsAt t2 i num.

(** Two states of the search that differ at most in flags no call reads. *)
Definition related (s1 s2 : Solver.State) : Prop :=
  Solver.board s1 = Solver.board s2 /\ agree (Solver.tracker s1) (Solver.tracker s2).

(** Two calls end the same way: same answer, same board. *)
Definition sameOutcome (r1 r2 : option (bool * Solver.State)) : Prop :=
  match r1, r2 with
  | Some (ok1, s1), Some (ok2, s2) =>
      ok1 = ok2 /\ related s1 s2
  | None, None => True
  | _, _ => False
  end.

(** Digits the search places. *)
Definition placeable (num : nat) : Prop := 1 <= num <= 9.

(** The tables say which digits each row, column and block holds. *)
Definition consistent (s : Solver.State) : Prop :=
  forall i num, i < 9 -> placeable num ->
    (Solver.flag (Solver.rows (Solver.tracker s)) i num = true
     <-> exists p, inGrid p /\ fst p = i
                   /\ cellAt (Solver.board s) p = JS.toString num)
    /\ (Solver.flag (Solver.cols (Solver.tracker s)) i num = true
        <-> exists p, inGrid p /\ snd p = i
                      /\ cellAt (Solver.board s) p = JS.toString num)
    /\ (Solver.flag (Solver.blocks (Solver.tracker s)) i num = true
        <-> exists p, inGrid p /\ blockIndex (fst p) (snd p) = i
                      /\ cellAt (Solver.board s) p = JS.toString num).

(** Every cell the search has walked past is filled. *)
Definition filledBefore (board : SudokuBoard) (row col : nat) : Prop :=
  forall p, inGrid p -> fst p < row \/ (fst p = row /\ snd p < col) ->
            cellAt board p <> ".".

(** The invariant of the search: a well-formed board of digits and
    "." without conflict, and tables that describe it. *)
Definition sound (s : Solver.State) : Prop :=
  wf_board (Solver.board s)
  /\ plainBoard (Solver.board s)
  /\ conflictFree notDot (Solver.board s)
  /\ consistent s.

(** What a call that returns [true] from state [s] guarantees about
    the state [s'] it ends in. *)
Definition solvedFrom (s s' : Solver.State) : Prop :=
  sound s' /\ full (Solver.board s') /\ completes (Solver.board s) (Solver.board s').

Definition blockOf (p : nat * nat) : nat := blockIndex (fst p) (snd p).

(** Does the cell at [p] switch on the flag of digit [num] in unit [i]
    when [initializeTracking] marks it?  One test per table. *)
Definition marks (board : SudokuBoard) (unitOf : nat * nat -> nat)
           (i num : nat) (p : nat * nat) : bool :=
  notDot (cellAt board p) && (unitOf p =? i)
  && match JS.parseInt (cellAt board p) with
     | Some z => (0 <=? z)%Z && (num =? Z.to_nat z)
     | None => false
     end.

(** *** Hints and accuracy *)

(** A cell [getHint] may reveal. *)
Definition hintCandidate (currentBoard : SudokuBoard) (originalCells : GivenMask)
           (p : nat * nat) : Prop :=
  inGrid p /\ cellAt currentBoard p = "." /\ given originalCells (fst p) (snd p) = false.

(** The test [getHint] applies to a cell. *)
Definition candidateb (currentBoard : SudokuBoard) (originalCells : GivenMask)
           (p : nat * nat) : bool :=
  (cellAt currentBoard p =? ".")%string && negb (given originalCells (fst p) (snd p)).

(** [correct / filled * 100], in hundredths, rounded half up: the
    integer [h] such that the percentage rounded to two decimals is
    [h / 100]. *)
Definition hundredths (correct filled : nat) : Z :=
  Qfloor (inject_Z (Z.of_nat correct) / inject_Z (Z.of_nat filled) * 100 * 100 + (1 # 2))%Q.

(** The double nearest to [h / 100]. *)
Definition twoDecimals (h : Z) : float :=
  (PrimFloat.of_uint63 (Uint63.of_Z h) / 100)%float.

(** The accuracy figure as the specification words it: within
    [0, 100], exactly 0 over no filled cell, and otherwise the
    percentage rounded half up to two decimals. *)
Definition accuracySpec (accuracy : float) (correct filled : nat) : Prop :=
  PrimFloat.leb 0 accuracy = true
  /\ PrimFloat.leb accuracy 100 = true
  /\ (filled = 0 -> accuracy = 0%float)
  /\ (0 < filled -> accuracy = twoDecimals (hundredths correct filled)).

(** What the accuracy figure must be for the given counts. *)
Definition expectedAccuracy (correct filled : nat) : float :=
  if filled =? 0 then 0%float else twoDecimals (hundredths correct filled).

(** The form in which the table of all counts is checked. *)
Definition accuracyOk (accuracy : float) (correct filled : nat) : Prop :=
  accuracy = expectedAccuracy correct filled
  /\ PrimFloat.leb 0 accuracy && PrimFloat.leb accuracy 100 = true.

(** [P] at every number up to [n], as one finite conjunction. *)
Fixpoint allUpTo (P : nat -> Prop) (n : nat) : Prop :=
  match n with
  | 0 => P 0
  | S k => P (S k) /\ allUpTo P k
  end.

(** ** Sample boards *)

(** The fallback puzzle of [fetchPuzzle]. *)
Definition fallbackBoard : SudokuBoard :=
  [ ["5"; "3"; "."; "."; "7"; "."; "."; "."; "."];
    ["6"; "."; "."; "1"; "9"; "5"; "."; "."; "."];
    ["."; "9"; "8"; "."; "."; "."; "."; "6"; "."];
    ["8"; "."; "."; "."; "6"; "."; "."; "."; "3"];
    ["4"; "."; "."; "8"; "."; "3"; "."; "."; "1"];
    ["7"; "."; "."; "."; "2"; "."; "."; "."; "6"];
    ["."; "6"; "."; "."; "."; "."; "2"; "8"; "."];
    ["."; "."; "."; "4"; "1"; "9"; "."; "."; "5"];
    ["."; "."; "."; "."; "8"; "."; "."; "7"; "9"] ].

(** Its solution. *)
Definition fallbackSolved : SudokuBoard :=
  [ ["5"; "3"; "4"; "6"; "7"; "8"; "9"; "1"; "2"];
    ["6"; "7"; "2"; "1"; "9"; "5"; "3"; "4"; "8"];
    ["1"; "9"; "8"; "3"; "4"; "2"; "5"; "6"; "7"];
    ["8"; "5"; "9"; "7"; "6"; "1"; "4"; "2"; "3"];
    ["4"; "2"; "6"; "8"; "5"; "3"; "7"; "9"; "1"];
    ["7"; "1"; "3"; "9"; "2"; "4"; "8"; "5"; "6"];
    ["9"; "6"; "1"; "5"; "3"; "7"; "2"; "8"; "4"];
    ["2"; "8"; "7"; "4"; "1"; "9"; "6"; "3"; "5"];
    ["3"; "4"; "5"; "2"; "8"; "6"; "1"; "7"; "9"] ].

(** The tables a call leaves in its solver. *)
Definition solverAfter (r : option (bool * Solver.State)) : Solver.SudokuSolver :=
  match r with
  | Some (_, s) => Solver.tracker s
  | None => Solver.new
  end.

(** A solver that has already been used, on the classic puzzle. *)
Definition usedSolver : Solver.SudokuSolver :=
  solverAfter (Solver.solve Solver.new fallbackBoard).

(** A board whose first cell admits no digit: 1..8 stand in its row
    and 9 in its column. *)
Definition deadEndBoard : SudokuBoard :=
  [ ["."; "1"; "2"; "3"; "4"; "5"; "6"; "7"; "8"];
    ["9"; "."; "."; "."; "."; "."; "."; "."; "."];
    ["."; "."; "."; "."; "."; "."; "."; "."; "."];
    ["."; "."; "."; "."; "."; "."; "."; "."; "."];
    ["."; "."; "."; "."; "."; "."; "."; "."; "."];
    ["."; "."; "."; "."; "."; "."; "."; "."; "."];
    ["."; "."; "."; "."; "."; "."; "."; "."; "."];
    ["."; "."; "."; "."; "."; "."; "."; "."; "."];
    ["."; "."; "."; "."; "."; "."; "."; "."; "."] ].

(** The classic puzzle as a player may leave it: every cell filled in
    as in the solution, except that a 5 was typed at (0, 2), where the
    row already has the given 5 of (0, 0), and (8, 6) is still empty. *)
Definition doubledFive : SudokuBoard :=
  [ ["5"; "3"; "5"; "6"; "7"; "8"; "9"; "1"; "2"];
    ["6"; "7"; "2"; "1"; "9"; "5"; "3"; "4"; "8"];
    ["1"; "9"; "8"; "3"; "4"; "2"; "5"; "6"; "7"];
    ["8"; "5"; "9"; "7"; "6"; "1"; "4"; "2"; "3"];
    ["4"; "2"; "6"; "8"; "5"; "3"; "7"; "9"; "1"];
    ["7"; "1"; "3"; "9"; "2"; "4"; "8"; "5"; "6"];
    ["9"; "6"; "1"; "5"; "3"; "7"; "2"; "8"; "4"];
    ["2"; "8"; "7"; "4"; "1"; "9"; "6"; "3"; "5"];
    ["3"; "4"; "5"; "2"; "8"; "6"; "."; "7"; "9"] ].

(** The same with the missing 1 filled in at (8, 6). *)
Definition doubledFiveFilled : SudokuBoard := setCell doubledFive 8 6 "1".

(** Two 5s on the diagonal of the first block, nothing else. *)
Definition diagonalFives : SudokuBoard :=
  [ ["5"; "."; "."; "."; "."; "."; "."; "."; "."];
    ["."; "5"; "."; "."; "."; "."; "."; "."; "."];
    ["."; "."; "."; "."; "."; "."; "."; "."; "."];
    ["."; "."; "."; "."; "."; "."; "."; "."; "."];
    ["."; "."; "."; "."; "."; "."; "."; "."; "."];
    ["."; "."; "."; "."; "."; "."; "."; "."; "."];
    ["."; "."; "."; "."; "."; "."; "."; "."; "."];
    ["."; "."; "."; "."; "."; "."; "."; "."; "."];
    ["."; "."; "."; "."; "."; "."; "."; "."; "."] ].

(** Two 5s side by side in the first row, nothing else. *)
Definition adjacentFives : SudokuBoard :=
  [ ["5"; "5"; "."; "."; "."; "."; "."; "."; "."];
    ["."; "."; "."; "."; "."; "."; "."; "."; "."];
    ["."; "."; "."; "."; "."; "."; "."; "."; "."];
    ["."; "."; "."; "."; "."; "."; "."; "."; "."];
    ["."; "."; "."; "."; "."; "."; "."; "."; "."];
    ["."; "."; "."; "."; "."; "."; "."; "."; "."];
    ["."; "."; "."; "."; "."; "."; "."; "."; "."];
    ["."; "."; "."; "."; "."; "."; "."; "."; "."];
    ["."; "."; "."; "."; "."; "."; "."; "."; "."] ].

(** The classic solution with its first cell cleared, and the mask that
    marks every other cell as given. *)
Definition oneCellLeft : SudokuBoard := setCell fallbackSolved 0 0 ".".

Definition oneCellLeftMask : GivenMask := maskOf oneCellLeft.

(** The same with (0, 2) and (0, 3) cleared as well: three cells to
    hint at, holding 5, 4 and 6 in the solution. *)
Definition threeCellsLeft : SudokuBoard :=
  setCell (setCell oneCellLeft 0 2 ".") 0 3 ".".

(** The double nearest to 0.3333333333333333, which lies below 1/3. *)
Definition nearlyOneThird : float := 0x1.5555555555555p-2%float.

(** The classic puzzle with a 1 written at (8, 0), where its only
    solution has a 3: no row, column or block repeats a digit, and no
    solution is left.  The search fills many cells before it finds out. *)
Definition backtrackBoard : SudokuBoard := setCell fallbackBoard 8 0 "1".

(** ** More of solver/sudokuSolver.ts *)

(** [validateCell(row, col, value, solvedBoard)] *)
Definition validateCell (row col : nat) (value : string) (solvedBoard : SudokuBoard)
  : bool :=
  if (value =? ".")%string || (value =? "")%string then true
  else (value =? cell solvedBoard row col)%string.

(** ** More of utils.ts *)

(** The character class [[1-9]]. *)
Definition oneToNine (c : ascii) : bool :=
  (nat_of_ascii "1"%char <=? nat_of_ascii c) && (nat_of_ascii c <=? nat_of_ascii "9"%char).

(** [/^[1-9]$/.test(cellValue)]: the whole input is one character of
    the class. *)
Definition matchesDigit (cellValue : string) : bool :=
  match cellValue with
  | String c EmptyString => oneToNine c
  | _ => false
  end.

(** [validateInput(cellValue)] *)
Definition validateInput (cellValue : string) : bool :=
  (cellValue =? "")%string || matchesDigit cellValue.

(** *** [fetchPuzzle] *)

Module Fetch.

(** The values the conversion can meet in [grid]: [null], numbers and
    arrays of them, nested at will.  Numbers are the non-negative
    integers, on which [String] gives the decimal numeral (below
    10^21, far above any cell of a puzzle).  A missing element,
    [undefined], is [None] where a value is read. *)
#[local] Unset Elimination Schemes.
Inductive Json : Type :=
| JNull
| JNumber (n : nat)
| JArray (items : list Json).
#[local] Set Elimination Schemes.

(** [String(value)]; inside an array [null] is joined as the blank
    string. *)
Fixpoint toStr (v : Json) : string :=
  match v with
  | JNull => "null"
  | JNumber n => JS.toString n
  | JArray items =>
      String.concat ","
        (map (fun item => match item with
                          | JNull => ""
                          | _ => toStr item
                          end) items)
  end.

(** [value === 0 || value === null || value === undefined ? "." : String(value)] *)
Definition cellOf (value : option Json) : string :=
  match value with
  | None | Some JNull | Some (JNumber 0) => "."
  | Some v => toStr v
  end.

(** [a[k]] for a value that is not [null]. *)
Definition index (a : Json) (k : nat) : option Json :=
  match a with
  | JArray items => nth_error items k
  | _ => None
  end.

Definition isArray (v : option Json) : bool :=
  match v with
  | Some (JArray _) => true
  | _ => false
  end.

(** [grid[i] || []] *)
Definition orEmpty (v : option Json) : Json :=
  match v with
  | None | Some JNull | Some (JNumber 0) => JArray []
  | Some v => v
  end.

(** The two branches that build [board] from [grid]; [None] when
    neither applies and control reaches the [throw]. *)
Definition convert (grid : option Json) : option SudokuBoard :=
  match grid with
  | Some (JArray items) =>
      if length items =? 81 then
        Some (map (fun i => map (fun j => cellOf (nth_error items (i * 9 + j))) indices)
                  indices)
      else if isArray (nth_error items 0) && (9 <=? length items) then
        Some (map (fun i =>
                     let rowArr := orEmpty (nth_error items i) in
                     map (fun j => cellOf (index rowArr j)) indices)
                  indices)
      else None
  | _ => None
  end.

(** [fetchPuzzle()], given what the request brought for
    [data.newboard.grids[0].value]: [None] when the request failed or
    the response holds no such value.  Every failure ends in the
    [catch], which returns the fallback puzzle. *)
Definition fetchPuzzle (grid : option Json) : SudokuBoard :=
  match convert grid with
  | Some board => board
  | None => fallbackBoard
  end.

(** The cell a number of the API becomes. *)
Definition digitCell (n : nat) : string := cellOf (Some (JNumber n)).

(** A grid as the API documents it, nested and flat. *)
Definition nested (rows : list (list nat)) : Json :=
  JArray (map (fun r => JArray (map JNumber r)) rows).

Definition flat (rows : list (list nat)) : Json :=
  JArray (map JNumber (concat rows)).

End Fetch.

(** ** SudokuBoard.tsx *)




(** [isRelatedCell(row, col)], [focusedCell] passed in. *)
Definition isRelatedCell (focusedCell : option (nat * nat)) (row col : nat) : bool :=
  match focusedCell with
  | None => false
  | Some (fr, fc) =>
      if (row =? fr) || (col =? fc) then true
      else if (row / 3 =? fr / 3) && (col / 3 =? fc / 3) then true
      else false
  end.

Module Game.

(** The part of the component state that holds boards and the focus:
    [board], [originalCells], [originalBoard], [solvedBoard] and
    [focusedCell]; [None] is [null].  [boardToSolve] is the copy of the
    board that [handleSolve] handed to its timer, for as long as the
    timer has not run; [isSolving] is true exactly then.  Messages,
    flags of the celebration and the number pad are left out. *)
Record GameState : Type := mkGame {
  board : SudokuBoard;
  originalCells : GivenMask;
  originalBoard : option SudokuBoard;
  solvedBoard : option SudokuBoard;
  focusedCell : option (nat * nat);
  boardToSolve : option SudokuBoard
}.

(** [Array(9).fill(null).map(() => Array(9).fill(v))] *)
Definition filledGrid {A : Type} (v : A) : list (list A) := repeat (repeat v 9) 9.

(** The state of a component mounted without [initialBoard]. *)
Definition initial : GameState :=
  mkGame (filledGrid ".") (filledGrid false) None None None None.

(** [loadNewPuzzle], once [fetchPuzzle()] has resolved to [newBoard].
    A timer of [handleSolve] that is waiting goes on waiting. *)
Definition loadNewPuzzle (newBoard : SudokuBoard) (g : GameState) : GameState :=
  mkGame (Utils.copyBoard newBoard) (maskOf newBoard) (Some (Utils.copyBoard newBoard))
         (solvedBoard g) None (boardToSolve g).

(** [handleSolve] up to [setTimeout]: the board as it is now is copied
    for the timer. *)
Definition startSolve (g : GameState) : GameState :=
  mkGame (board g) (originalCells g) (originalBoard g) (solvedBoard g) (focusedCell g)
         (Some (Solver.copyBoardForSolving (board g))).

(** The callback [handleSolve] gave to [setTimeout], run 100 ms later:
    it solves the copy and on success shows it, whatever [board] has
    become in between. *)
Definition solveTimeout (g : GameState) : GameState :=
  match boardToSolve g with
  | None => g
  | Some boardToSolve =>
      match Solver.solveSudoku boardToSolve with
      | Some (true, solved) =>
          mkGame solved (originalCells g) (originalBoard g)
                 (Some (Utils.copyBoard solved)) (focusedCell g) None
      | _ =>
          mkGame (board g) (originalCells g) (originalBoard g) (solvedBoard g)
                 (focusedCell g) None
      end
  end.

(** [handleSolve] with its timer, nothing happening in between. *)
Definition handleSolve (g : GameState) : GameState := solveTimeout (startSolve g).

Definition handleResetToOriginal (g : GameState) : GameState :=
  match originalBoard g with
  | Some original =>
      mkGame (Utils.copyBoard original) (maskOf original) (originalBoard g) None
             (focusedCell g) (boardToSolve g)
  | None => g
  end.

Definition handleCellChange (g : GameState) (row col : nat) (value : string) : GameState :=
  if given (originalCells g) row col then g
  else if negb (validateInput value) then g
  else mkGame (setCell (Utils.copyBoard (board g)) row col value)
              (originalCells g) (originalBoard g) (solvedBoard g) (focusedCell g)
              (boardToSolve g).

(** [navigateToCell(row, col)], with the arithmetic of the callers
    done in the integers. *)
Definition navigateToCell (g : GameState) (row col : Z) : GameState :=
  mkGame (board g) (originalCells g) (originalBoard g) (solvedBoard g)
         (Some (Z.to_nat row, Z.to_nat col)) (boardToSolve g).

Definition handleCellClick (g : GameState) (row col : nat) : GameState :=
  if negb (given (originalCells g) row col)
  then mkGame (board g) (originalCells g) (originalBoard g) (solvedBoard g)
              (Some (row, col)) (boardToSolve g)
  else g.

(** [handleKeyDown(e, row, col)], [e.key] and [e.shiftKey] passed in. *)
Definition handleKeyDown (g : GameState) (key : string) (shiftKey : bool)
           (row col : nat) : GameState :=
  let r := Z.of_nat row in
  let c := Z.of_nat col in
  if (key =? "ArrowUp")%string then navigateToCell g (Z.max 0 (r - 1)) c
  else if (key =? "ArrowDown")%string then navigateToCell g (Z.min 8 (r + 1)) c
  else if (key =? "ArrowLeft")%string then navigateToCell g r (Z.max 0 (c - 1))
  else if (key =? "ArrowRight")%string then navigateToCell g r (Z.min 8 (c + 1))
  else if (key =? "Tab")%string then
    if shiftKey then navigateToCell g r (Z.max 0 (c - 1))
    else navigateToCell g r (Z.min 8 (c + 1))
  else if (key =? "Backspace")%string || (key =? "Delete")%string then
    handleCellChange g row col ""
  else if existsb (String.eqb key) ["1"; "2"; "3"; "4"; "5"; "6"; "7"; "8"; "9"] then
    let g' := handleCellChange g row col key in
    if col <? 8 then navigateToCell g' r (c + 1)
    else if row <? 8 then navigateToCell g' (r + 1) 0
    else g'
  else g.

(** The [onClearAll] handler; it leaves a waiting timer alone. *)
Definition clearAll (g : GameState) : GameState :=
  mkGame (filledGrid ".") (filledGrid false) None None None (boardToSolve g).

(** [isSolving] *)
Definition isSolving (g : GameState) : bool :=
  match boardToSolve g with
  | Some _ => true
  | None => false
  end.

(** What can happen, and the state after it: the player's actions, and
    the timer of [handleSolve] firing. *)
Inductive Event : Type :=
| Load (newBoard : SudokuBoard)
| CellChange (row col : nat) (value : string)
| KeyDown (key : string) (shiftKey : bool) (row col : nat)
| Click (row col : nat)
| Solve
| Timeout
| Reset
| ClearAll.

(** The Solve and Reset buttons are disabled while [isSolving]; New
    Puzzle, Clear All and the cells are not. *)
Definition step (g : GameState) (e : Event) : GameState :=
  match e with
  | Load newBoard => loadNewPuzzle newBoard g
  | CellChange row col value => handleCellChange g row col value
  | KeyDown key shiftKey row col => handleKeyDown g key shiftKey row col
  | Click row col => handleCellClick g row col
  | Solve => if isSolving g then g else startSolve g
  | Timeout => solveTimeout g
  | Reset => if isSolving g then g else handleResetToOriginal g
  | ClearAll => clearAll g
  end.

Definition run (events : list Event) (g : GameState) : GameState :=
  fold_left step events g.

End Game.

(** ** Vocabulary of the further properties *)

(** *** The search *)

(** [board'] is [board] with some empty cells filled by digits. *)
Definition fillsIn (board board' : SudokuBoard) : Prop :=
  forall p, inGrid p ->
    (cellAt board p <> "." -> cellAt board' p = cellAt board p)
    /\ (cellAt board p = "." -> cellAt board' p = "." \/ isDigit (cellAt board' p)).

(** Some complete, constraint-satisfying assignment extends the filled
    cells of [board]. *)
Definition solvable (board : SudokuBoard) : Prop :=
  exists board', solution board' /\ completes board board'.

(** Reading order of the cells: row by row, left to right. *)
Definition before (p q : nat * nat) : Prop :=
  fst p < fst q \/ (fst p = fst q /\ snd p < snd q).

Definition sameGrid (board1 board2 : SudokuBoard) : Prop :=
  forall p, inGrid p -> cellAt board1 p = cellAt board2 p.

(** [board1] comes before [board2]: at the first cell in reading order
    where they differ, [board1] holds the smaller digit. *)
Definition precedes (board1 board2 : SudokuBoard) : Prop :=
  exists p num1 num2,
    inGrid p
    /\ (forall q, inGrid q -> before q p -> cellAt board1 q = cellAt board2 q)
    /\ cellAt board1 p = JS.toString num1 /\ cellAt board2 p = JS.toString num2
    /\ num1 < num2.

(** *** Checks and figures *)

(** The cell at [p] holds a value, and another cell of its row, column
    or block holds the same value. *)
Definition inConflict (board : SudokuBoard) (p : nat * nat) : Prop :=
  inGrid p /\ Utils.filled (cellAt board p) = true
  /\ exists q, inGrid q /\ q <> p /\ sameUnit p q /\ cellAt board q = cellAt board p.

(** The tests by which [compareBoards] and [getValidationStats] sort
    the cells. *)
Definition emptyb (currentBoard : SudokuBoard) (p : nat * nat) : bool :=
  (cellAt currentBoard p =? ".")%string.

Definition correctb (currentBoard solvedBoard : SudokuBoard) (p : nat * nat) : bool :=
  negb (emptyb currentBoard p) && (cellAt currentBoard p =? cellAt solvedBoard p)%string.

Definition incorrectb (currentBoard solvedBoard : SudokuBoard) (p : nat * nat) : bool :=
  negb (emptyb currentBoard p)
  && negb (cellAt currentBoard p =? cellAt solvedBoard p)%string.

Definition givenb (originalCells : GivenMask) (p : nat * nat) : bool :=
  given originalCells (fst p) (snd p).

(** How many cells of the grid pass a test. *)
Definition countCells (test : nat * nat -> bool) : nat :=
  length (List.filter test positions).

(** The accuracy figure at its two ends, for the table of all counts. *)
Definition extremesOk (accuracy : float) (correct filled : nat) : bool :=
  implb (PrimFloat.eqb accuracy 100) ((correct =? filled) && (0 <? filled))
  && implb (PrimFloat.eqb accuracy 0) (correct =? 0).

(** A cell the player filled in: not given, and not ".". *)
Definition enteredb (currentBoard : SudokuBoard) (originalCells : GivenMask)
           (p : nat * nat) : bool :=
  negb (givenb originalCells p) && negb (emptyb currentBoard p).

Definition enteredRightb (currentBoard solvedBoard : SudokuBoard)
           (originalCells : GivenMask) (p : nat * nat) : bool :=
  enteredb currentBoard originalCells p
  && (cellAt currentBoard p =? cellAt solvedBoard p)%string.

Definition enteredWrongb (currentBoard solvedBoard : SudokuBoard)
           (originalCells : GivenMask) (p : nat * nat) : bool :=
  enteredb currentBoard originalCells p
  && negb (cellAt currentBoard p =? cellAt solvedBoard p)%string.


(** *** The game *)

(** A cell over ".", the blank string and "1".."9". *)
Definition editedCell (v : string) : Prop := v = "." \/ v = "" \/ isDigit v.

(** The events the interface can raise: [fetchPuzzle] builds nine rows
    of nine cells or falls back on the classic puzzle, and cells are
    addressed inside the grid. *)
Definition legal (e : Game.Event) : Prop :=
  match e with
  | Game.Load newBoard => wf_board newBoard
  | Game.CellChange row col _ | Game.KeyDown _ _ row col | Game.Click row col =>
      row < 9 /\ col < 9
  | _ => True
  end.

(** What every reachable state of the game satisfies. *)
Definition gameInvariant (g : Game.GameState) : Prop :=
  wf_board (Game.board g)
  /\ wf_mask (Game.originalCells g)
  /\ (forall f, Game.focusedCell g = Some f -> inGrid f)
  /\ (forall original, Game.originalBoard g = Some original ->
                        wf_board original /\ Game.originalCells g = maskOf original)
  /\ (Game.originalBoard g = None ->
      forall p, inGrid p -> given (Game.originalCells g) (fst p) (snd p) = false)
  /\ (forall waiting, Game.boardToSolve g = Some waiting -> wf_board waiting).

(** The events that leave the puzzle in place. *)
Definition keepsPuzzle (e : Game.Event) : Prop :=
  match e with
  | Game.Load _ | Game.ClearAll => False
  | _ => True
  end.

(** A board over ".", the blank string and the digits. *)
Definition overAlphabet (board : SudokuBoard) : Prop :=
  forall p, inGrid p -> editedCell (cellAt board p).

(** The events that bring no other string into the game. *)
Definition tidy (e : Game.Event) : Prop :=
  match e with
  | Game.Load newBoard => overAlphabet newBoard
  | _ => True
  end.

(** The boards of the game are over the alphabet. *)
Definition alphabetInvariant (g : Game.GameState) : Prop :=
  overAlphabet (Game.board g)
  /\ (forall original, Game.originalBoard g = Some original -> overAlphabet original)
  /\ (forall waiting, Game.boardToSolve g = Some waiting -> overAlphabet waiting).

(** [board] shows the cells [puzzle] gave. *)
Definition showsGiven (puzzle board : SudokuBoard) : Prop :=
  wf_board board
  /\ forall p, inGrid p -> Utils.filled (cellAt puzzle p) = true ->
               cellAt board p = cellAt puzzle p.

(** What holds while [puzzle] is being played: it is the puzzle kept
    for resetting, the mask is its mask, and the board and the copy a
    timer may hold show its given cells. *)
Definition playing (puzzle : SudokuBoard) (g : Game.GameState) : Prop :=
  Game.originalBoard g = Some puzzle
  /\ Game.originalCells g = maskOf puzzle
  /\ showsGiven puzzle (Game.board g)
  /\ (forall waiting, Game.boardToSolve g = Some waiting -> showsGiven puzzle waiting).

(** *** Puzzles of the API *)

(** The classic puzzle as the API would send it, 0 for an empty cell. *)
Definition fallbackRows : list (list nat) :=
  [ [5; 3; 0; 0; 7; 0; 0; 0; 0];
    [6; 0; 0; 1; 9; 5; 0; 0; 0];
    [0; 9; 8; 0; 0; 0; 0; 6; 0];
    [8; 0; 0; 0; 6; 0; 0; 0; 3];
    [4; 0; 0; 8; 0; 3; 0; 0; 1];
    [7; 0; 0; 0; 2; 0; 0; 0; 6];
    [0; 6; 0; 0; 0; 0; 2; 8; 0];
    [0; 0; 0; 4; 1; 9; 0; 0; 5];
    [0; 0; 0; 0; 8; 0; 0; 7; 9] ].

(** The number the API sent for a cell. *)
Definition sent (rows : list (list nat)) (i j : nat) : nat := nth j (nth i rows []) 0.

(** ** Vocabulary of the binary64 arithmetic *)

(** The end of rounding to nearest: the double of sign [s], mantissa
    [q] and exponent [e], renormalised when rounding carried into a
    54th bit. *)
Definition finish (s : bool) (q e : Z) : spec_float :=
  let '(mrs, e') := shr_fexp prec emax q e loc_Exact in
  match shr_m mrs with
  | Z0 => S754_zero s
  | Zpos m => if (e' <=? emax - prec)%Z then S754_finite s m e' else S754_infinity s
  | Zneg _ => S754_nan
  end.

(** The number [n] is a normal double: mantissa of 53 bits, negative
    exponent, value [n]. *)
Definition ofNat_normal (n : nat) : bool :=
  match Prim2SF (JS.ofNat n) with
  | S754_finite false mn en =>
      ((2 ^ 52 <=? Zpos mn) && (Zpos mn <? 2 ^ 53) && (-52 <=? en) && (en <=? -1)
       && (Zpos mn =? Z.of_nat n * 2 ^ (- en)))%Z
  | _ => false
  end.

(** The double 2^52 + j. *)
Definition aboveTwo52 (j : nat) : float :=
  SF2Prim (S754_finite false (Z.to_pos (2 ^ 52 + Z.of_nat j)) 0).

(** * Properties *)

(** ** JavaScript primitives *)

Example parseInt_samples :
  map JS.parseInt ["5"; "."; ""; " 42px"; "-7"; "0x1f"; "abc"]
  = [Some 5%Z; None; None; Some 42%Z; Some (-7)%Z; Some 31%Z; None].
Proof. reflexivity. Qed.

Example toString_samples : map JS.toString [0; 1; 9; 10; 123] = ["0"; "1"; "9"; "10"; "123"].
Proof. reflexivity. Qed.

Example round_samples :
  map JS.round [2.5; -2.5; 0.5; 0.25; 3333.75; -0.5; -0.25; -0; 100]%float
  = [3; -2; 1; 0; 3334; -0; -0; -0; 100]%float.
Proof. reflexivity. Qed.

Example floor_samples :
  map JS.floor [2.5; -2.5; 80.875; -0; 7]%float = [2; -3; 80; -0; 7]%float.
Proof. reflexivity. Qed.

(** ** Arrays *)

Section Arrays.
Context {A : Type} (hole : A).

Lemma get_set_same (a : list A) (n : nat) (v : A) :
  JS.get hole (JS.set hole a n v) n = v.
Proof.
  revert a; induction n as [|n IH]; intros [|x a]; simpl; auto.
Qed.

Lemma get_set_other (a : list A) (n m : nat) (v : A) :
  n <> m -> JS.get hole (JS.set hole a n v) m = JS.get hole a m.
Proof.
  unfold JS.get.
  revert a m; induction n as [|n IH]; intros [|x a] [|m] Hne; simpl; try congruence.
  - now destruct m.
  - rewrite (IH [] m) by congruence. now destruct m.
  - apply IH; congruence.
Qed.

Lemma set_set (a : list A) (n : nat) (v w : A) :
  JS.set hole (JS.set hole a n v) n w = JS.set hole a n w.
Proof.
  revert a; induction n as [|n IH]; intros [|x a]; simpl; f_equal; auto.
Qed.

Lemma set_get_id (a : list A) (n : nat) :
  n < length a -> JS.set hole a n (JS.get hole a n) = a.
Proof.
  revert a; induction n as [|n IH]; intros [|x a] Hlt; simpl in *; try lia; auto.
  f_equal. apply IH. lia.
Qed.

Lemma get_beyond (a : list A) (n : nat) :
  length a <= n -> JS.get hole a n = hole.
Proof. intros H. apply nth_overflow, H. Qed.

Lemma length_set (a : list A) (n : nat) (v : A) :
  n < length a -> length (JS.set hole a n v) = length a.
Proof.
  revert a; induction n as [|n IH]; intros [|x a] Hlt; simpl in *; try lia; auto.
  f_equal. apply IH. lia.
Qed.

End Arrays.

(** ** Cells *)

Lemma cell_setCell (board : SudokuBoard) (row col row' col' : nat) (v : string) :
  cell (setCell board row col v) row' col'
  = if (row' =? row) && (col' =? col) then v else cell board row' col'.
Proof.
  unfold cell, setCell.
  destruct (Nat.eqb_spec row' row) as [->|Hr]; simpl.
  - rewrite get_set_same.
    destruct (Nat.eqb_spec col' col) as [->|Hc].
    + apply get_set_same.
    + apply get_set_other. congruence.
  - rewrite get_set_other by congruence. reflexivity.
Qed.

Lemma setCell_setCell (board : SudokuBoard) (row col : nat) (v w : string) :
  setCell (setCell board row col v) row col w = setCell board row col w.
Proof.
  unfold setCell. rewrite get_set_same, !set_set. reflexivity.
Qed.

(** A cell that reads "." exists, so writing "." back changes nothing. *)
Lemma setCell_dot_id (board : SudokuBoard) (row col : nat) :
  cell board row col = "." -> setCell board row col "." = board.
Proof.
  unfold cell, setCell. intros H.
  assert (Hc : col < length (JS.get [] board row)).
  { destruct (Nat.lt_ge_cases col (length (JS.get [] board row))) as [?|Hge]; [assumption|].
    rewrite (get_beyond "" _ _ Hge) in H. discriminate. }
  assert (Hr : row < length board).
  { destruct (Nat.lt_ge_cases row (length board)) as [?|Hge]; [assumption|].
    rewrite (get_beyond [] _ _ Hge) in Hc. simpl in Hc. lia. }
  rewrite <- H at 1. rewrite set_get_id by assumption. apply set_get_id, Hr.
Qed.

Lemma wf_boardb_spec (board : SudokuBoard) : wf_boardb board = true <-> wf_board board.
Proof.
  unfold wf_boardb, wf_board.
  rewrite andb_true_iff, Nat.eqb_eq, forallb_forall, List.Forall_forall.
  split; intros [H1 H2]; split; auto; intros r Hr; apply Nat.eqb_eq; auto.
Qed.

(** ** The solver *)

Import Solver.

(** *** Termination *)

Lemma tryNumbers_returns (recur : State -> option (bool * State)) (row col : nat) :
  (forall s, exists r, recur s = Some r) ->
  forall nums s, exists r, tryNumbers recur row col nums s = Some r.
Proof.
  intros Hrec nums. induction nums as [|num rest IH]; intros s; simpl.
  - eauto.
  - destruct (canPlace s row col num); [|apply IH].
    destruct (Hrec (place s row col num)) as [[[|] s'] ->]; [eauto|apply IH].
Qed.

Lemma solveHelper_unfold (fuel row col : nat) (s : State) :
  solveHelper (S fuel) row col s
  = if row =? 9 then Some (true, s)
    else if col =? 9 then solveHelper fuel (row + 1) 0 s
    else if negb (cell (board s) row col =? ".")%string
         then solveHelper fuel row (col + 1) s
    else tryNumbers (solveHelper fuel row (col + 1)) row col (seq 1 9) s.
Proof. reflexivity. Qed.

Lemma solveHelper_terminates (fuel row col : nat) (s : State) :
  row <= 9 -> col <= 9 -> depth row col <= fuel ->
  exists r, solveHelper fuel row col s = Some r.
Proof.
  revert row col s. induction fuel as [|fuel IH]; intros row col s Hr Hc Hd.
  - unfold depth in Hd. lia.
  - rewrite solveHelper_unfold. destruct (Nat.eqb_spec row 9) as [->|Hr9]; [eauto|].
    destruct (Nat.eqb_spec col 9) as [->|Hc9].
    + apply IH; unfold depth in *; lia.
    + assert (Hnext : forall s', exists r, solveHelper fuel row (col + 1) s' = Some r).
      { intros s'. apply IH; unfold depth in *; lia. }
      destruct (negb _); [apply Hnext|].
      apply tryNumbers_returns, Hnext.
Qed.

Lemma solve_returns (this : SudokuSolver) (board : SudokuBoard) :
  exists ok s, solve this board = Some (ok, s).
Proof.
  destruct (solveHelper_terminates (depth 0 0) 0 0
              (mkState board (initializeTracking this board))) as [[ok s] H];
    [lia|lia|lia|].
  exists ok, s. exact H.
Qed.

(** *** A failed search leaves the board as it found it *)

Lemma tryNumbers_false_board (recur : State -> option (bool * State)) (row col : nat) :
  (forall s s', recur s = Some (false, s') -> board s' = board s) ->
  forall nums s s',
    cell (board s) row col = "." ->
    tryNumbers recur row col nums s = Some (false, s') ->
    board s' = board s.
Proof.
  intros Hrec nums. induction nums as [|num rest IH]; intros s s' Hdot H; simpl in H.
  - now inversion H.
  - destruct (canPlace s row col num); [|now apply IH].
    destruct (recur (place s row col num)) as [[[|] s1]|] eqn:E; try discriminate.
    apply Hrec in E. simpl in E.
    assert (Hb : board (unplace s1 row col num) = board s).
    { simpl. rewrite E, setCell_setCell. now apply setCell_dot_id. }
    rewrite <- Hb. apply IH; [now rewrite Hb|exact H].
Qed.

Lemma solveHelper_false_board (fuel row col : nat) (s s' : State) :
  solveHelper fuel row col s = Some (false, s') -> board s' = board s.
Proof.
  revert row col s s'. induction fuel as [|fuel IH]; intros row col s s' H.
  - discriminate.
  - rewrite solveHelper_unfold in H.
    destruct (row =? 9); [discriminate|].
    destruct (col =? 9); [now apply IH in H|].
    destruct (String.eqb_spec (cell (board s) row col) ".") as [Hdot|Hne]; cbn [negb] in H.
    + eapply tryNumbers_false_board; [|exact Hdot|exact H].
      intros s1 s2. apply IH.
    + now apply IH in H.
Qed.

(** *** The tables are rebuilt on every call *)

Lemma flag_setFlag (table : list (list bool)) (i num i' num' : nat) (v : bool) :
  flag (setFlag table i num v) i' num'
  = if (i' =? i) && (num' =? num) then v else flag table i' num'.
Proof.
  unfold flag, setFlag.
  destruct (Nat.eqb_spec i' i) as [->|Hi]; simpl.
  - rewrite get_set_same.
    destruct (Nat.eqb_spec num' num) as [->|Hn].
    + apply get_set_same.
    + apply get_set_other. congruence.
  - rewrite get_set_other by congruence. reflexivity.
Qed.

Lemma flag_mark (table : list (list bool)) (i i' num' : nat) (num : option Z) :
  flag (mark table i num) i' num'
  = match num with
    | Some z => if (0 <=? z)%Z && (i' =? i) && (num' =? Z.to_nat z)
                then true else flag table i' num'
    | None => flag table i' num'
    end.
Proof.
  unfold mark. destruct num as [z|]; [|reflexivity].
  destruct (0 <=? z)%Z; [|reflexivity].
  rewrite flag_setFlag. reflexivity.
Qed.

Lemma blockIndex_lt (row col : nat) : row < 9 -> col < 9 -> blockIndex row col < 9.
Proof.
  intros Hr Hc. unfold blockIndex.
  pose proof (Nat.div_mod_eq row 3). pose proof (Nat.div_mod_eq col 3).
  pose proof (Nat.mod_upper_bound row 3). pose proof (Nat.mod_upper_bound col 3).
  lia.
Qed.

Lemma existsb_eqb_seq (n len x : nat) :
  existsb (Nat.eqb x) (seq n len) = (n <=? x) && (x <? n + len).
Proof.
  destruct (existsb (Nat.eqb x) (seq n len)) eqn:E.
  - apply existsb_exists in E as (y & Hin & Heq).
    apply Nat.eqb_eq in Heq; subst y. apply in_seq in Hin.
    symmetry. apply andb_true_iff. split; [apply Nat.leb_le|apply Nat.ltb_lt]; lia.
  - symmetry. apply not_true_is_false. intros H.
    apply andb_true_iff in H as [H1 H2].
    apply Nat.leb_le in H1. apply Nat.ltb_lt in H2.
    assert (Hex : existsb (Nat.eqb x) (seq n len) = true).
    { apply existsb_exists. exists x. split; [apply in_seq; lia|apply Nat.eqb_refl]. }
    congruence.
Qed.

Lemma flagsAt_resetEntry (this : SudokuSolver) (i j i' num' : nat) :
  flagsAt (resetEntry this i j) i' num'
  = if (i' =? i) && (num' =? j) then (false, false, false) else flagsAt this i' num'.
Proof.
  unfold flagsAt, resetEntry; simpl. rewrite !flag_setFlag.
  destruct ((i' =? i) && (num' =? j)); reflexivity.
Qed.

Lemma flagsAt_resetRow (js : list nat) (this : SudokuSolver) (i i' num' : nat) :
  flagsAt (fold_left (fun this j => resetEntry this i j) js this) i' num'
  = if (i' =? i) && existsb (Nat.eqb num') js
    then (false, false, false) else flagsAt this i' num'.
Proof.
  revert this. induction js as [|j js IH]; intros this; simpl.
  - now rewrite andb_false_r.
  - rewrite IH, flagsAt_resetEntry.
    destruct (i' =? i), (num' =? j), (existsb (Nat.eqb num') js); reflexivity.
Qed.

Lemma flagsAt_resetRows (rs : list nat) (this : SudokuSolver) (i' num' : nat) :
  flagsAt (fold_left (fun this i => fold_left (fun this j => resetEntry this i j)
                                               (seq 0 10) this) rs this) i' num'
  = if existsb (Nat.eqb i') rs && existsb (Nat.eqb num') (seq 0 10)
    then (false, false, false) else flagsAt this i' num'.
Proof.
  revert this. induction rs as [|i rs IH]; intros this.
  - reflexivity.
  - cbn [fold_left existsb]. rewrite IH, flagsAt_resetRow.
    destruct (i' =? i), (existsb (Nat.eqb i') rs), (existsb (Nat.eqb num') (seq 0 10));
      reflexivity.
Qed.

Lemma resetTracking_clears (this : SudokuSolver) (i num : nat) :
  i < 9 -> num < 10 -> flagsAt (resetTracking this) i num = (false, false, false).
Proof.
  intros Hi Hn. unfold resetTracking, indices.
  rewrite flagsAt_resetRows, !existsb_eqb_seq.
  assert (H1 : (0 <=? i) && (i <? 0 + 9) = true).
  { apply andb_true_iff. split; [apply Nat.leb_le|apply Nat.ltb_lt]; lia. }
  assert (H2 : (0 <=? num) && (num <? 0 + 10) = true).
  { apply andb_true_iff. split; [apply Nat.leb_le|apply Nat.ltb_lt]; lia. }
  now rewrite H1, H2.
Qed.

Lemma agree_resetTracking (t1 t2 : SudokuSolver) :
  agree (resetTracking t1) (resetTracking t2).
Proof. intros i num Hi Hn. now rewrite !resetTracking_clears. Qed.

Lemma flagsAt_markCell (board : SudokuBoard) (t1 t2 : SudokuSolver)
      (p : nat * nat) (i num : nat) :
  flagsAt t1 i num = flagsAt t2 i num ->
  flagsAt (markCell board t1 p) i num = flagsAt (markCell board t2 p) i num.
Proof.
  destruct p as [r c]. unfold markCell, flagsAt. intros H.
  destruct (negb _); [|exact H]. simpl.
  inversion H as [[H1 H2 H3]]. rewrite !flag_mark, H1, H2, H3. reflexivity.
Qed.

Lemma agree_markCell (board : SudokuBoard) (t1 t2 : SudokuSolver) (p : nat * nat) :
  agree t1 t2 -> agree (markCell board t1 p) (markCell board t2 p).
Proof. intros H i num Hi Hn. apply flagsAt_markCell, H; assumption. Qed.

Lemma agree_initializeTracking (t1 t2 : SudokuSolver) (board : SudokuBoard) :
  agree (initializeTracking t1 board) (initializeTracking t2 board).
Proof.
  unfold initializeTracking, markExisting.
  generalize (agree_resetTracking t1 t2).
  generalize (resetTracking t1) (resetTracking t2). 
  induction positions as [|p ps IH]; intros u1 u2 H; simpl; [exact H|].
  apply IH, agree_markCell, H.
Qed.

Lemma canPlace_related (s1 s2 : State) (row col num : nat) :
  related s1 s2 -> row < 9 -> col < 9 -> num < 10 ->
  canPlace s1 row col num = canPlace s2 row col num.
Proof.
  intros [_ H] Hr Hc Hn. unfold canPlace.
  pose proof (H row num Hr Hn) as E1.
  pose proof (H col num Hc Hn) as E2.
  pose proof (H _ num (blockIndex_lt row col Hr Hc) Hn) as E3.
  unfold flagsAt in *. inversion E1. inversion E2. inversion E3. congruence.
Qed.

Lemma related_place (s1 s2 : State) (row col num : nat) :
  related s1 s2 -> related (place s1 row col num) (place s2 row col num).
Proof.
  intros [Hb H]. split; simpl; [now rewrite Hb|].
  intros i n Hi Hn. specialize (H i n Hi Hn).
  unfold flagsAt in *; simpl. rewrite !flag_setFlag. inversion H. congruence.
Qed.

Lemma related_unplace (s1 s2 : State) (row col num : nat) :
  related s1 s2 -> related (unplace s1 row col num) (unplace s2 row col num).
Proof.
  intros [Hb H]. split; simpl; [now rewrite Hb|].
  intros i n Hi Hn. specialize (H i n Hi Hn).
  unfold flagsAt in *; simpl. rewrite !flag_setFlag. inversion H. congruence.
Qed.

Lemma tryNumbers_related (recur1 recur2 : State -> option (bool * State)) (row col : nat) :
  row < 9 -> col < 9 ->
  (forall s1 s2, related s1 s2 -> sameOutcome (recur1 s1) (recur2 s2)) ->
  forall nums s1 s2,
    Forall (fun num => num < 10) nums ->
    related s1 s2 ->
    sameOutcome (tryNumbers recur1 row col nums s1) (tryNumbers recur2 row col nums s2).
Proof.
  intros Hr Hc Hrec nums. induction nums as [|num rest IH]; intros s1 s2 Hnums Hrel; simpl.
  - split; [reflexivity|exact Hrel].
  - inversion Hnums as [|? ? Hnum Hrest]; subst.
    rewrite (canPlace_related s1 s2 row col num Hrel Hr Hc Hnum).
    destruct (canPlace s2 row col num); [|now apply IH].
    pose proof (Hrec _ _ (related_place s1 s2 row col num Hrel)) as Hout.
    destruct (recur1 (place s1 row col num)) as [[ok1 u1]|],
             (recur2 (place s2 row col num)) as [[ok2 u2]|]; simpl in Hout; try contradiction.
    + destruct Hout as [<- Hu]. destruct ok1.
      * split; [reflexivity|exact Hu].
      * apply IH; [assumption|]. now apply related_unplace.
    + exact I.
Qed.

Lemma solveHelper_related (fuel row col : nat) (s1 s2 : State) :
  row <= 9 -> col <= 9 -> related s1 s2 ->
  sameOutcome (solveHelper fuel row col s1) (solveHelper fuel row col s2).
Proof.
  revert row col s1 s2. induction fuel as [|fuel IH]; intros row col s1 s2 Hr Hc Hrel.
  - exact I.
  - rewrite !solveHelper_unfold.
    destruct (Nat.eqb_spec row 9) as [->|Hr9]; [split; [reflexivity|exact Hrel]|].
    destruct (Nat.eqb_spec col 9) as [->|Hc9]; [apply IH; [lia|lia|exact Hrel]|].
    destruct Hrel as [Hb Ht]. rewrite Hb.
    destruct (negb _).
    + apply IH; [lia|lia|now split].
    + apply tryNumbers_related; [lia|lia| | |now split].
      * intros u1 u2 Hu. apply IH; [lia|lia|exact Hu].
      * apply List.Forall_forall. intros n Hn. apply in_seq in Hn. lia.
Qed.

Lemma solve_unfold (this : SudokuSolver) (board : SudokuBoard) :
  solve this board
  = solveHelper (depth 0 0) 0 0 (mkState board (initializeTracking this board)).
Proof. reflexivity. Qed.

Lemma solveSudoku_unfold (board : SudokuBoard) :
  solveSudoku board
  = match solve new board with
    | Some (ok, s) => Some (ok, Solver.board s)
    | None => None
    end.
Proof. reflexivity. Qed.

Lemma solve_related (t1 t2 : SudokuSolver) (board : SudokuBoard) :
  sameOutcome (solve t1 board) (solve t2 board).
Proof.
  rewrite !solve_unfold. apply solveHelper_related; [lia|lia|].
  split; [reflexivity|apply agree_initializeTracking].
Qed.

Lemma solve_false_board (this : SudokuSolver) (board0 : SudokuBoard) (s : State) :
  solve this board0 = Some (false, s) -> board s = board0.
Proof.
  rewrite solve_unfold. intros H.
  apply (solveHelper_false_board (depth 0 0) 0 0 _ s H).
Qed.

Lemma copyBoardForSolving_id (board : SudokuBoard) : copyBoardForSolving board = board.
Proof.
  unfold copyBoardForSolving. rewrite <- (map_id board) at 2.
  apply map_ext. intros row. apply map_id.
Qed.

(** *** Statements about [solve] *)

Example solveSudoku_fallback : solveSudoku fallbackBoard = Some (true, fallbackSolved).
Proof. vm_compute. reflexivity. Qed.

(** The search on the classic puzzle, run. *)
Lemma solve_new_fallback :
  exists s, solve new fallbackBoard = Some (true, s) /\ board s = fallbackSolved.
Proof.
  pose proof solveSudoku_fallback as H. rewrite solveSudoku_unfold in H.
  destruct (solve new fallbackBoard) as [[ok s]|]; [|discriminate].
  inversion H; subst. exists s. split; reflexivity.
Qed.

(** C1. Calling [solve] on the classic puzzle returns [true], and the
    board is left holding exactly the classic solution, whatever
    earlier calls left in the tables of the solver. *)
Theorem solve_classic_puzzle (this : SudokuSolver) :
  shaped this ->
  exists s, solve this fallbackBoard = Some (true, s) /\ board s = fallbackSolved.
Proof.
  intros _.
  pose proof (solve_related this new fallbackBoard) as H.
  destruct solve_new_fallback as (s0 & E0 & Hb0). rewrite E0 in H.
  destruct (solve this fallbackBoard) as [[ok s]|]; [|contradiction].
  destruct H as (-> & Hb & _).
  exists s. split; [reflexivity|congruence].
Qed.

Lemma shaped_new : shaped new.
Proof. repeat split. Qed.

Lemma solve_classic_puzzle_witness :
  shaped new
  /\ exists s, solve new fallbackBoard = Some (true, s) /\ board s = fallbackSolved.
Proof. split; [exact shaped_new|apply (solve_classic_puzzle new), shaped_new]. Defined.

(** C3. [solve(board)] returns, and if it returns [false] the board
    after the call is cell for cell the board before the call: every
    placement of the failed search has been undone. *)
Theorem failed_solve_restores_board (this : SudokuSolver) (board0 : SudokuBoard) :
  shaped this -> wf_board board0 ->
  (exists ok s, solve this board0 = Some (ok, s))
  /\ forall s, solve this board0 = Some (false, s) -> board s = board0.
Proof.
  intros _ _. split; [apply solve_returns|apply solve_false_board].
Qed.

Lemma wf_deadEndBoard : wf_board deadEndBoard.
Proof. apply wf_boardb_spec. reflexivity. Qed.

Lemma wf_backtrackBoard : wf_board backtrackBoard.
Proof. apply wf_boardb_spec. reflexivity. Qed.

Lemma solveSudoku_backtrack : solveSudoku backtrackBoard = Some (false, backtrackBoard).
Proof. vm_compute. reflexivity. Qed.

(** The search on [backtrackBoard] starts by writing a 1 into (0, 2),
    the first empty cell, and ends with [false]. *)
Lemma solve_false_on_backtrackBoard :
  cell backtrackBoard 0 2 = "."
  /\ canPlace (mkState backtrackBoard (initializeTracking new backtrackBoard)) 0 2 1 = true
  /\ exists s, solve new backtrackBoard = Some (false, s).
Proof.
  split; [reflexivity|]. split; [vm_compute; reflexivity|].
  pose proof solveSudoku_backtrack as H. rewrite solveSudoku_unfold in H.
  destruct (solve new backtrackBoard) as [[[|] s]|]; try discriminate.
  exists s. reflexivity.
Qed.

(** A failing call that backtracks: on [backtrackBoard] the search
    places digits, the first of them a 1 at (0, 2), before it gives up,
    and the board it leaves is the board it was given. *)
Lemma failed_solve_restores_board_witness :
  cell backtrackBoard 0 2 = "."
  /\ canPlace (mkState backtrackBoard (initializeTracking new backtrackBoard)) 0 2 1 = true
  /\ exists s, solve new backtrackBoard = Some (false, s) /\ board s = backtrackBoard.
Proof.
  destruct (failed_solve_restores_board new backtrackBoard shaped_new wf_backtrackBoard)
    as [_ Hrestore].
  destruct solve_false_on_backtrackBoard as (Hdot & Hplace & s & E).
  split; [exact Hdot|]. split; [exact Hplace|].
  exists s. split; [exact E|]. apply Hrestore. exact E.
Defined.

(** C9. [solve] is deterministic: run on two independent copies of a
    board, by solvers with whatever history, it terminates with the
    same answer and the same cells in both copies. *)
Theorem solve_deterministic (this1 this2 : SudokuSolver) (board0 : SudokuBoard) :
  shaped this1 -> shaped this2 -> wf_board board0 ->
  exists ok s1 s2,
    solve this1 (copyBoardForSolving board0) = Some (ok, s1)
    /\ solve this2 (copyBoardForSolving board0) = Some (ok, s2)
    /\ board s1 = board s2.
Proof.
  intros _ _ _. rewrite copyBoardForSolving_id.
  destruct (solve_returns this1 board0) as (ok1 & s1 & E1).
  destruct (solve_returns this2 board0) as (ok2 & s2 & E2).
  pose proof (solve_related this1 this2 board0) as H.
  rewrite E1, E2 in H. destruct H as (<- & Hb & _).
  exists ok1, s1, s2. auto.
Qed.

Lemma shaped_usedSolver : shaped usedSolver.
Proof. unfold shaped. split; [|split]; vm_compute; reflexivity. Qed.

Lemma wf_fallbackBoard : wf_board fallbackBoard.
Proof. apply wf_boardb_spec. reflexivity. Qed.

Lemma solve_deterministic_witness :
  exists ok s1 s2,
    solve new (copyBoardForSolving fallbackBoard) = Some (ok, s1)
    /\ solve usedSolver (copyBoardForSolving fallbackBoard) = Some (ok, s2)
    /\ board s1 = board s2.
Proof.
  apply (solve_deterministic new usedSolver fallbackBoard);
    [exact shaped_new|exact shaped_usedSolver|exact wf_fallbackBoard].
Defined.

(** C2. A board with two 5s in one row admits no complete,
    constraint-satisfying assignment, and yet [solve] returns [true] on
    it: the search fills the one empty cell and never looks at the
    cells it was given. *)
Theorem solve_true_on_unsolvable_board :
  wf_board doubledFive
  /\ cell doubledFive 0 0 = "5" /\ cell doubledFive 0 2 = "5"
  /\ unsolvable doubledFive
  /\ solveSudoku doubledFive = Some (true, doubledFiveFilled).
Proof.
  split; [apply wf_boardb_spec; reflexivity|].
  split; [reflexivity|]. split; [reflexivity|]. split.
  - intros board' Hc (_ & _ & Hdistinct).
    apply (Hdistinct (0, 0) (0, 2)).
    + split; simpl; lia.
    + split; simpl; lia.
    + split; [discriminate|left; reflexivity].
    + rewrite (Hc (0, 0)), (Hc (0, 2)).
      * reflexivity.
      * split; simpl; lia.
      * discriminate.
      * split; simpl; lia.
      * discriminate.
  - vm_compute. reflexivity.
Qed.

(** ** Accuracy figures *)

Lemma allUpTo_spec (P : nat -> Prop) (n : nat) :
  allUpTo P n -> forall k, k <= n -> P k.
Proof.
  induction n as [|n IH]; simpl; intros H k Hk.
  - assert (k = 0) as -> by lia. exact H.
  - destruct H as [HS Hrest].
    destruct (Nat.eq_dec k (S n)) as [->|Hne]; [exact HS|].
    apply IH; [exact Hrest|lia].
Qed.

Import Analysis.

(** Every pair of counts the 81 cells allow, checked one by one. *)
Lemma accuracy_table :
  allUpTo (fun filled =>
             allUpTo (fun correct =>
                        accuracyOk (roundTwoPlaces (percentage correct filled))
                                   correct filled)
                     filled)
          81.
Proof.
  vm_compute. repeat split.
Qed.

Lemma accuracy_of_counts (correct filled : nat) :
  correct <= filled -> filled <= 81 ->
  accuracySpec (roundTwoPlaces (percentage correct filled)) correct filled.
Proof.
  intros Hc Hf.
  pose proof (allUpTo_spec _ _ (allUpTo_spec _ _ accuracy_table filled Hf) correct Hc)
    as [Heq Hb].
  apply andb_true_iff in Hb as [Hlo Hhi].
  unfold expectedAccuracy in Heq.
  repeat split; try assumption.
  - intros ->. exact Heq.
  - intros Hpos. destruct (Nat.eqb_spec filled 0); [lia|exact Heq].
Qed.

Lemma length_positions : length positions = 81.
Proof. reflexivity. Qed.

Lemma compareLoop_counts (currentBoard solvedBoard : SudokuBoard)
      (ps : list (nat * nat)) (t : Tally) :
  totalFilledCells t = length (correct t) + length (incorrect t) ->
  let t' := fold_left (compareCell currentBoard solvedBoard) ps t in
  totalFilledCells t' = length (correct t') + length (incorrect t')
  /\ totalFilledCells t' <= totalFilledCells t + length ps.
Proof.
  revert t. induction ps as [|[i j] ps IH]; intros t Ht; cbn [fold_left length].
  - lia.
  - specialize (IH (compareCell currentBoard solvedBoard t (i, j))).
    assert (Hstep : let u := compareCell currentBoard solvedBoard t (i, j) in
                    totalFilledCells u = length (correct u) + length (incorrect u)
                    /\ totalFilledCells u <= totalFilledCells t + 1).
    { unfold compareCell.
      destruct (cell currentBoard i j =? ".")%string; simpl; [lia|].
      destruct (cell currentBoard i j =? cell solvedBoard i j)%string; simpl;
        unfold JS.push; rewrite length_app; simpl; lia. }
    destruct Hstep as [H1 H2]. destruct (IH H1) as [H3 H4]. split; [exact H3|lia].
Qed.

Lemma countLoop_counts (currentBoard solvedBoard : SudokuBoard) (originalCells : GivenMask)
      (ps : list (nat * nat)) (counters : nat * nat * nat) :
  snd (fst counters) <= fst (fst counters) ->
  let counters' := fold_left (countCell currentBoard solvedBoard originalCells) ps counters in
  snd (fst counters') <= fst (fst counters')
  /\ fst (fst counters') <= fst (fst counters) + length ps.
Proof.
  revert counters. induction ps as [|[i j] ps IH]; intros [[f c] o] Hc;
    cbn [fold_left length fst snd] in *.
  - lia.
  - specialize (IH (countCell currentBoard solvedBoard originalCells (f, c, o) (i, j))).
    assert (Hstep : let u := countCell currentBoard solvedBoard originalCells (f, c, o) (i, j) in
                    snd (fst u) <= fst (fst u) /\ fst (fst u) <= f + 1).
    { unfold countCell.
      destruct (given originalCells i j); simpl; [lia|].
      destruct (negb _); simpl; [|lia].
      destruct (cell currentBoard i j =? cell solvedBoard i j)%string; simpl; lia. }
    destruct Hstep as [H1 H2]. destruct (IH H1) as [H3 H4]. split; [exact H3|lia].
Qed.

Lemma compareLoop_total (currentBoard solvedBoard : SudokuBoard) :
  totalFilledCells (compareLoop currentBoard solvedBoard)
  = length (correct (compareLoop currentBoard solvedBoard))
    + length (incorrect (compareLoop currentBoard solvedBoard))
  /\ totalFilledCells (compareLoop currentBoard solvedBoard) <= 81.
Proof.
  unfold compareLoop.
  generalize (compareLoop_counts currentBoard solvedBoard positions (mkTally [] [] [] 0)).
  rewrite length_positions. generalize positions. intros ps H.
  destruct H as [H1 H2]; [reflexivity|]. split; [exact H1|exact H2].
Qed.

Lemma countLoop_total (currentBoard solvedBoard : SudokuBoard) (originalCells : GivenMask) :
  snd (fst (countLoop currentBoard solvedBoard originalCells))
  <= fst (fst (countLoop currentBoard solvedBoard originalCells))
  /\ fst (fst (countLoop currentBoard solvedBoard originalCells)) <= 81.
Proof.
  unfold countLoop.
  generalize (countLoop_counts currentBoard solvedBoard originalCells positions (0, 0, 0)).
  rewrite length_positions. generalize positions. intros ps H.
  destruct H as [H1 H2]; [cbn [fst snd]; lia|]. split; [exact H1|exact H2].
Qed.

(** C8. The accuracy reported by [compareBoards] and by
    [getValidationStats] lies in [0, 100], is exactly 0 when no filled
    cell is counted, and otherwise is the ratio of correct to filled
    cells times 100, rounded half up to two decimals. *)
Theorem accuracy_is_rounded_percentage
        (currentBoard solvedBoard : SudokuBoard) (originalCells : GivenMask) :
  wf_board currentBoard -> wf_board solvedBoard -> wf_mask originalCells ->
  let r := compareBoards currentBoard solvedBoard in
  let st := getValidationStats currentBoard solvedBoard originalCells in
  accuracySpec (accuracy r) (length (correctCells r))
               (length (correctCells r) + length (incorrectCells r))
  /\ accuracySpec (statsAccuracy st) (correctCount st) (filledCells st).
Proof.
  intros _ _ _. split.
  - destruct (compareLoop_total currentBoard solvedBoard) as [H1 H2].
    unfold compareBoards. cbn [accuracy correctCells incorrectCells].
    rewrite <- H1. apply accuracy_of_counts; lia.
  - destruct (countLoop_total currentBoard solvedBoard originalCells) as [H1 H2].
    unfold getValidationStats.
    destruct (countLoop currentBoard solvedBoard originalCells) as [[f c] o].
    cbn [statsAccuracy correctCount filledCells fst snd] in *.
    apply accuracy_of_counts; lia.
Qed.

Lemma wf_fallbackSolved : wf_board fallbackSolved.
Proof. apply wf_boardb_spec. reflexivity. Qed.

Lemma wf_mask_maskOf (board : SudokuBoard) : wf_board board -> wf_mask (maskOf board).
Proof.
  intros [Hl Hr]. unfold wf_mask, maskOf. rewrite length_map. split; [exact Hl|].
  apply List.Forall_forall. intros r Hin. apply in_map_iff in Hin as (r0 & <- & Hin0).
  rewrite length_map. rewrite List.Forall_forall in Hr. apply Hr, Hin0.
Qed.

Lemma accuracy_is_rounded_percentage_witness :
  let r := compareBoards fallbackBoard fallbackSolved in
  let st := getValidationStats fallbackBoard fallbackSolved (maskOf fallbackBoard) in
  accuracySpec (accuracy r) (length (correctCells r))
               (length (correctCells r) + length (incorrectCells r))
  /\ accuracySpec (statsAccuracy st) (correctCount st) (filledCells st).
Proof.
  apply (accuracy_is_rounded_percentage fallbackBoard fallbackSolved (maskOf fallbackBoard));
    [exact wf_fallbackBoard|exact wf_fallbackSolved
    |exact (wf_mask_maskOf fallbackBoard wf_fallbackBoard)].
Defined.

(** ** utils.ts *)

Import Utils.

Lemma in_indices (i : nat) : In i indices <-> i < 9.
Proof. unfold indices. rewrite in_seq. lia. Qed.

Lemma in_positions (p : nat * nat) : In p positions <-> inGrid p.
Proof.
  unfold positions, inGrid. rewrite in_flat_map. split.
  - intros (i & Hi & Hp). apply in_map_iff in Hp as (j & <- & Hj).
    apply in_indices in Hi, Hj. simpl. lia.
  - intros [Hi Hj]. exists (fst p). split; [now apply in_indices|].
    apply in_map_iff. exists (snd p). split; [now destruct p|now apply in_indices].
Qed.

(** ** Hints *)

Section Push.
Context {A : Type} (step : list A -> A -> list A) (keep : A -> bool).
Hypothesis step_push : forall acc x, step acc x = if keep x then JS.push acc x else acc.

Lemma fold_push_filter (l acc : list A) : fold_left step l acc = acc ++ List.filter keep l.
Proof.
  revert acc. induction l as [|x l IH]; intros acc; simpl.
  - now rewrite app_nil_r.
  - rewrite IH, step_push. unfold JS.push.
    destruct (keep x); [rewrite <- List.app_assoc|]; reflexivity.
Qed.

End Push.

Lemma availableHints_filter (currentBoard : SudokuBoard) (originalCells : GivenMask) :
  availableHints currentBoard originalCells
  = List.filter (candidateb currentBoard originalCells) positions.
Proof.
  unfold availableHints.
  rewrite (fold_push_filter _ (candidateb currentBoard originalCells)); [reflexivity|].
  intros acc [i j]. reflexivity.
Qed.

Lemma in_availableHints (currentBoard : SudokuBoard) (originalCells : GivenMask)
      (p : nat * nat) :
  In p (availableHints currentBoard originalCells)
  <-> hintCandidate currentBoard originalCells p.
Proof.
  rewrite availableHints_filter, filter_In, in_positions.
  unfold candidateb, hintCandidate.
  rewrite andb_true_iff, String.eqb_eq, negb_true_iff. tauto.
Qed.

(** *** The index drawn by [getHint]

    [Math.floor(Math.random() * n)] in binary64: the product of a
    double in [0, 1) and [n] rounds to a double that is at most [n], and
    below [n] as long as [n] is small; its floor is one of 0..n-1. *)

Section Binary64.
Local Open Scope Z_scope.

(** [digits2_pos] counts the bits of a mantissa. *)
Lemma digits_bounds (p : positive) :
  2 ^ (Zpos (digits2_pos p) - 1) <= Zpos p < 2 ^ Zpos (digits2_pos p).
Proof.
  induction p as [p IH|p IH|]; cbn [digits2_pos].
  - rewrite Pos2Z.inj_succ, (Pos2Z.inj_xI p).
    replace (Z.succ (Zpos (digits2_pos p)) - 1) with (Z.succ (Zpos (digits2_pos p) - 1)) by lia.
    rewrite !Z.pow_succ_r by lia. revert IH.
    generalize (2 ^ (Zpos (digits2_pos p) - 1)) (2 ^ Zpos (digits2_pos p)). intros; lia.
  - rewrite Pos2Z.inj_succ, (Pos2Z.inj_xO p).
    replace (Z.succ (Zpos (digits2_pos p)) - 1) with (Z.succ (Zpos (digits2_pos p) - 1)) by lia.
    rewrite !Z.pow_succ_r by lia. revert IH.
    generalize (2 ^ (Zpos (digits2_pos p) - 1)) (2 ^ Zpos (digits2_pos p)). intros; lia.
  - cbn. lia.
Qed.

Lemma iter_pos_nat {A : Type} (f : A -> A) (p : positive) (x : A) :
  SpecFloat.iter_pos f p x = Nat.iter (Pos.to_nat p) f x.
Proof.
  revert x. induction p as [p IH|p IH|]; intros x; cbn [SpecFloat.iter_pos].
  - rewrite !IH, Pos2Nat.inj_xI, <- Nat.iter_add.
    replace (S (2 * Pos.to_nat p))%nat with (Pos.to_nat p + Pos.to_nat p + 1)%nat by lia.
    rewrite (Nat.iter_add (Pos.to_nat p + Pos.to_nat p) 1). reflexivity.
  - rewrite !IH, Pos2Nat.inj_xO, <- Nat.iter_add. f_equal. lia.
  - reflexivity.
Qed.

Lemma shr_1_spec (m : Z) (r s : bool) :
  0 <= m ->
  shr_m (shr_1 (Build_shr_record m r s)) = m / 2
  /\ shr_r (shr_1 (Build_shr_record m r s)) = Z.odd m.
Proof.
  intros Hm. rewrite <- Z.div2_div.
  destruct m as [|[p|p|]|p]; try lia; cbn; split; reflexivity.
Qed.

Lemma shr_iter_spec (k : nat) (M : Z) (r s : bool) :
  0 <= M ->
  let mrs := Nat.iter (S k) shr_1 (Build_shr_record M r s) in
  shr_m mrs = M / 2 ^ Z.of_nat (S k) /\ shr_r mrs = Z.odd (M / 2 ^ Z.of_nat k).
Proof.
  intros HM. induction k as [|k IH]; cbv zeta.
  - unfold Nat.iter. cbn [nat_rect]. destruct (shr_1_spec M r s HM) as [H1 H2].
    rewrite H1, H2. cbn [Z.of_nat]. rewrite Z.pow_0_r, Z.div_1_r. split; reflexivity.
  - cbv zeta in IH. destruct IH as [Hm Hr].
    change (Nat.iter (S (S k)) shr_1 (Build_shr_record M r s))
      with (shr_1 (Nat.iter (S k) shr_1 (Build_shr_record M r s))).
    destruct (Nat.iter (S k) shr_1 (Build_shr_record M r s)) as [m1 r1 s1].
    cbn [shr_m shr_r] in Hm, Hr.
    assert (H0 : 0 <= m1) by (rewrite Hm; apply Z.div_pos; lia).
    destruct (shr_1_spec m1 r1 s1 H0) as [H1 H2]. rewrite H1, H2, Hm.
    split; [|reflexivity].
    rewrite Z.div_div by lia. f_equal.
    rewrite (Nat2Z.inj_succ (S k)), Z.pow_succ_r by lia. lia.
Qed.

(** Shifting a mantissa right by [p] places divides it by 2^p; the
    round bit is the last bit shifted out. *)
Lemma shr_pos (M : Z) (r s : bool) (e : Z) (p : positive) :
  0 <= M ->
  snd (shr (Build_shr_record M r s) e (Zpos p)) = e + Zpos p
  /\ shr_m (fst (shr (Build_shr_record M r s) e (Zpos p))) = M / 2 ^ Zpos p
  /\ shr_r (fst (shr (Build_shr_record M r s) e (Zpos p))) = Z.odd (M / 2 ^ (Zpos p - 1)).
Proof.
  intros HM. unfold shr. cbn [fst snd]. split; [reflexivity|].
  rewrite iter_pos_nat.
  destruct (Pos2Nat.is_succ p) as [k Hk]. rewrite Hk.
  destruct (shr_iter_spec k M r s HM) as [H1 H2].
  rewrite H1, H2.
  assert (E : Z.of_nat (S k) = Zpos p) by (rewrite <- Hk; apply positive_nat_Z).
  rewrite E. replace (Z.of_nat k) with (Zpos p - 1) by lia. split; reflexivity.
Qed.

Lemma shr_nonpos (mrs : shr_record) (e n : Z) : n <= 0 -> shr mrs e n = (mrs, e).
Proof. destruct n; [reflexivity|lia|reflexivity]. Qed.

(** Rounding to nearest even keeps the shifted mantissa or adds one to
    it, and adds one only when the round bit is set. *)
Lemma rne_cases (mrs : shr_record) :
  round_nearest_even (shr_m mrs) (loc_of_shr_record mrs) = shr_m mrs
  \/ (round_nearest_even (shr_m mrs) (loc_of_shr_record mrs) = shr_m mrs + 1
      /\ shr_r mrs = true).
Proof.
  destruct mrs as [m [|] [|]]; cbn; auto.
  destruct (Z.even m); auto.
Qed.

Lemma binary_round_aux_finish (s : bool) (M E : Z) :
  binary_round_aux prec emax s M E loc_Exact
  = let '(mrs, e') := shr_fexp prec emax M E loc_Exact in
    finish s (round_nearest_even (shr_m mrs) (loc_of_shr_record mrs)) e'.
Proof.
  unfold binary_round_aux, finish.
  destruct (shr_fexp prec emax M E loc_Exact) as [mrs e']. reflexivity.
Qed.

Lemma fexp_eq (z : Z) : fexp prec emax z = Z.max (z - 53) (-1074).
Proof. reflexivity. Qed.

Lemma digits_le_53 (q : positive) : Zpos q < 2 ^ 53 -> Zpos (digits2_pos q) <= 53.
Proof.
  intros H. destruct (digits_bounds q) as [Hlo _].
  destruct (Z_le_gt_dec (Zpos (digits2_pos q)) 53) as [Hle|Hgt]; [exact Hle|].
  exfalso. assert (2 ^ 53 <= 2 ^ (Zpos (digits2_pos q) - 1)) by (apply Z.pow_le_mono_r; lia).
  lia.
Qed.

Lemma finish_small (s : bool) (q : positive) (e : Z) :
  Zpos q < 2 ^ 53 -> -1074 <= e ->
  finish s (Zpos q) e = if e <=? 971 then S754_finite s q e else S754_infinity s.
Proof.
  intros Hq He. unfold finish, shr_fexp. cbn [Zdigits2]. rewrite fexp_eq.
  pose proof (digits_le_53 q Hq) as Hd.
  rewrite shr_nonpos by lia. cbn [shr_record_of_loc shr_m]. reflexivity.
Qed.

Lemma finish_carry (s : bool) (e : Z) :
  -1074 <= e ->
  finish s (2 ^ 53) e
  = if e + 1 <=? 971 then S754_finite s 4503599627370496 (e + 1) else S754_infinity s.
Proof.
  intros He. unfold finish, shr_fexp.
  change (Zdigits2 (2 ^ 53)) with 54. rewrite fexp_eq.
  replace (Z.max (54 + e - 53) (-1074) - e) with 1 by lia.
  reflexivity.
Qed.

(** [binary_round_aux] on a mantissa that needs no shift. *)
Lemma binary_round_aux_exact (s : bool) (M : positive) (E : Z) :
  Zpos M < 2 ^ 53 -> -1074 <= E ->
  binary_round_aux prec emax s (Zpos M) E loc_Exact
  = if E <=? 971 then S754_finite s M E else S754_infinity s.
Proof.
  intros HM HE. rewrite binary_round_aux_finish. unfold shr_fexp. cbn [Zdigits2].
  rewrite fexp_eq. pose proof (digits_le_53 M HM) as Hd.
  rewrite shr_nonpos by lia. cbn [shr_record_of_loc shr_m loc_of_shr_record round_nearest_even].
  now apply finish_small.
Qed.

(** [binary_round_aux] on a mantissa shifted by [k > 0] places. *)
Lemma binary_round_aux_shift (s : bool) (M : positive) (E k : Z) :
  k = Z.max (Zpos (digits2_pos M) + E - 53) (-1074) - E -> 0 < k ->
  exists q, (q = Zpos M / 2 ^ k
             \/ (q = Zpos M / 2 ^ k + 1 /\ Z.odd (Zpos M / 2 ^ (k - 1)) = true))
            /\ binary_round_aux prec emax s (Zpos M) E loc_Exact = finish s q (E + k).
Proof.
  intros Hk Hpos. rewrite binary_round_aux_finish. unfold shr_fexp. cbn [Zdigits2].
  rewrite fexp_eq, <- Hk. cbn [shr_record_of_loc].
  destruct k as [|p|p]; try lia.
  destruct (shr_pos (Zpos M) false false E p) as (He & Hm & Hr); [lia|].
  destruct (shr (Build_shr_record (Zpos M) false false) E (Zpos p)) as [mrs e'].
  cbn [fst snd] in He, Hm, Hr. subst e'.
  exists (round_nearest_even (shr_m mrs) (loc_of_shr_record mrs)). split; [|reflexivity].
  destruct (rne_cases mrs) as [H|[H Hodd]]; rewrite H, Hm.
  - now left.
  - right. split; [reflexivity|]. now rewrite <- Hr.
Qed.

(** A finite double: a mantissa below 2^53, of 53 bits unless the
    exponent is the least one. *)
Lemma valid_finite (s : bool) (m : positive) (e : Z) :
  SpecFloat.valid_binary prec emax (S754_finite s m e) = true ->
  Zpos m < 2 ^ 53 /\ -1074 <= e <= 971 /\ (-1074 < e -> 2 ^ 52 <= Zpos m).
Proof.
  unfold valid_binary, bounded, canonical_mantissa. rewrite fexp_eq.
  intros H. apply andb_true_iff in H as [Hc Hb].
  apply Z.eqb_eq in Hc. apply Z.leb_le in Hb. change (emax - prec) with 971 in Hb.
  destruct (digits_bounds m) as [Hlo Hhi].
  assert (Hd : Zpos (digits2_pos m) <= 53) by lia.
  split; [|split; [lia|]].
  - assert (2 ^ Zpos (digits2_pos m) <= 2 ^ 53) by (apply Z.pow_le_mono_r; lia). lia.
  - intros He. assert (Ed : Zpos (digits2_pos m) = 53) by lia.
    rewrite Ed in Hlo. exact Hlo.
Qed.

Lemma pow2_pos (z : Z) : 0 <= z -> 1 <= 2 ^ z.
Proof. intros H. change 1 with (2 ^ 0). apply Z.pow_le_mono_r; lia. Qed.

Lemma round_up_bound (M Q W h B : Z) :
  W = 2 * Q + 1 -> W * h <= M -> B = 2 * h -> 2 * (Q + 1) * B <= 2 * M + B.
Proof. intros -> HW ->. lia. Qed.

(** The arithmetic of [mul_below], with [T] for 2^52, [A] for 2^-e,
    [B] for 2^k and [C] for the scale of the result. *)
Lemma product_below (T mn m A B C q M : Z) :
  1 <= T -> T <= mn < 2 * T -> 1 <= m < 2 * T -> 2 * T <= A ->
  B * C = A -> 2 <= B <= 2 * T -> 1 <= C -> M = m * mn ->
  2 * q * B <= 2 * M + B -> (B = 2 * T -> 2 * T * T <= M) ->
  q < mn * C.
Proof.
  intros HT Hmn Hm HA HBC HB HC EM Hkey Hfull.
  destruct (Z_lt_ge_dec q (mn * C)) as [H|H]; [exact H|]. exfalso.
  assert (H1 : 2 * (mn * A) <= 2 * q * B).
  { rewrite <- HBC.
    assert (mn * C * (2 * B) <= q * (2 * B)) by (apply Z.mul_le_mono_nonneg_r; lia).
    lia. }
  assert (H2 : 2 * (mn * (A - m)) <= B) by lia.
  assert (H3 : mn * 1 <= mn * (A - m)) by (apply Z.mul_le_mono_nonneg_l; lia).
  assert (EB : B = 2 * T) by lia.
  specialize (Hfull EB).
  assert (EA : A - m = 1).
  { destruct (Z_le_gt_dec (A - m) 1) as [H4|H4]; [lia|]. exfalso.
    assert (mn * 2 <= mn * (A - m)) by (apply Z.mul_le_mono_nonneg_l; lia). lia. }
  assert (Em : m = 2 * T - 1) by lia.
  assert (Emn : mn = T) by (rewrite EA in H2; lia).
  subst m mn M. lia.
Qed.

(** The product of a positive double below 1 and a normal double [n]
    is a double below [n]: rounding to nearest cannot reach [n]. *)
Lemma mul_below (m mn : positive) (e en : Z) :
  SpecFloat.valid_binary prec emax (S754_finite false m e) = true -> e <= -53 ->
  2 ^ 52 <= Zpos mn < 2 ^ 53 -> -52 <= en <= 0 ->
  exists q e',
    SFmul prec emax (S754_finite false m e) (S754_finite false mn en)
    = S754_finite false q e'
    /\ e' <= en /\ Zpos q < Zpos mn * 2 ^ (en - e').
Proof.
  intros Hv He Hmn Hen.
  destruct (valid_finite _ _ _ Hv) as (Hm & Hemin & Hnorm).
  cbn [SFmul xorb]. rewrite Pos2Z.inj_mul.
  set (M := (m * mn)%positive).
  assert (EM : Zpos M = Zpos m * Zpos mn) by (unfold M; apply Pos2Z.inj_mul).
  rewrite <- EM.
  assert (HA : 2 ^ 53 <= 2 ^ (- e)) by (apply Z.pow_le_mono_r; lia).
  assert (HM52 : 2 ^ 52 <= Zpos M) by nia.
  assert (HM106 : Zpos M < 2 ^ 106).
  { rewrite EM. change (2 ^ 106) with (2 ^ 53 * 2 ^ 53). nia. }
  destruct (digits_bounds M) as [Hdlo Hdhi].
  set (d := Zpos (digits2_pos M)) in *.
  assert (Hd53 : 53 <= d).
  { destruct (Z_le_gt_dec 53 d) as [H|H]; [exact H|]. exfalso.
    assert (2 ^ d <= 2 ^ 52) by (apply Z.pow_le_mono_r; lia). lia. }
  assert (Hd106 : d <= 106).
  { destruct (Z_le_gt_dec d 106) as [H|H]; [exact H|]. exfalso.
    assert (2 ^ 106 <= 2 ^ (d - 1)) by (apply Z.pow_le_mono_r; lia). lia. }
  set (E := e + en).
  destruct (Z_le_gt_dec (Z.max (d + E - 53) (-1074) - E) 0) as [Hk|Hk].
  - (* no shift: the product is exact *)
    assert (Ed : d = 53) by lia.
    assert (HM53 : Zpos M < 2 ^ 53) by (rewrite Ed in Hdhi; exact Hdhi).
    rewrite (binary_round_aux_exact false M E HM53) by lia.
    destruct (Z.leb_spec E 971) as [_|H]; [|unfold E in H; lia].
    exists M, E. split; [reflexivity|]. split; [unfold E; lia|].
    unfold E. replace (en - (e + en)) with (- e) by lia. rewrite EM. nia.
  - set (k := Z.max (d + E - 53) (-1074) - E) in *.
    destruct (binary_round_aux_shift false M E k eq_refl) as (q & Hq & ->); [lia|].
    set (e1 := E + k).
    assert (He1 : e1 = Z.max (d + E - 53) (-1074)) by (unfold e1, k; lia).
    assert (He1en : e1 <= en) by (unfold E in He1; lia).
    assert (Hk53 : k <= 53) by (unfold k, E; lia).
    set (B := 2 ^ k). set (C := 2 ^ (en - e1)).
    assert (HB : 2 <= B).
    { unfold B. change 2 with (2 ^ 1) at 1. apply Z.pow_le_mono_r; lia. }
    assert (HB53 : B <= 2 ^ 53) by (unfold B; apply Z.pow_le_mono_r; lia).
    assert (HC : 1 <= C) by (unfold C; apply pow2_pos; lia).
    assert (HBC : B * C = 2 ^ (- e)).
    { unfold B, C. rewrite <- Z.pow_add_r by lia. f_equal. unfold e1, E. lia. }
    assert (Hfull : B = 2 ^ 53 -> 2 ^ 105 <= Zpos M).
    { intros HB'. assert (Ek : k = 53).
      { apply (Z.pow_inj_r 2); try lia. }
      assert (Ed : d = 106) by (unfold k, E in Ek; lia).
      rewrite Ed in Hdlo. exact Hdlo. }
    (* the quotient and what rounding does to it *)
    set (Q := Zpos M / B).
    assert (HQM : Q * B <= Zpos M) by (unfold Q; rewrite Z.mul_comm; apply Z.mul_div_le; lia).
    assert (HQ53 : Q < 2 ^ 53).
    { unfold Q. apply Z.div_lt_upper_bound; [lia|].
      assert (2 ^ d <= B * 2 ^ 53); [|lia].
      unfold B. rewrite <- Z.pow_add_r by lia. apply Z.pow_le_mono_r; [lia|].
      unfold k. lia. }
    assert (HQ1 : 1 <= Q).
    { unfold Q. apply Z.div_le_lower_bound; [lia|]. rewrite Z.mul_1_r.
      destruct (Z_le_gt_dec (-1074) (d + E - 53)) as [H|H].
      - assert (B <= 2 ^ (d - 1)); [|lia]. unfold B. apply Z.pow_le_mono_r; [lia|].
        unfold k. lia.
      - assert (B <= 2 ^ 52); [|lia]. unfold B. apply Z.pow_le_mono_r; [lia|].
        unfold k, E. lia. }
    assert (Hround : 1 <= q <= 2 ^ 53 /\ 2 * q * B <= 2 * Zpos M + B).
    { destruct Hq as [->|[-> Hodd]]; fold B Q.
      - split; lia.
      - split; [lia|].
        assert (EQ : Q = (Zpos M / 2 ^ (k - 1)) / 2).
        { unfold Q, B. rewrite Z.div_div by lia. f_equal.
          replace k with (Z.succ (k - 1)) at 1 by lia. rewrite Z.pow_succ_r by lia. lia. }
        set (W := Zpos M / 2 ^ (k - 1)) in *.
        assert (EW : W = 2 * Q + 1).
        { rewrite (Z.div_mod W 2) by lia. rewrite <- EQ.
          rewrite Zmod_odd, Hodd. reflexivity. }
        assert (HW : W * 2 ^ (k - 1) <= Zpos M).
        { unfold W. rewrite Z.mul_comm. apply Z.mul_div_le. lia. }
        assert (EB : B = 2 * 2 ^ (k - 1)).
        { unfold B. replace k with (Z.succ (k - 1)) at 1 by lia.
          now rewrite Z.pow_succ_r by lia. }
        exact (round_up_bound _ _ _ _ _ EW HW EB). }
    destruct Hround as [Hq1 Hkey].
    assert (Hlt : q < Zpos mn * C).
    { apply (product_below (2 ^ 52) (Zpos mn) (Zpos m) (2 ^ (- e)) B C q (Zpos M));
        try assumption; try (change (2 * 2 ^ 52) with (2 ^ 53)); lia. }
    destruct (Z_lt_ge_dec q (2 ^ 53)) as [Hsmall|Hbig].
    + destruct q as [|q|q]; try lia.
      rewrite (finish_small false q e1 Hsmall) by lia.
      destruct (Z.leb_spec e1 971) as [_|H]; [|lia].
      exists q, e1. split; [reflexivity|]. split; [exact He1en|exact Hlt].
    + assert (Eq : q = 2 ^ 53) by lia. subst q.
      rewrite (finish_carry false e1) by lia.
      assert (He1lt : e1 < en).
      { destruct (Z_lt_ge_dec e1 en) as [H|H]; [exact H|]. exfalso.
        assert (Ee : en - e1 = 0) by lia. unfold C in Hlt. rewrite Ee in Hlt.
        change (2 ^ 0) with 1 in Hlt. lia. }
      destruct (Z.leb_spec (e1 + 1) 971) as [_|H]; [|lia].
      exists 4503599627370496%positive, (e1 + 1).
      split; [reflexivity|]. split; [lia|].
      assert (EC : C = 2 * 2 ^ (en - (e1 + 1))).
      { unfold C. replace (en - e1) with (Z.succ (en - (e1 + 1))) by lia.
        now rewrite Z.pow_succ_r by lia. }
      change (Zpos 4503599627370496) with (2 ^ 52).
      change (2 ^ 53) with (2 * 2 ^ 52) in Hlt. rewrite EC in Hlt. lia.
Qed.

Lemma iter_xO (d m : positive) : Zpos (Pos.iter xO m d) = Zpos m * 2 ^ Zpos d.
Proof.
  induction d as [|d IH] using Pos.peano_ind.
  - cbn [Pos.iter]. rewrite (Pos2Z.inj_xO m). change (2 ^ 1) with 2. lia.
  - rewrite Pos.iter_succ, (Pos2Z.inj_xO (Pos.iter xO m d)), IH.
    rewrite Pos2Z.inj_succ, Z.pow_succ_r by lia. lia.
Qed.

Lemma digits_unique (p : positive) (d : Z) :
  2 ^ (d - 1) <= Zpos p < 2 ^ d -> 0 < d -> Zpos (digits2_pos p) = d.
Proof.
  intros [Hlo Hhi] Hd. destruct (digits_bounds p) as [Hlo' Hhi'].
  set (D := Zpos (digits2_pos p)) in *.
  destruct (Z.lt_trichotomy D d) as [H|[H|H]]; [exfalso|exact H|exfalso].
  - assert (2 ^ D <= 2 ^ (d - 1)) by (apply Z.pow_le_mono_r; lia). lia.
  - assert (2 ^ d <= 2 ^ (D - 1)) by (apply Z.pow_le_mono_r; lia). lia.
Qed.

(** Adding 2^52 to a number in (0, n), n < 2^52: the sum is 2^52 + j for
    an integer j in 0..n. *)
Lemma add_two52 (q : positive) (e n : Z) :
  e < 0 -> Zpos q < n * 2 ^ (- e) -> n < 2 ^ 52 ->
  exists p,
    SFadd prec emax (S754_finite false q e) (S754_finite false 4503599627370496 0)
    = S754_finite false p 0
    /\ 2 ^ 52 <= Zpos p <= 2 ^ 52 + n.
Proof.
  intros He Hq Hn. destruct e as [|e|d]; try lia. clear He.
  change (- Zneg d) with (Zpos d) in Hq.
  assert (HB : 1 <= 2 ^ Zpos d) by (apply pow2_pos; lia).
  cbn [SFadd]. change (Z.min (Zneg d) 0) with (Zneg d).
  unfold shl_align at 1 2. rewrite Z.sub_diag. change (Zneg d - 0) with (Zneg d).
  cbn [fst cond_Zopp].
  set (b := Pos.iter xO 4503599627370496%positive d).
  assert (Eb : Zpos b = 2 ^ 52 * 2 ^ Zpos d) by (unfold b; apply iter_xO).
  change (Zpos q + Zpos b) with (Zpos (q + b)). cbn [binary_normalize].
  set (S := (q + b)%positive).
  assert (ES : Zpos S = Zpos q + 2 ^ 52 * 2 ^ Zpos d) by (unfold S; lia).
  assert (Ed : Zpos (digits2_pos S) = 53 + Zpos d).
  { apply digits_unique; [|lia].
    replace (53 + Zpos d - 1) with (52 + Zpos d) by lia.
    rewrite !Z.pow_add_r by lia. change (2 ^ 53) with (2 * 2 ^ 52).
    rewrite ES. revert Hq HB. generalize (2 ^ Zpos d). intros B Hq HB. nia. }
  unfold binary_round. rewrite Ed, fexp_eq.
  replace (Z.max (53 + Zpos d + Zneg d - 53) (-1074)) with 0 by lia.
  unfold shl_align. change (0 - Zneg d) with (Zpos d). cbv iota beta.
  destruct (binary_round_aux_shift false S (Zneg d) (Zpos d)) as (q' & Hq' & ->);
    [rewrite Ed; lia|lia|].
  change (Zneg d + Zpos d) with (Zpos d - Zpos d). rewrite Z.sub_diag.
  assert (EQ : Zpos S / 2 ^ Zpos d = Zpos q / 2 ^ Zpos d + 2 ^ 52).
  { rewrite ES. apply Z.div_add. lia. }
  assert (HQ : 0 <= Zpos q / 2 ^ Zpos d < n).
  { split; [apply Z.div_pos; lia|]. apply Z.div_lt_upper_bound; lia. }
  assert (Hrange : 2 ^ 52 <= q' <= 2 ^ 52 + n) by lia.
  destruct q' as [|p|p]; try lia.
  rewrite (finish_small false p 0) by lia.
  exists p. split; [reflexivity|exact Hrange].
Qed.

(** The order of two positive doubles, read off exponents and
    mantissas. *)
Lemma compare_below (q mn : positive) (e en : Z) :
  e <= en -> Zpos q < Zpos mn * 2 ^ (en - e) ->
  SFcompare (S754_finite false q e) (S754_finite false mn en) = Some Lt.
Proof.
  intros He Hq. cbn [SFcompare].
  destruct (Z.compare_spec e en) as [->|_|H]; [|reflexivity|lia].
  rewrite Z.sub_diag in Hq. change (2 ^ 0) with 1 in Hq.
  rewrite Pos.compare_cont_spec.
  destruct (Pos.compare_spec q mn) as [H|H|H]; cbn [Pos.switch_Eq];
    [subst; lia|reflexivity|lia].
Qed.

Lemma compare_eq_finite (x : spec_float) (m : positive) (e : Z) :
  SFcompare x (S754_finite false m e) = Some Eq -> x = S754_finite false m e.
Proof.
  destruct x as [s|s| |s m' e']; cbn [SFcompare]; try discriminate.
  - destruct s; discriminate.
  - destruct s; try discriminate.
    destruct (Z.compare_spec e' e) as [->|_|_]; try discriminate.
    rewrite Pos.compare_cont_spec.
    destruct (Pos.compare_spec m' m) as [H|H|H]; cbn [Pos.switch_Eq];
      try discriminate. now subst.
Qed.

(** The numbers 1..82 as doubles, and the doubles 2^52 .. 2^52 + 82. *)
Lemma ofNat_normal_table : forallb ofNat_normal (seq 1 82) = true.
Proof. vm_compute. reflexivity. Qed.

Lemma ofNat_finite (n : nat) :
  (1 <= n <= 82)%nat ->
  exists mn en,
    Prim2SF (JS.ofNat n) = S754_finite false mn en
    /\ 2 ^ 52 <= Zpos mn < 2 ^ 53 /\ -52 <= en <= -1
    /\ Zpos mn = Z.of_nat n * 2 ^ (- en).
Proof.
  intros Hn. pose proof ofNat_normal_table as H.
  rewrite forallb_forall in H. specialize (H n).
  assert (Hin : In n (seq 1 82)) by (apply in_seq; lia).
  specialize (H Hin). unfold ofNat_normal in H.
  destruct (Prim2SF (JS.ofNat n)) as [| | |[|] mn en]; try discriminate.
  exists mn, en. split; [reflexivity|].
  repeat (apply andb_true_iff in H as [H ?]). lia.
Qed.

Lemma aboveTwo52_table :
  List.Forall (fun j => (aboveTwo52 j - JS.two52)%float = JS.ofNat j
                   /\ (JS.ofNat (S j) - 1)%float = JS.ofNat j
                   /\ PrimFloat.eqb (JS.ofNat j) (JS.ofNat j) = true)
         (seq 0 83).
Proof.
  cbn [seq]. repeat first [apply List.Forall_nil | apply List.Forall_cons];
    (split; [|split]); vm_compute; reflexivity.
Qed.

Lemma aboveTwo52_spec (j : nat) :
  (j <= 82)%nat ->
  (aboveTwo52 j - JS.two52)%float = JS.ofNat j
  /\ (JS.ofNat (S j) - 1)%float = JS.ofNat j
  /\ PrimFloat.eqb (JS.ofNat j) (JS.ofNat j) = true.
Proof.
  intros Hj. pose proof aboveTwo52_table as H. rewrite List.Forall_forall in H.
  apply (H j). apply in_seq. lia.
Qed.

(** A double in [0, 1) is a zero or positive with an exponent of -53
    at most. *)
Lemma unit_interval (r : float) :
  PrimFloat.leb 0 r = true -> PrimFloat.ltb r 1 = true ->
  (exists s, Prim2SF r = S754_zero s)
  \/ (exists m e, Prim2SF r = S754_finite false m e /\ e <= -53).
Proof.
  rewrite FloatAxioms.leb_spec, FloatAxioms.ltb_spec. pose proof (Prim2SF_valid r) as Hv. revert Hv.
  change (Prim2SF 0) with (S754_zero false).
  change (Prim2SF 1) with (S754_finite false 4503599627370496 (-52)).
  destruct (Prim2SF r) as [s|s| |s m e]; intros Hv H0 H1.
  - left. now exists s.
  - destruct s; discriminate.
  - discriminate.
  - destruct s; [discriminate|]. right. exists m, e. split; [reflexivity|].
    destruct (valid_finite _ _ _ Hv) as (Hm & He & Hnorm).
    unfold SFltb in H1. cbn [SFcompare] in H1.
    destruct (Z.compare_spec e (-52)) as [->|H|H]; [|lia|discriminate].
    rewrite Pos.compare_cont_spec in H1.
    destruct (Pos.compare_spec m 4503599627370496) as [E|E|E];
      cbn [Pos.switch_Eq] in H1; try discriminate.
    pose proof (Hnorm eq_refl) as H52.
    exfalso. apply Pos2Z.pos_lt_pos in E.
    exact (Z.lt_irrefl _ (Z.le_lt_trans _ _ _ H52 E)).
Qed.

Lemma floor_zero (x : float) (s : bool) :
  Prim2SF x = S754_zero s -> PrimFloat.eqb (JS.floor x) (JS.ofNat 0) = true.
Proof.
  intros Hx. rewrite <- (SF2Prim_Prim2SF x), Hx.
  destruct s; vm_compute; reflexivity.
Qed.

(** [Math.floor] of a positive double below [n] is one of 0..n-1. *)
Lemma floor_below (x : float) (q mn : positive) (e en : Z) (n : nat) :
  (1 <= n <= 81)%nat ->
  Prim2SF x = S754_finite false q e ->
  Prim2SF (JS.ofNat n) = S754_finite false mn en ->
  Zpos mn = Z.of_nat n * 2 ^ (- en) -> en <= -1 ->
  e <= en -> Zpos q < Zpos mn * 2 ^ (en - e) ->
  exists k, (k < n)%nat /\ JS.floor x = JS.ofNat k.
Proof.
  intros Hn Hx Hofn Emn Hen He Hq.
  assert (Hlt : PrimFloat.ltb x (JS.ofNat n) = true).
  { rewrite FloatAxioms.ltb_spec, Hx, Hofn. unfold SFltb. now rewrite (compare_below q mn e en). }
  assert (Hneq : PrimFloat.eqb x (JS.ofNat n) = false).
  { rewrite FloatAxioms.eqb_spec, Hx, Hofn. unfold SFeqb. now rewrite (compare_below q mn e en). }
  assert (Hlt0 : PrimFloat.ltb x (JS.ofNat 0) = false).
  { rewrite FloatAxioms.ltb_spec, Hx. reflexivity. }
  assert (Hneq0 : PrimFloat.eqb x (JS.ofNat 0) = false).
  { rewrite FloatAxioms.eqb_spec, Hx. reflexivity. }
  assert (Hq' : Zpos q < Z.of_nat n * 2 ^ (- e)).
  { rewrite Emn in Hq. replace (- e) with (- en + (en - e)) by lia.
    rewrite Z.pow_add_r by lia. lia. }
  destruct (add_two52 q e (Z.of_nat n)) as (p & Hadd & Hp); [lia|exact Hq'| |].
  { assert (Z.of_nat n <= 81) by lia.
    change (2 ^ 52) with 4503599627370496. lia. }
  set (j := Z.to_nat (Zpos p - 2 ^ 52)).
  assert (Hj : (j <= n)%nat) by (unfold j; lia).
  assert (Ep : p = Z.to_pos (2 ^ 52 + Z.of_nat j)) by (unfold j; lia).
  assert (Esum : (x + JS.two52)%float = aboveTwo52 j).
  { rewrite <- (SF2Prim_Prim2SF (x + JS.two52)), FloatAxioms.add_spec, Hx.
    change (Prim2SF JS.two52) with (S754_finite false 4503599627370496 0).
    unfold SF64add. rewrite Hadd, Ep. reflexivity. }
  destruct (aboveTwo52_spec j) as (Esub & _ & _); [lia|].
  unfold JS.floor.
  assert (Habs : PrimFloat.ltb (PrimFloat.abs x) JS.two52 = true).
  { rewrite FloatAxioms.ltb_spec, FloatAxioms.abs_spec, Hx.
    change (Prim2SF JS.two52) with (S754_finite false 4503599627370496 0).
    unfold SFltb. cbn [SFabs SFcompare].
    destruct (Z.compare_spec e 0); [lia|reflexivity|lia]. }
  rewrite Habs. change (JS.ofNat 0) with 0%float in Hlt0. rewrite Hlt0.
  cbv zeta. rewrite Esum, Esub.
  destruct (PrimFloat.eqb x (JS.ofNat j)) eqn:Eeq.
  - destruct (Nat.eq_dec j n) as [->|Hne]; [congruence|].
    destruct j as [|j']; [congruence|].
    exists (S j'). split; [lia|].
    destruct (ofNat_finite (S j')) as (mj & ej & Hofj & _); [lia|].
    apply Prim2SF_inj. rewrite Hofj.
    apply compare_eq_finite.
    rewrite FloatAxioms.eqb_spec, Hofj in Eeq. unfold SFeqb in Eeq.
    destruct (SFcompare (Prim2SF x) _) as [[| |]|]; try discriminate. reflexivity.
  - destruct (PrimFloat.ltb x (JS.ofNat j)) eqn:Eltj.
    + destruct j as [|j']; [change (JS.ofNat 0) with 0%float in Eltj; congruence|].
      exists j'. split; [lia|].
      destruct (aboveTwo52_spec j') as (_ & Edec & _); [lia|]. exact Edec.
    + destruct (Nat.eq_dec j n) as [->|Hne]; [congruence|].
      exists j. split; [lia|reflexivity].
Qed.

(** The index [Math.floor(random * n)] is one of 0..n-1. *)
Lemma floor_index (r : float) (n : nat) :
  (1 <= n <= 81)%nat ->
  PrimFloat.leb 0 r = true -> PrimFloat.ltb r 1 = true ->
  exists k, (k < n)%nat
            /\ PrimFloat.eqb (JS.floor (r * JS.ofNat n)) (JS.ofNat k) = true.
Proof.
  intros Hn H0 H1.
  destruct (ofNat_finite n) as (mn & en & Hofn & Hmn & Hen & Emn); [lia|].
  destruct (unit_interval r H0 H1) as [[s Hr]|(m & e & Hr & He)].
  - exists 0%nat. split; [lia|]. apply (floor_zero _ s).
    rewrite FloatAxioms.mul_spec, Hr, Hofn. unfold SF64mul. cbn [SFmul]. now destruct s.
  - pose proof (Prim2SF_valid r) as Hv. rewrite Hr in Hv.
    destruct (mul_below m mn e en Hv He Hmn) as (q & e' & Hmul & He' & Hq); [lia|].
    destruct (floor_below (r * JS.ofNat n) q mn e' en n Hn) as (k & Hk & Efl);
      try assumption; try lia.
    { rewrite FloatAxioms.mul_spec, Hr, Hofn. exact Hmul. }
    exists k. split; [exact Hk|]. rewrite Efl.
    destruct (aboveTwo52_spec k) as (_ & _ & Hrefl); [lia|]. exact Hrefl.
Qed.

End Binary64.

Lemma length_availableHints (currentBoard : SudokuBoard) (originalCells : GivenMask) :
  length (availableHints currentBoard originalCells) <= 81.
Proof.
  rewrite availableHints_filter, <- length_positions. apply List.filter_length_le.
Qed.

(** The element [getHint] destructures is one of the list. *)
Lemma item_randomIndex {A : Type} (hints : list A) (random : float) :
  0 < length hints <= 81 ->
  PrimFloat.leb 0 random = true -> PrimFloat.ltb random 1 = true ->
  exists h, JS.item hints (JS.floor (random * JS.ofNat (length hints))) = Some h
            /\ In h hints.
Proof.
  intros Hlen H0 H1.
  destruct (floor_index random (length hints)) as (k & Hk & Heq);
    [lia|exact H0|exact H1|].
  unfold JS.item.
  destruct (List.find _ (seq 0 (length hints))) as [k'|] eqn:E.
  - apply List.find_some in E as [Hin _]. apply in_seq in Hin.
    destruct (nth_error hints k') as [h|] eqn:En.
    + exists h. split; [reflexivity|exact (nth_error_In _ _ En)].
    + apply nth_error_None in En. lia.
  - exfalso. pose proof (List.find_none _ _ E k) as Hnone. cbv beta in Hnone.
    rewrite Heq in Hnone. discriminate Hnone. apply in_seq. lia.
Qed.

(** The rounding of the product shows: the double nearest to
    0.3333333333333333 is below 1/3, yet three times it is the double 1,
    and of three candidates [getHint] takes the second, not the first. *)
Example getHint_rounds_the_product :
  (nearlyOneThird * 3 = 1)%float
  /\ availableHints threeCellsLeft (maskOf threeCellsLeft) = [(0, 0); (0, 2); (0, 3)]
  /\ getHint threeCellsLeft fallbackSolved (maskOf threeCellsLeft) nearlyOneThird
     = Returned (Some (mkHint 0 2 "4")).
Proof. vm_compute. repeat split. Qed.

(** C7. Whatever double in [0, 1) [Math.random] draws, [getHint]
    returns [null] exactly when no cell is both empty (holds ".") and
    not given; otherwise it returns one of those cells together with
    the value the solved board holds there, and when a single such cell
    exists it is the one returned. *)
Theorem getHint_spec (currentBoard solvedBoard : SudokuBoard) (originalCells : GivenMask)
        (random : float) :
  wf_board currentBoard -> wf_board solvedBoard -> wf_mask originalCells ->
  PrimFloat.leb 0 random = true -> PrimFloat.ltb random 1 = true ->
  (getHint currentBoard solvedBoard originalCells random = Returned None
   <-> forall p, ~ hintCandidate currentBoard originalCells p)
  /\ ((exists p, hintCandidate currentBoard originalCells p) ->
      exists p, hintCandidate currentBoard originalCells p
                /\ getHint currentBoard solvedBoard originalCells random
                   = Returned (Some (mkHint (fst p) (snd p) (cellAt solvedBoard p))))
  /\ (forall p, hintCandidate currentBoard originalCells p ->
                (forall q, hintCandidate currentBoard originalCells q -> q = p) ->
                getHint currentBoard solvedBoard originalCells random
                = Returned (Some (mkHint (fst p) (snd p) (cellAt solvedBoard p)))).
Proof.
  intros _ _ _ H0 H1.
  assert (Hsome : (exists p, hintCandidate currentBoard originalCells p) ->
      exists p, hintCandidate currentBoard originalCells p
                /\ getHint currentBoard solvedBoard originalCells random
                   = Returned (Some (mkHint (fst p) (snd p) (cellAt solvedBoard p)))).
  { intros [p0 Hp0]. apply (proj2 (in_availableHints _ _ _)) in Hp0. unfold getHint.
    pose proof (fun q => proj1 (in_availableHints currentBoard originalCells q)) as Hin.
    pose proof (length_availableHints currentBoard originalCells) as Hle.
    revert Hp0 Hin Hle. generalize (availableHints currentBoard originalCells).
    intros hints Hp0 Hin Hle.
    assert (Hlen : 0 < length hints) by (destruct hints; [contradiction|simpl; lia]).
    destruct (Nat.eqb_spec (length hints) 0) as [Hz|_]; [lia|].
    destruct (item_randomIndex hints random (conj Hlen Hle) H0 H1)
      as ([r c] & -> & Hrc).
    exists (r, c). split; [|reflexivity]. apply Hin, Hrc. }
  split; [|split].
  - split.
    + intros Hnull p Hp. destruct (Hsome (ex_intro _ p Hp)) as (q & _ & Hq).
      congruence.
    + intros Hnone. unfold getHint.
      pose proof (fun q => proj1 (in_availableHints currentBoard originalCells q)) as Hin.
      revert Hin. generalize (availableHints currentBoard originalCells).
      intros [|h hs] Hin; [reflexivity|].
      exfalso. apply (Hnone h), Hin. now left.
  - exact Hsome.
  - intros p Hp Huniq. destruct (Hsome (ex_intro _ p Hp)) as (q & Hq & Hres).
    rewrite (Huniq q Hq) in Hres. exact Hres.
Qed.

Lemma wf_oneCellLeft : wf_board oneCellLeft.
Proof. apply wf_boardb_spec. reflexivity. Qed.

(** The hint scenario: only cell (0,0) is empty and not given. *)
Lemma getHint_spec_witness :
  getHint oneCellLeft fallbackSolved oneCellLeftMask 0.5%float
  = Returned (Some (mkHint 0 0 "5")).
Proof.
  pose proof (getHint_spec oneCellLeft fallbackSolved oneCellLeftMask 0.5%float
                wf_oneCellLeft wf_fallbackSolved
                (wf_mask_maskOf oneCellLeft wf_oneCellLeft)) as H.
  destruct H as (_ & _ & H); [reflexivity|reflexivity|].
  apply (H (0, 0)).
  - repeat split; simpl; lia.
  - intros q Hq. apply (proj2 (in_availableHints _ _ _)) in Hq.
    change (In q [(0, 0)]) in Hq.
    destruct Hq as [Hq|[]]. now symmetry.
Defined.

(** ** Conflict detection *)

Lemma wf_diagonalFives : wf_board diagonalFives.
Proof. apply wf_boardb_spec. reflexivity. Qed.

Lemma wf_adjacentFives : wf_board adjacentFives.
Proof. apply wf_boardb_spec. reflexivity. Qed.

(** C4. Two 5s in one block, on different rows and columns: the block
    pass lists the second one only, so the first occurrence of the
    duplicated value is missing from the conflict list. *)
Theorem block_duplicate_first_occurrence_missing :
  wf_board diagonalFives
  /\ cell diagonalFives 0 0 = "5" /\ cell diagonalFives 1 1 = "5"
  /\ blockIndex 0 0 = blockIndex 1 1
  /\ conflicts (checkIllegalMove diagonalFives) = [(1, 1)]
  /\ ~ In (0, 0) (conflicts (checkIllegalMove diagonalFives)).
Proof.
  split; [exact wf_diagonalFives|].
  repeat (split; [reflexivity|]).
  vm_compute. intros [H|[]]. discriminate.
Qed.

(** C6. Two 5s side by side: the row pass lists both, and the block
    pass lists the second again, so the conflict list holds position
    (0, 1) twice. *)
Theorem conflict_list_repeats_position :
  wf_board adjacentFives
  /\ conflicts (checkIllegalMove adjacentFives) = [(0, 0); (0, 1); (0, 1)]
  /\ ~ List.NoDup (conflicts (checkIllegalMove adjacentFives)).
Proof.
  split; [exact wf_adjacentFives|]. split; [reflexivity|].
  vm_compute. intros H. inversion H as [|? ? _ H1]. inversion H1 as [|? ? Hn _].
  apply Hn. now left.
Qed.

(** ** The two validity checks *)

(** *** [isValidSudoku] *)

Lemma has_spec (sets : list (gset string)) (i : nat) (v : string) :
  has sets i v = true <-> v ∈ JS.get ∅ sets i.
Proof. unfold has. apply bool_decide_eq_true. Qed.

Lemma get_add (sets : list (gset string)) (i i' : nat) (v : string) :
  JS.get ∅ (add sets i v) i'
  = if i' =? i then {[v]} ∪ JS.get ∅ sets i else JS.get ∅ sets i'.
Proof.
  unfold add. destruct (Nat.eqb_spec i' i) as [->|Hne].
  - apply get_set_same.
  - apply get_set_other. congruence.
Qed.

Lemma elem_of_get_add (sets : list (gset string)) (i i' : nat) (v w : string) :
  w ∈ JS.get ∅ (add sets i v) i' <-> (i' = i /\ w = v) \/ w ∈ JS.get ∅ sets i'.
Proof.
  rewrite get_add. destruct (Nat.eqb_spec i' i) as [->|Hne].
  - rewrite elem_of_union, elem_of_singleton. tauto.
  - tauto.
Qed.

Lemma notDot_true (v : string) : notDot v = true <-> v <> ".".
Proof.
  unfold notDot. rewrite negb_true_iff.
  destruct (String.eqb_spec v "."); split; congruence.
Qed.

Lemma distinctOn_same_cells (fill : string -> bool) (board : SudokuBoard)
      (l l' : list (nat * nat)) :
  (forall p, In p l <-> In p l') -> distinctOn fill board l -> distinctOn fill board l'.
Proof.
  intros Heq H p q Hp Hq. apply H; now apply Heq.
Qed.

Lemma tracks_skip (board : SudokuBoard) (visited : list (nat * nat))
      (rows cols blocks : list (gset string)) (p : nat * nat) :
  cellAt board p = "." ->
  tracks board visited rows cols blocks ->
  tracks board (p :: visited) rows cols blocks.
Proof.
  intros Hdot H i v. destruct (H i v) as (H1 & H2 & H3).
  rewrite H1, H2, H3. clear H H1 H2 H3.
  repeat split; intros (q & Hq & Hrest);
    try (exists q; split; [now right|exact Hrest]);
    (destruct Hq as [<-|Hq]; [exfalso; destruct Hrest as (_ & E & Hne); congruence
                             |exists q; split; [exact Hq|exact Hrest]]).
Qed.

Lemma tracks_add (board : SudokuBoard) (visited : list (nat * nat))
      (rows cols blocks : list (gset string)) (p : nat * nat) :
  cellAt board p <> "." ->
  tracks board visited rows cols blocks ->
  tracks board (p :: visited)
         (add rows (fst p) (cellAt board p))
         (add cols (snd p) (cellAt board p))
         (add blocks (blockIndex (fst p) (snd p)) (cellAt board p)).
Proof.
  intros Hne H i v. destruct (H i v) as (H1 & H2 & H3).
  rewrite !elem_of_get_add, H1, H2, H3. clear H H1 H2 H3.
  repeat split.
  all: try (intros [[-> ->]|(q & Hq & Hrest)];
            [exists p; repeat split; [now left|exact Hne]
            |exists q; split; [now right|exact Hrest]]).
  all: intros (q & [<-|Hq] & Hi & Hv & Hd);
    [left; split; congruence|right; exists q; repeat split; assumption].
Qed.

Lemma tracks_empty (board : SudokuBoard) : tracks board [] emptySets emptySets emptySets.
Proof.
  intros i v.
  assert (Hget : JS.get (∅ : gset string) emptySets i = ∅).
  { unfold JS.get, emptySets.
    do 9 (destruct i as [|i]; [reflexivity|]). now destruct i. }
  rewrite Hget.
  repeat split; try (intros H; now apply not_elem_of_empty in H);
    intros (q & [] & _).
Qed.

Lemma distinctOn_skip (board : SudokuBoard) (visited : list (nat * nat)) (p : nat * nat) :
  cellAt board p = "." ->
  distinctOn notDot board visited -> distinctOn notDot board (p :: visited).
Proof.
  intros Hdot H x y [<-|Hx] [<-|Hy] Hxy Hu Hfill.
  - congruence.
  - rewrite Hdot in Hfill. discriminate.
  - apply notDot_true in Hfill. congruence.
  - now apply H.
Qed.

Lemma sameUnit_sym (p q : nat * nat) : sameUnit p q -> sameUnit q p.
Proof. unfold sameUnit. intuition congruence. Qed.

(** A cell whose value sits in none of its three sets clashes with no
    cell visited before it. *)
Lemma distinctOn_add (board : SudokuBoard) (visited : list (nat * nat))
      (rows cols blocks : list (gset string)) (p : nat * nat) :
  tracks board visited rows cols blocks ->
  has rows (fst p) (cellAt board p) = false ->
  has cols (snd p) (cellAt board p) = false ->
  has blocks (blockIndex (fst p) (snd p)) (cellAt board p) = false ->
  cellAt board p <> "." ->
  distinctOn notDot board visited -> distinctOn notDot board (p :: visited).
Proof.
  intros Ht Hr Hc Hb Hne H.
  assert (Hfresh : forall x, In x visited -> sameUnit p x ->
                             cellAt board x <> cellAt board p).
  { intros x Hx Hu E.
    destruct (Ht (fst p) (cellAt board p)) as (H1 & _ & _).
    destruct (Ht (snd p) (cellAt board p)) as (_ & H2 & _).
    destruct (Ht (blockIndex (fst p) (snd p)) (cellAt board p)) as (_ & _ & H3).
    apply not_true_iff_false in Hr, Hc, Hb.
    rewrite has_spec in Hr, Hc, Hb.
    destruct Hu as [Hu|[Hu|Hu]].
    - apply Hr, H1. exists x. repeat split; congruence.
    - apply Hc, H2. exists x. repeat split; congruence.
    - apply Hb, H3. exists x. repeat split; congruence. }
  intros x y [<-|Hx] [<-|Hy] Hxy Hu Hfill.
  - congruence.
  - intros E. apply (Hfresh y Hy Hu). congruence.
  - apply Hfresh; [exact Hx|now apply sameUnit_sym].
  - now apply H.
Qed.

(** A value found in one of the three sets belongs to an earlier cell
    of the same unit. *)
Lemma clash_of_has (board : SudokuBoard) (visited : list (nat * nat))
      (rows cols blocks : list (gset string)) (p : nat * nat) :
  tracks board visited rows cols blocks ->
  has rows (fst p) (cellAt board p)
  || has cols (snd p) (cellAt board p)
  || has blocks (blockIndex (fst p) (snd p)) (cellAt board p) = true ->
  exists x, In x visited /\ sameUnit x p /\ cellAt board x = cellAt board p.
Proof.
  intros Ht H.
  destruct (Ht (fst p) (cellAt board p)) as (H1 & _ & _).
  destruct (Ht (snd p) (cellAt board p)) as (_ & H2 & _).
  destruct (Ht (blockIndex (fst p) (snd p)) (cellAt board p)) as (_ & _ & H3).
  rewrite !orb_true_iff, !has_spec in H.
  destruct H as [[H|H]|H];
    [apply H1 in H|apply H2 in H|apply H3 in H];
    destruct H as (x & Hx & Hi & Hv & _); exists x; unfold sameUnit; auto.
Qed.

Lemma validLoop_spec (board : SudokuBoard) (todo visited : list (nat * nat))
      (rows cols blocks : list (gset string)) :
  tracks board visited rows cols blocks ->
  distinctOn notDot board visited ->
  List.NoDup todo ->
  (forall p, In p todo -> ~ In p visited) ->
  validLoop board todo rows cols blocks = true
  <-> distinctOn notDot board (todo ++ visited).
Proof.
  revert visited rows cols blocks.
  induction todo as [|[i j] rest IH]; intros visited rows cols blocks Ht Hd Hnd Hnew.
  - simpl. tauto.
  - inversion Hnd as [|? ? Hnotin Hnd']; subst.
    assert (Hmem : forall x, In x (rest ++ (i, j) :: visited)
                             <-> In x (((i, j) :: rest) ++ visited)).
    { intros x. simpl. rewrite !in_app_iff. simpl. tauto. }
    assert (Hnew' : forall x, In x rest -> ~ In x ((i, j) :: visited)).
    { intros x Hx [E|Hv]; [subst x; contradiction|].
      apply (Hnew x); [now right|exact Hv]. }
    cbn [validLoop]. change (cell board i j) with (cellAt board (i, j)).
    destruct (String.eqb_spec (cellAt board (i, j)) ".") as [Hdot|Hne]; cbn [negb].
    + rewrite (IH ((i, j) :: visited) rows cols blocks
                 (tracks_skip _ _ _ _ _ _ Hdot Ht)
                 (distinctOn_skip _ _ _ Hdot Hd) Hnd' Hnew').
      split; apply distinctOn_same_cells; intros x; [|symmetry]; apply Hmem.
    + destruct (has rows i _ || has cols j _ || has blocks (blockIndex i j) _) eqn:Edup.
      * split; [discriminate|]. intros Hall. exfalso.
        destruct (clash_of_has board visited rows cols blocks (i, j) Ht Edup)
          as (x & Hx & Hu & Hv).
        apply (Hall x (i, j)).
        -- apply in_app_iff. now right.
        -- now left.
        -- intros ->. apply (Hnew (i, j)); [now left|exact Hx].
        -- exact Hu.
        -- apply notDot_true. congruence.
        -- exact Hv.
      * apply orb_false_iff in Edup as [Edup Eb].
        apply orb_false_iff in Edup as [Er Ec].
        rewrite (IH ((i, j) :: visited) _ _ _
                   (tracks_add _ _ _ _ _ (i, j) Hne Ht)
                   (distinctOn_add _ _ _ _ _ (i, j) Ht Er Ec Eb Hne Hd) Hnd' Hnew').
        split; apply distinctOn_same_cells; intros x; [|symmetry]; apply Hmem.
Qed.

Lemma NoDup_positions : List.NoDup positions.
Proof.
  assert (E : nodup posEqDec positions = positions) by (vm_compute; reflexivity).
  rewrite <- E. apply List.NoDup_nodup.
Qed.

Lemma isValidSudoku_spec (board : SudokuBoard) :
  isValidSudoku board = true <-> conflictFree notDot board.
Proof.
  unfold isValidSudoku.
  rewrite (validLoop_spec board positions [] emptySets emptySets emptySets
             (tracks_empty board)); [|intros p q []|exact NoDup_positions|intros p _ []].
  rewrite app_nil_r. unfold distinctOn, conflictFree.
  split; intros H p q Hp Hq; apply H; now apply in_positions.
Qed.

(** *** [checkIllegalMove] *)

Lemma dupFree_spec (values : list string) (seen : gset string) :
  dupFree seen values = true
  <-> (forall v, In v values -> filled v = true -> v ∉ seen)
      /\ List.NoDup (List.filter filled values).
Proof.
  revert seen. induction values as [|v rest IH]; intros seen; simpl.
  - split; [intros _; split; [intros v []|constructor]|reflexivity].
  - destruct (filled v) eqn:Ef.
    + destruct (bool_decide (v ∈ seen)) eqn:Es.
      * apply bool_decide_eq_true in Es.
        split; [discriminate|]. intros [H _]. exfalso.
        apply (H v); [now left|exact Ef|exact Es].
      * apply bool_decide_eq_false in Es. rewrite IH. split.
        -- intros [H Hnd]. split.
           ++ intros w [<-|Hw] Hfw; [exact Es|].
              specialize (H w Hw Hfw). intros Hm. apply H, elem_of_union. now right.
           ++ constructor; [|exact Hnd].
              intros Hin. apply filter_In in Hin as [Hin Hfv].
              apply (H v Hin Hfv), elem_of_union. left. now apply elem_of_singleton.
        -- intros [H Hnd]. inversion Hnd as [|? ? Hnotin Hnd']; subst. split; [|exact Hnd'].
           intros w Hw Hfw Hmem.
           apply elem_of_union in Hmem as [Hmem|Hmem].
           ++ apply elem_of_singleton in Hmem. subst w.
              apply Hnotin, filter_In. split; assumption.
           ++ apply (H w); [now right|exact Hfw|exact Hmem].
    + rewrite IH. split; intros [H Hnd]; (split; [|exact Hnd]).
      * intros w [<-|Hw] Hfw; [congruence|now apply H].
      * intros w Hw. apply H. now right.
Qed.

(** Once something is listed, pushing more keeps the list non-empty. *)
Lemma push_nonempty {A : Type} (acc : list A) (x : A) : JS.push acc x <> [].
Proof. unfold JS.push. destruct acc; discriminate. Qed.

Lemma markRow_nonempty (board : SudokuBoard) (row : nat) (value : string)
      (todo : list nat) (acc : list (nat * nat)) :
  acc <> [] \/ (exists c, In c todo /\ cell board row c = value) ->
  fold_left
    (fun conflicts c =>
       if (cell board row c =? value)%string then JS.push conflicts (row, c) else conflicts)
    todo acc <> [].
Proof.
  revert acc. induction todo as [|c rest IH]; intros acc H; simpl.
  - destruct H as [H|(c & [] & _)]. exact H.
  - apply IH. destruct (String.eqb_spec (cell board row c) value) as [E|Hne].
    + left. apply push_nonempty.
    + destruct H as [H|(c' & [<-|Hc'] & E)]; [now left|congruence|right; eauto].
Qed.

Lemma markCol_nonempty (board : SudokuBoard) (col : nat) (value : string)
      (todo : list nat) (acc : list (nat * nat)) :
  acc <> [] \/ (exists r, In r todo /\ cell board r col = value) ->
  fold_left
    (fun conflicts r =>
       if (cell board r col =? value)%string then
         if negb (alreadyListed conflicts r col) then JS.push conflicts (r, col)
         else conflicts
       else conflicts)
    todo acc <> [].
Proof.
  revert acc. induction todo as [|r rest IH]; intros acc H; simpl.
  - destruct H as [H|(r & [] & _)]. exact H.
  - apply IH. destruct (String.eqb_spec (cell board r col) value) as [E|Hne].
    + left. destruct (alreadyListed acc r col) eqn:El; simpl.
      * destruct acc; [discriminate|discriminate].
      * apply push_nonempty.
    + destruct H as [H|(r' & [<-|Hr'] & E)]; [now left|congruence|right; eauto].
Qed.

Lemma scanRow_empty (board : SudokuBoard) (row : nat) (todo : list nat)
      (seen : gset string) (acc : list (nat * nat)) :
  (forall c, In c todo -> In c indices) ->
  scanRow board row todo seen acc = []
  <-> acc = [] /\ dupFree seen (map (cell board row) todo) = true.
Proof.
  revert seen. induction todo as [|col rest IH]; intros seen Hsub; simpl.
  - tauto.
  - assert (Hsub' : forall c, In c rest -> In c indices) by (intros c Hc; apply Hsub; now right).
    destruct (filled (cell board row col)); [|now apply IH].
    destruct (bool_decide (cell board row col ∈ seen)); [|now apply IH].
    split; [|intros [_ H]; discriminate].
    intros H. exfalso. revert H. apply markRow_nonempty.
    right. exists col. split; [apply Hsub; now left|reflexivity].
Qed.

Lemma scanCol_empty (board : SudokuBoard) (col : nat) (todo : list nat)
      (seen : gset string) (acc : list (nat * nat)) :
  (forall r, In r todo -> In r indices) ->
  scanCol board col todo seen acc = []
  <-> acc = [] /\ dupFree seen (map (fun r => cell board r col) todo) = true.
Proof.
  revert seen. induction todo as [|row rest IH]; intros seen Hsub; simpl.
  - tauto.
  - assert (Hsub' : forall r, In r rest -> In r indices) by (intros r Hr; apply Hsub; now right).
    destruct (filled (cell board row col)); [|now apply IH].
    destruct (bool_decide (cell board row col ∈ seen)); [|now apply IH].
    split; [|intros [_ H]; discriminate].
    intros H. exfalso. revert H. apply markCol_nonempty.
    right. exists row. split; [apply Hsub; now left|reflexivity].
Qed.

Lemma scanBlock_empty (board : SudokuBoard) (todo : list (nat * nat))
      (seen : gset string) (acc : list (nat * nat)) :
  scanBlock board todo seen acc = []
  <-> acc = [] /\ dupFree seen (map (cellAt board) todo) = true.
Proof.
  revert seen acc. induction todo as [|[row col] rest IH]; intros seen acc; simpl.
  - tauto.
  - change (cellAt board (row, col)) with (cell board row col).
    destruct (filled (cell board row col)); [|now apply IH].
    destruct (bool_decide (cell board row col ∈ seen)); [|now apply IH].
    rewrite IH. split; [intros [H _]; now apply push_nonempty in H|intros [_ H]; discriminate].
Qed.

Section FoldScan.
Context {A P : Type} (scan : list P -> A -> list P) (ok : A -> bool).
Hypothesis scan_empty : forall acc a, scan acc a = [] <-> acc = [] /\ ok a = true.

Lemma fold_scan_empty (l : list A) (acc : list P) :
  fold_left scan l acc = [] <-> acc = [] /\ forall a, In a l -> ok a = true.
Proof.
  revert acc. induction l as [|a l IH]; intros acc; simpl.
  - split; [intros ->; split; [reflexivity|intros a []]|tauto].
  - rewrite IH, scan_empty. split.
    + intros [[-> Ha] Hl]. split; [reflexivity|]. intros b [<-|Hb]; auto.
    + intros [-> H]. repeat split; [apply H; now left|intros b Hb; apply H; now right].
Qed.

End FoldScan.

Lemma checkIllegalMove_empty (board : SudokuBoard) :
  conflicts (checkIllegalMove board) = []
  <-> forall u, In u units -> unitClean board u = true.
Proof.
  unfold checkIllegalMove, conflicts, checkBlocks, checkCols, checkRows.
  rewrite (fold_scan_empty _ (fun '(blockRow, blockCol) =>
                                unitClean board (blockCells blockRow blockCol))).
  2:{ intros acc [blockRow blockCol]. unfold unitClean. split.
      - intros H. apply app_eq_nil in H as [-> H].
        apply (proj1 (scanBlock_empty _ _ _ _)) in H as [_ H]. auto.
      - intros [-> H]. change ([] ++ ?l) with l.
        apply (proj2 (scanBlock_empty _ _ _ _)). auto. }
  rewrite (fold_scan_empty _ (fun col => unitClean board (colCells col))).
  2:{ intros acc col. rewrite scanCol_empty by tauto.
      unfold unitClean, colCells. now rewrite map_map. }
  rewrite (fold_scan_empty _ (fun row => unitClean board (rowCells row))).
  2:{ intros acc row. rewrite scanRow_empty by tauto.
      unfold unitClean, rowCells. now rewrite map_map. }
  unfold units. split.
  - intros [[[_ Hr] Hc] Hb] u Hu.
    apply in_app_iff in Hu as [Hu|Hu]; [|apply in_app_iff in Hu as [Hu|Hu]];
      apply in_map_iff in Hu as (a & <- & Ha).
    + now apply Hr.
    + now apply Hc.
    + destruct a as [blockRow blockCol]. now apply (Hb (blockRow, blockCol)).
  - intros H. repeat split.
    + intros row Hrow. apply H, in_app_iff. left. now apply in_map.
    + intros col Hcol. apply H, in_app_iff. right. apply in_app_iff. left. now apply in_map.
    + intros [blockRow blockCol] Hb. apply H, in_app_iff. right. apply in_app_iff. right.
      apply in_map_iff. exists (blockRow, blockCol). split; [reflexivity|exact Hb].
Qed.

Lemma posEqb_eq (p q : nat * nat) : posEqb p q = true <-> p = q.
Proof.
  unfold posEqb. rewrite andb_true_iff, !Nat.eqb_eq.
  destruct p, q; simpl. split; [intros [-> ->]; reflexivity|intros [= -> ->]; auto].
Qed.

Lemma memb_In (p : nat * nat) (cells : list (nat * nat)) :
  memb p cells = true <-> In p cells.
Proof.
  unfold memb. rewrite existsb_exists. split.
  - intros (q & Hq & E). apply posEqb_eq in E. now subst.
  - intros H. exists p. split; [exact H|now apply posEqb_eq].
Qed.

Lemma sameUnitb_spec (p q : nat * nat) : sameUnitb p q = true <-> sameUnit p q.
Proof.
  unfold sameUnitb, sameUnit. rewrite !orb_true_iff, !Nat.eqb_eq. tauto.
Qed.

Lemma inGridb_spec (p : nat * nat) : inGridb p = true <-> inGrid p.
Proof. unfold inGridb, inGrid. now rewrite andb_true_iff, !Nat.ltb_lt. Qed.

Lemma units_sound (u : list (nat * nat)) (p q : nat * nat) :
  In u units -> In p u -> In q u -> inGrid p /\ sameUnit p q.
Proof.
  assert (H : unitsSoundb = true) by (vm_compute; reflexivity).
  unfold unitsSoundb in H. rewrite forallb_forall in H.
  intros Hu Hp Hq. specialize (H u Hu). rewrite forallb_forall in H.
  specialize (H p Hp). apply andb_true_iff in H as [Hg Hs].
  rewrite forallb_forall in Hs.
  split; [now apply inGridb_spec|now apply sameUnitb_spec, Hs].
Qed.

Lemma units_complete (p q : nat * nat) :
  inGrid p -> inGrid q -> sameUnit p q ->
  exists u, In u units /\ In p u /\ In q u.
Proof.
  assert (H : unitsCompleteb = true) by (vm_compute; reflexivity).
  unfold unitsCompleteb in H. rewrite forallb_forall in H.
  intros Hp Hq Hs. apply in_positions in Hp, Hq.
  specialize (H p Hp). rewrite forallb_forall in H. specialize (H q Hq).
  apply sameUnitb_spec in Hs. rewrite Hs in H. cbn [implb] in H.
  apply existsb_exists in H as (u & Hu & Hm).
  apply andb_true_iff in Hm as [H1 H2].
  exists u. split; [exact Hu|]. split; now apply memb_In.
Qed.

Lemma units_NoDup (u : list (nat * nat)) : In u units -> List.NoDup u.
Proof.
  assert (H : forallb (fun u => if List.list_eq_dec posEqDec (nodup posEqDec u) u
                                then true else false) units = true)
    by (vm_compute; reflexivity).
  rewrite forallb_forall in H. intros Hu. specialize (H u Hu).
  destruct (List.list_eq_dec posEqDec (nodup posEqDec u) u) as [E|]; [|discriminate].
  rewrite <- E. apply List.NoDup_nodup.
Qed.

Section DistinctValues.
Context {A B : Type} (fill : B -> bool) (f : A -> B).

Lemma NoDup_filter_map (l : list A) :
  List.NoDup l ->
  List.NoDup (List.filter fill (map f l))
  <-> forall x y, In x l -> In y l -> x <> y -> fill (f x) = true -> f x <> f y.
Proof.
  induction l as [|a l IH]; intros Hnd.
  - simpl. split; [intros _ x y []|constructor].
  - inversion Hnd as [|? ? Ha Hnd']; subst. specialize (IH Hnd').
    assert (Hin : forall y, In y l -> fill (f y) = true ->
                            In (f y) (List.filter fill (map f l))).
    { intros y Hy Hf. apply filter_In. split; [now apply in_map|exact Hf]. }
    cbn [map List.filter]. destruct (fill (f a)) eqn:Efa.
    + split.
      * intros H. inversion H as [|? ? Hnotin Hrest]; subst.
        intros x y [<-|Hx] [<-|Hy] Hxy Hfx; try congruence.
        -- intros E. apply Hnotin. rewrite E. apply Hin; [exact Hy|congruence].
        -- intros E. apply Hnotin. rewrite <- E. now apply Hin.
        -- now apply (proj1 IH Hrest).
      * intros H. constructor.
        -- intros Hmem. apply filter_In in Hmem as [Hmem _].
           apply in_map_iff in Hmem as (y & E & Hy).
           apply (H a y); [now left|now right|congruence|exact Efa|congruence].
        -- apply IH. intros x y Hx Hy. apply H; now right.
    + rewrite IH. split.
      * intros H x y [<-|Hx] [<-|Hy] Hxy Hfx; try congruence.
        now apply H.
      * intros H x y Hx Hy. apply H; now right.
Qed.

End DistinctValues.

Lemma unitClean_spec (board : SudokuBoard) (u : list (nat * nat)) :
  List.NoDup u ->
  unitClean board u = true
  <-> forall p q, In p u -> In q u -> p <> q ->
                  filled (cellAt board p) = true -> cellAt board p <> cellAt board q.
Proof.
  intros Hnd. unfold unitClean.
  rewrite dupFree_spec, <- (NoDup_filter_map filled (cellAt board) u Hnd).
  split; [tauto|]. intros H. split; [|exact H].
  intros v _ _. apply not_elem_of_empty.
Qed.

Lemma units_clean_spec (board : SudokuBoard) :
  (forall u, In u units -> unitClean board u = true) <-> conflictFree filled board.
Proof.
  split.
  - intros H p q Hp Hq Hne Hs Hf.
    destruct (units_complete p q Hp Hq Hs) as (u & Hu & Hpu & Hqu).
    specialize (H u Hu). rewrite (unitClean_spec board u (units_NoDup u Hu)) in H.
    now apply H.
  - intros H u Hu. apply (unitClean_spec board u (units_NoDup u Hu)).
    intros p q Hp Hq Hne Hf.
    destruct (units_sound u p q Hu Hp Hq) as [Hgp Hs].
    destruct (units_sound u q p Hu Hq Hp) as [Hgq _].
    now apply H.
Qed.

Lemma checkIllegalMove_spec (board : SudokuBoard) :
  conflicts (checkIllegalMove board) = [] <-> conflictFree filled board.
Proof. rewrite checkIllegalMove_empty. apply units_clean_spec. Qed.

Lemma plainCell_fill (v : string) : plainCell v -> filled v = notDot v.
Proof.
  unfold plainCell, isDigit. simpl.
  intros [->|H]; [reflexivity|]. repeat (destruct H as [<-|H]; [reflexivity|]). contradiction.
Qed.

(** C10. On a board whose cells are all "." or a digit "1".."9", the
    two validity checks agree: [isValidSudoku] returns [true] exactly
    when [checkIllegalMove] returns an empty conflict list. *)
Theorem validity_checks_agree (board0 : SudokuBoard) :
  wf_board board0 -> plainBoard board0 ->
  isValidSudoku board0 = true <-> conflicts (checkIllegalMove board0) = [].
Proof.
  intros _ Hplain. rewrite isValidSudoku_spec, checkIllegalMove_spec.
  unfold conflictFree.
  split; intros H p q Hp Hq Hne Hs Hf; apply H; try assumption.
  - now rewrite <- (plainCell_fill _ (Hplain p Hp)).
  - now rewrite (plainCell_fill _ (Hplain p Hp)).
Qed.

Lemma plainBoardb_spec (board : SudokuBoard) :
  plainBoardb board = true -> plainBoard board.
Proof.
  unfold plainBoardb. rewrite forallb_forall. intros H p Hp.
  apply in_positions in Hp. specialize (H p Hp).
  unfold plainCellb in H. apply existsb_exists in H as (w & Hw & E).
  apply String.eqb_eq in E. subst w. unfold plainCell, isDigit.
  destruct Hw as [<-|Hw]; [now left|now right].
Qed.

Lemma validity_checks_agree_witness :
  isValidSudoku fallbackBoard = true <-> conflicts (checkIllegalMove fallbackBoard) = [].
Proof.
  apply (validity_checks_agree fallbackBoard wf_fallbackBoard).
  apply plainBoardb_spec. vm_compute. reflexivity.
Defined.

(** ** What a search leaves behind *)

(** *** A failed search restores the tables too *)

Lemma agree_refl (t : SudokuSolver) : agree t t.
Proof. intros i num _ _. reflexivity. Qed.

Lemma agree_trans (t1 t2 t3 : SudokuSolver) : agree t1 t2 -> agree t2 t3 -> agree t1 t3.
Proof. intros H12 H23 i num Hi Hn. now rewrite (H12 i num Hi Hn), (H23 i num Hi Hn). Qed.

Lemma related_trans (s1 s2 s3 : State) : related s1 s2 -> related s2 s3 -> related s1 s3.
Proof.
  intros [Hb12 Ht12] [Hb23 Ht23]. split; [congruence|eapply agree_trans; eassumption].
Qed.

Lemma canPlace_true (s : State) (row col num : nat) :
  canPlace s row col num = true
  <-> flag (rows (tracker s)) row num = false
      /\ flag (cols (tracker s)) col num = false
      /\ flag (blocks (tracker s)) (blockIndex row col) num = false.
Proof.
  unfold canPlace. rewrite !andb_true_iff, !negb_true_iff. tauto.
Qed.

Lemma flag_unset_set (table : list (list bool)) (i0 num i n : nat) :
  flag table i0 num = false ->
  flag (setFlag (setFlag table i0 num true) i0 num false) i n = flag table i n.
Proof.
  intros H. rewrite !flag_setFlag.
  destruct ((i =? i0) && (n =? num)) eqn:E; [|reflexivity].
  apply andb_true_iff in E as [E1 E2]. apply Nat.eqb_eq in E1, E2. subst.
  now symmetry.
Qed.

Lemma unplace_place_related (s : State) (row col num : nat) :
  canPlace s row col num = true ->
  cell (board s) row col = "." ->
  related (unplace (place s row col num) row col num) s.
Proof.
  intros Hcan Hdot. apply canPlace_true in Hcan as (Hr & Hc & Hb). split.
  - cbn [unplace place board]. rewrite setCell_setCell. now apply setCell_dot_id.
  - intros i n _ _. unfold flagsAt. cbn [unplace place tracker rows cols blocks].
    now rewrite !flag_unset_set.
Qed.

Lemma tryNumbers_false_related (recur : State -> option (bool * State)) (row col : nat) :
  (forall s s', recur s = Some (false, s') -> related s' s) ->
  forall nums s s',
    cell (board s) row col = "." ->
    tryNumbers recur row col nums s = Some (false, s') ->
    related s' s.
Proof.
  intros Hrec nums. induction nums as [|num rest IH]; intros s s' Hdot H; simpl in H.
  - inversion H; subst. split; [reflexivity|apply agree_refl].
  - destruct (canPlace s row col num) eqn:Hcan; [|now apply IH].
    destruct (recur (place s row col num)) as [[[|] s1]|] eqn:E; try discriminate.
    apply Hrec in E.
    assert (Hback : related (unplace s1 row col num) s).
    { eapply related_trans; [apply related_unplace, E|].
      now apply unplace_place_related. }
    eapply related_trans; [|exact Hback].
    apply IH; [|exact H]. destruct Hback as [-> _]. exact Hdot.
Qed.

Lemma solveHelper_false_related (fuel row col : nat) (s s' : State) :
  solveHelper fuel row col s = Some (false, s') -> related s' s.
Proof.
  revert row col s s'. induction fuel as [|fuel IH]; intros row col s s' H.
  - discriminate.
  - rewrite solveHelper_unfold in H.
    destruct (row =? 9); [discriminate|].
    destruct (col =? 9); [now apply IH in H|].
    destruct (String.eqb_spec (cell (board s) row col) ".") as [Hdot|Hne]; cbn [negb] in H.
    + eapply tryNumbers_false_related; [|exact Hdot|exact H].
      intros s1 s2. apply IH.
    + now apply IH in H.
Qed.

(** *** A successful search ends on a solution *)

Lemma placeable_cases (num : nat) :
  placeable num ->
  num = 1 \/ num = 2 \/ num = 3 \/ num = 4 \/ num = 5
  \/ num = 6 \/ num = 7 \/ num = 8 \/ num = 9.
Proof. unfold placeable. lia. Qed.

Lemma toString_digit (num : nat) :
  placeable num -> isDigit (JS.toString num) /\ JS.toString num <> ".".
Proof.
  intros H. apply placeable_cases in H.
  repeat (destruct H as [->|H]; [split; [cbv; tauto|discriminate]|]).
  subst. split; [cbv; tauto|discriminate].
Qed.

Lemma toString_inj (a b : nat) :
  placeable a -> placeable b -> JS.toString a = JS.toString b -> a = b.
Proof.
  intros Ha Hb. apply placeable_cases in Ha, Hb.
  repeat (destruct Ha as [->|Ha]); subst;
    repeat (destruct Hb as [->|Hb]); subst;
    first [reflexivity | discriminate].
Qed.

Lemma Forall_set {A : Type} (P : A -> Prop) (hole : A) (a : list A) (n : nat) (v : A) :
  List.Forall P a -> P v -> n < length a -> List.Forall P (JS.set hole a n v).
Proof.
  revert a. induction n as [|n IH]; intros [|x a] Ha Hv Hn; simpl in *; try lia;
    inversion Ha; subst; constructor; auto.
  apply IH; [assumption|assumption|lia].
Qed.

Lemma wf_row (board : SudokuBoard) (row : nat) :
  wf_board board -> row < 9 -> length (JS.get [] board row) = 9.
Proof.
  intros [Hl Hr] Hrow. rewrite List.Forall_forall in Hr. apply Hr.
  unfold JS.get. apply nth_In. lia.
Qed.

Lemma wf_setCell (board : SudokuBoard) (row col : nat) (v : string) :
  wf_board board -> row < 9 -> col < 9 -> wf_board (setCell board row col v).
Proof.
  intros Hwf Hr Hc. pose proof (wf_row board row Hwf Hr) as Hrow.
  destruct Hwf as [Hl Hrows]. unfold setCell. split.
  - rewrite length_set; lia.
  - apply Forall_set; [exact Hrows| |lia]. rewrite length_set; lia.
Qed.

Lemma cellAt_setCell (board : SudokuBoard) (row col : nat) (v : string) (p : nat * nat) :
  cellAt (setCell board row col v) p
  = if posEqb p (row, col) then v else cellAt board p.
Proof. unfold cellAt, posEqb. apply cell_setCell. Qed.

Lemma sound_related (s1 s2 : State) : related s1 s2 -> sound s2 -> sound s1.
Proof.
  intros [Hb Ht] (Hwf & Hplain & Hfree & Hcons). unfold sound. rewrite Hb.
  split; [exact Hwf|]. split; [exact Hplain|]. split; [exact Hfree|].
  intros i num Hi Hnum. destruct (Hcons i num Hi Hnum) as (H1 & H2 & H3).
  assert (Hn : num < 10) by (unfold placeable in Hnum; lia).
  pose proof (Ht i num Hi Hn) as E. unfold flagsAt in E. injection E as E1 E2 E3.
  rewrite Hb, E1, E2, E3. auto.
Qed.

(** One table after a placement: the flag of the new digit in its unit
    is set, and the others still describe the board. *)
Lemma consistent_step (unitOf : nat * nat -> nat) (table : list (list bool))
      (board0 : SudokuBoard) (row col num i n : nat) :
  placeable num -> placeable n -> inGrid (row, col) ->
  cellAt board0 (row, col) = "." ->
  (flag table i n = true
   <-> exists p, inGrid p /\ unitOf p = i /\ cellAt board0 p = JS.toString n) ->
  flag (setFlag table (unitOf (row, col)) num true) i n = true
  <-> exists p, inGrid p /\ unitOf p = i
                /\ cellAt (setCell board0 row col (JS.toString num)) p = JS.toString n.
Proof.
  intros Hnum Hn Hgrid Hdot Hold. rewrite flag_setFlag.
  destruct (toString_digit n Hn) as [_ Hnd].
  destruct ((i =? unitOf (row, col)) && (n =? num)) eqn:E.
  - apply andb_true_iff in E as [E1 E2]. apply Nat.eqb_eq in E1, E2. subst.
    split; [intros _|reflexivity].
    exists (row, col). split; [exact Hgrid|]. split; [reflexivity|].
    rewrite cellAt_setCell. now rewrite (proj2 (posEqb_eq _ _) eq_refl).
  - rewrite Hold. split; intros (p & Hp & Hu & Hv); exists p;
      (split; [exact Hp|]); (split; [exact Hu|]).
    + rewrite cellAt_setCell.
      destruct (posEqb p (row, col)) eqn:Ep; [|exact Hv].
      apply posEqb_eq in Ep. subst p. congruence.
    + rewrite cellAt_setCell in Hv.
      destruct (posEqb p (row, col)) eqn:Ep; [|exact Hv].
      apply posEqb_eq in Ep. subst p.
      apply toString_inj in Hv; [|assumption|assumption]. subst.
      rewrite !Nat.eqb_refl in E. discriminate.
Qed.

Lemma sound_place (s : State) (row col num : nat) :
  sound s -> row < 9 -> col < 9 -> placeable num ->
  cell (board s) row col = "." ->
  canPlace s row col num = true ->
  sound (place s row col num).
Proof.
  intros (Hwf & Hplain & Hfree & Hcons) Hr Hc Hnum Hdot Hcan.
  apply canPlace_true in Hcan as (Fr & Fc & Fb).
  destruct (toString_digit num Hnum) as [Hdig Hnd].
  assert (Hgrid : inGrid (row, col)) by (split; assumption).
  assert (Hfresh : forall q, inGrid q -> sameUnit (row, col) q ->
                             cellAt (board s) q <> JS.toString num).
  { intros q Hq Hu E.
    destruct (Hcons row num Hr Hnum) as (H1 & _ & _).
    destruct (Hcons col num Hc Hnum) as (_ & H2 & _).
    destruct (Hcons _ num (blockIndex_lt row col Hr Hc) Hnum) as (_ & _ & H3).
    destruct Hu as [Hu|[Hu|Hu]]; simpl in Hu.
    - assert (Ht : flag (rows (tracker s)) row num = true) by (apply H1; eauto).
      congruence.
    - assert (Ht : flag (cols (tracker s)) col num = true) by (apply H2; eauto).
      congruence.
    - assert (Ht : flag (blocks (tracker s)) (blockIndex row col) num = true)
        by (apply H3; eauto).
      congruence. }
  unfold sound. cbn [place board]. split; [now apply wf_setCell|]. split; [|split].
  - intros p Hp. rewrite cellAt_setCell.
    destruct (posEqb p (row, col)); [now right|now apply Hplain].
  - intros p q Hp Hq Hne Hu Hfill. rewrite !cellAt_setCell in *.
    destruct (posEqb p (row, col)) eqn:Ep, (posEqb q (row, col)) eqn:Eq.
    + apply posEqb_eq in Ep, Eq. congruence.
    + apply posEqb_eq in Ep. subst p. intros E. apply (Hfresh q Hq Hu). now symmetry.
    + apply posEqb_eq in Eq. subst q. apply Hfresh; [exact Hp|now apply sameUnit_sym].
    + now apply Hfree.
  - intros i n Hi Hn. destruct (Hcons i n Hi Hn) as (H1 & H2 & H3).
    cbn [place board tracker rows cols blocks]. split; [|split].
    + apply (consistent_step fst); assumption.
    + apply (consistent_step snd); assumption.
    + apply (consistent_step blockOf); assumption.
Qed.

Lemma completes_place (board0 board' : SudokuBoard) (row col : nat) (v : string) :
  cellAt board0 (row, col) = "." ->
  completes (setCell board0 row col v) board' -> completes board0 board'.
Proof.
  intros Hdot H p Hp Hne. specialize (H p Hp). rewrite cellAt_setCell in H.
  destruct (posEqb p (row, col)) eqn:Ep; [|now apply H].
  apply posEqb_eq in Ep. subst p. contradiction.
Qed.

Lemma filledBefore_next (board0 : SudokuBoard) (row col : nat) :
  filledBefore board0 row col -> cellAt board0 (row, col) <> "." ->
  filledBefore board0 row (col + 1).
Proof.
  intros H Hne [r c] Hp Hlt. simpl in Hlt.
  destruct (Nat.eq_dec r row) as [->|Hr], (Nat.eq_dec c col) as [->|Hc];
    try exact Hne; apply H; try exact Hp; simpl; lia.
Qed.

Lemma tryNumbers_true (recur : State -> option (bool * State)) (row col : nat) :
  row < 9 -> col < 9 ->
  (forall s s', recur s = Some (true, s') -> sound s ->
                filledBefore (board s) row (col + 1) -> solvedFrom s s') ->
  (forall s s', recur s = Some (false, s') -> related s' s) ->
  forall nums s s',
    List.Forall placeable nums ->
    sound s -> cell (board s) row col = "." -> filledBefore (board s) row col ->
    tryNumbers recur row col nums s = Some (true, s') ->
    solvedFrom s s'.
Proof.
  intros Hr Hc Htrue Hfalse nums.
  induction nums as [|num rest IH]; intros s s' Hnums Hs Hdot Hbefore H; simpl in H.
  - discriminate.
  - inversion Hnums as [|? ? Hnum Hrest]; subst.
    destruct (canPlace s row col num) eqn:Hcan; [|now apply IH].
    destruct (recur (place s row col num)) as [[[|] s1]|] eqn:E; try discriminate.
    + inversion H; subst s1.
      destruct (Htrue _ _ E) as (Hs' & Hfull & Hcomp).
      * now apply sound_place.
      * apply filledBefore_next.
        -- intros p Hp Hlt. cbn [place board]. rewrite cellAt_setCell.
           destruct (posEqb p (row, col)); [apply toString_digit, Hnum|now apply Hbefore].
        -- cbn [place board]. rewrite cellAt_setCell.
           rewrite (proj2 (posEqb_eq _ _) eq_refl). apply toString_digit, Hnum.
      * split; [exact Hs'|]. split; [exact Hfull|].
        eapply completes_place; [exact Hdot|exact Hcomp].
    + apply Hfalse in E.
      assert (Hback : related (unplace s1 row col num) s).
      { eapply related_trans; [apply related_unplace, E|].
        now apply unplace_place_related. }
      pose proof (sound_related _ _ Hback Hs) as Hs1.
      destruct Hback as [Hb _].
      destruct (IH (unplace s1 row col num) s' Hrest Hs1) as (H1 & H2 & H3);
        try (rewrite Hb; assumption); [exact H|].
      split; [exact H1|]. split; [exact H2|]. now rewrite <- Hb.
Qed.

Lemma solveHelper_true (fuel row col : nat) (s s' : State) :
  row <= 9 -> col <= 9 ->
  sound s -> filledBefore (board s) row col ->
  solveHelper fuel row col s = Some (true, s') ->
  solvedFrom s s'.
Proof.
  revert row col s s'. induction fuel as [|fuel IH]; intros row col s s' Hr Hc Hs Hbefore H.
  - discriminate.
  - rewrite solveHelper_unfold in H.
    destruct (Nat.eqb_spec row 9) as [->|Hr9].
    + inversion H; subst s'. split; [exact Hs|]. split.
      * intros p Hp. apply Hbefore; [exact Hp|]. left. apply Hp.
      * intros p _ _. reflexivity.
    + destruct (Nat.eqb_spec col 9) as [->|Hc9].
      * apply IH in H; [exact H|lia|lia|exact Hs|].
        intros p Hp Hlt. apply Hbefore; [exact Hp|]. destruct Hp as [_ Hp]. lia.
      * destruct (String.eqb_spec (cell (board s) row col) ".") as [Hdot|Hne];
          cbn [negb] in H.
        -- eapply tryNumbers_true; [| | | | |exact Hs|exact Hdot|exact Hbefore|exact H];
             try lia.
           ++ intros u u' Hu Hsu Hbu. apply (IH row (col + 1)); try assumption; lia.
           ++ intros u u'. apply solveHelper_false_related.
           ++ apply List.Forall_forall. intros n Hn. apply in_seq in Hn.
              unfold placeable. lia.
        -- apply IH in H; [exact H|lia|lia|exact Hs|].
           now apply filledBefore_next.
Qed.

(** *** The tables [initializeTracking] builds *)

Lemma flag_mark_marks (board0 : SudokuBoard) (unitOf : nat * nat -> nat)
      (table : list (list bool)) (p : nat * nat) (i num : nat) :
  notDot (cellAt board0 p) = true ->
  flag (mark table (unitOf p) (JS.parseInt (cellAt board0 p))) i num
  = flag table i num || marks board0 unitOf i num p.
Proof.
  intros Hnd. rewrite flag_mark. unfold marks. rewrite Hnd, (Nat.eqb_sym (unitOf p) i).
  destruct (JS.parseInt (cellAt board0 p)) as [z|]; cbn [andb].
  - destruct (0 <=? z)%Z, (i =? unitOf p), (num =? Z.to_nat z), (flag table i num);
      reflexivity.
  - now rewrite andb_false_r, orb_false_r.
Qed.

Lemma flags_markCell (board0 : SudokuBoard) (t : SudokuSolver) (p : nat * nat) (i num : nat) :
  flag (rows (markCell board0 t p)) i num
  = flag (rows t) i num || marks board0 fst i num p
  /\ flag (cols (markCell board0 t p)) i num
     = flag (cols t) i num || marks board0 snd i num p
  /\ flag (blocks (markCell board0 t p)) i num
     = flag (blocks t) i num || marks board0 blockOf i num p.
Proof.
  destruct p as [r c]. unfold markCell.
  change (cell board0 r c) with (cellAt board0 (r, c)).
  fold (notDot (cellAt board0 (r, c))).
  destruct (notDot (cellAt board0 (r, c))) eqn:Hnd.
  - cbn [rows cols blocks].
    rewrite (flag_mark_marks board0 fst _ (r, c) i num Hnd).
    rewrite (flag_mark_marks board0 snd _ (r, c) i num Hnd).
    rewrite (flag_mark_marks board0 blockOf _ (r, c) i num Hnd). auto.
  - unfold marks. rewrite Hnd. cbn [andb]. now rewrite !orb_false_r.
Qed.

Lemma flags_markExisting (board0 : SudokuBoard) (ps : list (nat * nat))
      (t : SudokuSolver) (i num : nat) :
  flag (rows (fold_left (markCell board0) ps t)) i num
  = flag (rows t) i num || existsb (marks board0 fst i num) ps
  /\ flag (cols (fold_left (markCell board0) ps t)) i num
     = flag (cols t) i num || existsb (marks board0 snd i num) ps
  /\ flag (blocks (fold_left (markCell board0) ps t)) i num
     = flag (blocks t) i num || existsb (marks board0 blockOf i num) ps.
Proof.
  revert t. induction ps as [|p ps IH]; intros t; cbn [fold_left existsb].
  - now rewrite !orb_false_r.
  - destruct (IH (markCell board0 t p)) as (H1 & H2 & H3).
    destruct (flags_markCell board0 t p i num) as (E1 & E2 & E3).
    rewrite H1, H2, H3, E1, E2, E3, !orb_assoc. auto.
Qed.

(** On a cell that holds "." or a digit, the test of [marks] says that
    the cell holds the digit [num]. *)
Lemma plain_parse (v : string) (num : nat) :
  plainCell v -> placeable num ->
  notDot v && match JS.parseInt v with
              | Some z => (0 <=? z)%Z && (num =? Z.to_nat z)
              | None => false
              end = true
  <-> v = JS.toString num.
Proof.
  intros Hv Hnum. apply placeable_cases in Hnum.
  destruct Hv as [->|Hv].
  - repeat (destruct Hnum as [->|Hnum]; [split; discriminate|]).
    subst. split; discriminate.
  - unfold isDigit in Hv. simpl in Hv.
    repeat (destruct Hv as [<-|Hv];
            [repeat (destruct Hnum as [->|Hnum];
                     [split; first [reflexivity|discriminate]|]);
             subst; split; first [reflexivity|discriminate]|]).
    contradiction.
Qed.

Lemma marks_spec (board0 : SudokuBoard) (unitOf : nat * nat -> nat) (i num : nat) :
  plainBoard board0 -> placeable num ->
  existsb (marks board0 unitOf i num) positions = true
  <-> exists p, inGrid p /\ unitOf p = i /\ cellAt board0 p = JS.toString num.
Proof.
  intros Hplain Hnum. rewrite existsb_exists. split.
  - intros (p & Hp & Hm). apply in_positions in Hp. exists p. split; [exact Hp|].
    unfold marks in Hm.
    destruct (unitOf p =? i) eqn:Eu.
    + apply Nat.eqb_eq in Eu. split; [exact Eu|].
      apply (plain_parse _ num (Hplain p Hp) Hnum).
      now rewrite andb_true_r in Hm.
    + now rewrite andb_false_r in Hm.
  - intros (p & Hp & Hu & Hv). exists p. split; [now apply in_positions|].
    apply (plain_parse _ num (Hplain p Hp) Hnum) in Hv.
    unfold marks. apply andb_true_iff in Hv as [H1 H2].
    rewrite H1, H2, (proj2 (Nat.eqb_eq _ _) Hu). reflexivity.
Qed.

Lemma consistent_initializeTracking (this : SudokuSolver) (board0 : SudokuBoard) :
  plainBoard board0 -> consistent (mkState board0 (initializeTracking this board0)).
Proof.
  intros Hplain i num Hi Hnum. cbn [board tracker].
  unfold initializeTracking, markExisting.
  destruct (flags_markExisting board0 positions (resetTracking this) i num)
    as (E1 & E2 & E3).
  assert (Hn : num < 10) by (unfold placeable in Hnum; lia).
  pose proof (resetTracking_clears this i num Hi Hn) as Hz.
  revert E1 E2 E3 Hz. unfold flagsAt. generalize (resetTracking this). intros t E1 E2 E3 Hz.
  injection Hz as Z1 Z2 Z3.
  rewrite E1, E2, E3, Z1, Z2, Z3. cbn [orb].
  split; [|split].
  - apply (marks_spec board0 fst); assumption.
  - apply (marks_spec board0 snd); assumption.
  - apply (marks_spec board0 blockOf); assumption.
Qed.

(** *** Soundness of [solve] *)

(** When the filled cells of the board are digits that do not
    conflict, a call that returns [true] leaves a solution that keeps
    every cell the board had filled. *)
Theorem solve_sound (this : SudokuSolver) (board0 : SudokuBoard) (s : State) :
  wf_board board0 -> plainBoard board0 -> conflictFree notDot board0 ->
  solve this board0 = Some (true, s) ->
  solution (board s) /\ completes board0 (board s).
Proof.
  intros Hwf Hplain Hfree H. rewrite solve_unfold in H.
  apply solveHelper_true in H; [|lia|lia| |].
  - destruct H as ((Hwf' & Hplain' & Hfree' & _) & Hfull & Hcomp).
    split; [|exact Hcomp]. split; [exact Hwf'|]. split.
    + intros p Hp. destruct (Hplain' p Hp) as [Hdot|Hd]; [|exact Hd].
      exfalso. now apply (Hfull p Hp).
    + intros p q Hp Hq [Hne Hu]. apply Hfree'; try assumption.
      apply notDot_true. now apply Hfull.
  - unfold sound. cbn [board].
    split; [exact Hwf|]. split; [exact Hplain|]. split; [exact Hfree|].
    now apply consistent_initializeTracking.
  - intros p _ [Hlt|[_ Hlt]]; lia.
Qed.

(** Hence on such a board that admits no solution, [solve] returns
    [false] and hands the board back as it was. *)
Corollary solve_false_when_unsolvable (this : SudokuSolver) (board0 : SudokuBoard) :
  wf_board board0 -> plainBoard board0 -> conflictFree notDot board0 ->
  unsolvable board0 ->
  exists s, solve this board0 = Some (false, s) /\ board s = board0.
Proof.
  intros Hwf Hplain Hfree Hno.
  destruct (solve_returns this board0) as ([|] & s & E).
  - exfalso. destruct (solve_sound this board0 s Hwf Hplain Hfree E) as [Hsol Hcomp].
    exact (Hno (board s) Hcomp Hsol).
  - exists s. split; [exact E|]. now apply solve_false_board in E.
Qed.

Lemma deadEndBoard_unsolvable : unsolvable deadEndBoard.
Proof.
  intros board' Hcomp (_ & Hdig & Hdist).
  assert (Hkeep : forall p v, inGrid p -> cellAt deadEndBoard p = v -> v <> "." ->
                              cellAt board' p = v).
  { intros p v Hp <- Hne. now apply Hcomp. }
  assert (Hclash : forall q, inGrid q -> sameUnit (0, 0) q -> (0, 0) <> q ->
                             cellAt board' (0, 0) <> cellAt board' q).
  { intros q Hq Hu Hne. apply Hdist; [split; simpl; lia|exact Hq|split; assumption]. }
  assert (H0 : isDigit (cellAt board' (0, 0))) by (apply Hdig; split; simpl; lia).
  unfold isDigit in H0. simpl in H0.
  destruct H0 as [H0|[H0|[H0|[H0|[H0|[H0|[H0|[H0|[H0|[]]]]]]]]]].
  - apply (Hclash (0, 1)); [split; simpl; lia|now left|discriminate|].
    rewrite <- H0. symmetry. apply Hkeep; [split; simpl; lia|reflexivity|discriminate].
  - apply (Hclash (0, 2)); [split; simpl; lia|now left|discriminate|].
    rewrite <- H0. symmetry. apply Hkeep; [split; simpl; lia|reflexivity|discriminate].
  - apply (Hclash (0, 3)); [split; simpl; lia|now left|discriminate|].
    rewrite <- H0. symmetry. apply Hkeep; [split; simpl; lia|reflexivity|discriminate].
  - apply (Hclash (0, 4)); [split; simpl; lia|now left|discriminate|].
    rewrite <- H0. symmetry. apply Hkeep; [split; simpl; lia|reflexivity|discriminate].
  - apply (Hclash (0, 5)); [split; simpl; lia|now left|discriminate|].
    rewrite <- H0. symmetry. apply Hkeep; [split; simpl; lia|reflexivity|discriminate].
  - apply (Hclash (0, 6)); [split; simpl; lia|now left|discriminate|].
    rewrite <- H0. symmetry. apply Hkeep; [split; simpl; lia|reflexivity|discriminate].
  - apply (Hclash (0, 7)); [split; simpl; lia|now left|discriminate|].
    rewrite <- H0. symmetry. apply Hkeep; [split; simpl; lia|reflexivity|discriminate].
  - apply (Hclash (0, 8)); [split; simpl; lia|now left|discriminate|].
    rewrite <- H0. symmetry. apply Hkeep; [split; simpl; lia|reflexivity|discriminate].
  - apply (Hclash (1, 0)); [split; simpl; lia|right; now left|discriminate|].
    rewrite <- H0. symmetry. apply Hkeep; [split; simpl; lia|reflexivity|discriminate].
Qed.

Example solve_false_on_deadEndBoard :
  exists s, solve new deadEndBoard = Some (false, s) /\ board s = deadEndBoard.
Proof.
  apply solve_false_when_unsolvable.
  - exact wf_deadEndBoard.
  - apply plainBoardb_spec. vm_compute. reflexivity.
  - apply isValidSudoku_spec. vm_compute. reflexivity.
  - exact deadEndBoard_unsolvable.
Qed.

Example solve_sound_on_fallbackBoard :
  solution fallbackSolved /\ completes fallbackBoard fallbackSolved.
Proof.
  destruct solve_new_fallback as (s & E & <-).
  apply (solve_sound new fallbackBoard s).
  - exact wf_fallbackBoard.
  - apply plainBoardb_spec. vm_compute. reflexivity.
  - apply isValidSudoku_spec. vm_compute. reflexivity.
  - exact E.
Qed.

(** * Further properties *)

(** ** The search is complete *)

Lemma digit_placeable (v : string) :
  isDigit v -> exists num, placeable num /\ JS.toString num = v.
Proof.
  unfold isDigit. simpl. unfold placeable.
  intros [<-|[<-|[<-|[<-|[<-|[<-|[<-|[<-|[<-|[]]]]]]]]]];
    [exists 1|exists 2|exists 3|exists 4|exists 5|exists 6|exists 7|exists 8|exists 9];
    (split; [lia|reflexivity]).
Qed.

(** The digit a solution holds at an empty cell can be placed there. *)
Lemma canPlace_solution_digit (s : State) (target : SudokuBoard) (row col num : nat) :
  sound s -> solution target -> completes (board s) target ->
  row < 9 -> col < 9 -> placeable num ->
  cell (board s) row col = "." ->
  cellAt target (row, col) = JS.toString num ->
  canPlace s row col num = true.
Proof.
  intros (_ & _ & _ & Hcons) (_ & _ & Hdist) Hcomp Hr Hc Hnum Hdot Htarget.
  destruct (toString_digit num Hnum) as [_ Hnd].
  assert (Hfree : forall q, inGrid q -> sameUnit (row, col) q ->
                            cellAt (board s) q <> JS.toString num).
  { intros q Hq Hu E.
    assert (Hne : q <> (row, col)).
    { intros ->. unfold cellAt in E. simpl in E. congruence. }
    apply (Hdist (row, col) q); [split; assumption|exact Hq|split; [congruence|exact Hu]|].
    rewrite Htarget, <- E. symmetry. apply Hcomp; [exact Hq|congruence]. }
  destruct (Hcons row num Hr Hnum) as (H1 & _ & _).
  destruct (Hcons col num Hc Hnum) as (_ & H2 & _).
  destruct (Hcons _ num (blockIndex_lt row col Hr Hc) Hnum) as (_ & _ & H3).
  apply canPlace_true. repeat split; apply not_true_is_false; intros Hflag.
  - apply H1 in Hflag as (q & Hq & Hu & E). apply (Hfree q Hq); [now left|exact E].
  - apply H2 in Hflag as (q & Hq & Hu & E). apply (Hfree q Hq); [right; now left|exact E].
  - apply H3 in Hflag as (q & Hq & Hu & E).
    apply (Hfree q Hq); [right; right; now symmetry|exact E].
Qed.

Lemma completes_place_digit (board0 target : SudokuBoard) (row col num : nat) :
  completes board0 target ->
  cellAt target (row, col) = JS.toString num ->
  completes (setCell board0 row col (JS.toString num)) target.
Proof.
  intros Hcomp Htarget p Hp. rewrite cellAt_setCell.
  destruct (posEqb p (row, col)) eqn:Ep; [|now apply Hcomp].
  apply posEqb_eq in Ep. subst p. intros _. exact Htarget.
Qed.

Lemma tryNumbers_complete (recur : State -> option (bool * State))
      (target : SudokuBoard) (row col num : nat) :
  row < 9 -> col < 9 -> placeable num -> solution target ->
  cellAt target (row, col) = JS.toString num ->
  (forall s s', recur s = Some (false, s') -> related s' s) ->
  (forall s s', sound s -> completes (board s) target ->
                recur s = Some (false, s') -> False) ->
  forall nums s s',
    In num nums -> sound s -> completes (board s) target ->
    cell (board s) row col = "." ->
    tryNumbers recur row col nums s = Some (false, s') -> False.
Proof.
  intros Hr Hc Hnum Hsol Htarget Hfalse Hnever nums.
  induction nums as [|n rest IH]; intros s s' Hin Hs Hcomp Hdot H; simpl in H.
  - contradiction.
  - destruct (Nat.eq_dec n num) as [->|Hne].
    + rewrite (canPlace_solution_digit s target row col num) in H; try assumption.
      destruct (recur (place s row col num)) as [[[|] s1]|] eqn:E; try discriminate.
      apply (Hnever _ _ (sound_place s row col num Hs Hr Hc Hnum Hdot
                           (canPlace_solution_digit s target row col num Hs Hsol Hcomp
                                                    Hr Hc Hnum Hdot Htarget))) in E;
        [exact E|].
      cbn [place board]. now apply completes_place_digit.
    + assert (Hin' : In num rest) by (destruct Hin as [E|Hin]; [congruence|exact Hin]).
      destruct (canPlace s row col n) eqn:Hcan; [|now apply (IH s s')].
      destruct (recur (place s row col n)) as [[[|] s1]|] eqn:E; try discriminate.
      apply Hfalse in E.
      assert (Hback : related (unplace s1 row col n) s).
      { eapply related_trans; [apply related_unplace, E|].
        now apply unplace_place_related. }
      pose proof (sound_related _ _ Hback Hs) as Hs1.
      destruct Hback as [Hb _].
      apply (IH (unplace s1 row col n) s'); try assumption; now rewrite Hb.
Qed.

Lemma solveHelper_complete (target : SudokuBoard) (fuel row col : nat) (s s' : State) :
  row <= 9 -> col <= 9 -> solution target ->
  sound s -> completes (board s) target ->
  solveHelper fuel row col s = Some (false, s') -> False.
Proof.
  intros Hr Hc Hsol. revert row col s s' Hr Hc.
  induction fuel as [|fuel IH]; intros row col s s' Hr Hc Hs Hcomp H.
  - discriminate.
  - rewrite solveHelper_unfold in H.
    destruct (Nat.eqb_spec row 9) as [->|Hr9]; [discriminate|].
    destruct (Nat.eqb_spec col 9) as [->|Hc9].
    + apply (IH (row + 1) 0 s s'); try assumption; lia.
    + destruct (String.eqb_spec (cell (board s) row col) ".") as [Hdot|Hne];
        cbn [negb] in H.
      * assert (Hgrid : inGrid (row, col)) by (split; simpl; lia).
        assert (Hr' : row < 9) by lia. assert (Hc' : col < 9) by lia.
        destruct (digit_placeable _ (proj1 (proj2 Hsol) (row, col) Hgrid))
          as (num & Hnum & Enum).
        assert (Hin : In num (seq 1 9)) by (apply in_seq; unfold placeable in Hnum; lia).
        assert (Hfalse : forall u u', solveHelper fuel row (col + 1) u = Some (false, u') ->
                                      related u' u)
          by (intros u u'; apply solveHelper_false_related).
        assert (Hnever : forall u u', sound u -> completes (board u) target ->
                                      solveHelper fuel row (col + 1) u = Some (false, u') ->
                                      False)
          by (intros u u' Hu Hcu; apply (IH row (col + 1)); try assumption; lia).
        exact (tryNumbers_complete _ target row col num Hr' Hc' Hnum Hsol (eq_sym Enum)
                                   Hfalse Hnever (seq 1 9) s s' Hin Hs Hcomp Hdot H).
      * apply (IH row (col + 1) s s'); try assumption; lia.
Qed.

(** A board that a solution extends holds digits and "." only, without
    conflict. *)
Lemma solvable_plain (board0 : SudokuBoard) :
  solvable board0 -> plainBoard board0 /\ conflictFree notDot board0.
Proof.
  intros (target & (Hwf & Hdig & Hdist) & Hcomp). split.
  - intros p Hp. destruct (String.eqb_spec (cellAt board0 p) ".") as [E|Hne]; [now left|].
    right. rewrite <- (Hcomp p Hp Hne). now apply Hdig.
  - intros p q Hp Hq Hne Hu Hfill E. apply notDot_true in Hfill.
    apply (Hdist p q Hp Hq); [split; assumption|].
    rewrite (Hcomp p Hp Hfill), (Hcomp q Hq); congruence.
Qed.

Lemma solve_complete (this : SudokuSolver) (board0 : SudokuBoard) :
  wf_board board0 -> solvable board0 ->
  exists s, solve this board0 = Some (true, s).
Proof.
  intros Hwf Hsolv. destruct (solvable_plain board0 Hsolv) as [Hplain Hfree].
  destruct Hsolv as (target & Hsol & Hcomp).
  destruct (solve_returns this board0) as ([|] & s & E); [eauto|].
  exfalso. rewrite solve_unfold in E.
  apply (solveHelper_complete target) in E; try assumption; try lia.
  unfold sound. cbn [board].
  split; [exact Hwf|]. split; [exact Hplain|]. split; [exact Hfree|].
  now apply consistent_initializeTracking.
Qed.

Lemma plain_fallbackBoard : plainBoard fallbackBoard.
Proof. apply plainBoardb_spec. vm_compute. reflexivity. Qed.

Lemma conflictFree_fallbackBoard : conflictFree notDot fallbackBoard.
Proof. apply isValidSudoku_spec. vm_compute. reflexivity. Qed.

(** X1. On a board whose filled cells are digits that do not conflict,
    [solve] decides solvability: it returns [true] exactly when some
    solution extends the board, it then leaves such a solution in the
    board, and otherwise it hands the board back unchanged. *)
Theorem solve_decides_solvability (this : SudokuSolver) (board0 : SudokuBoard) :
  shaped this -> wf_board board0 -> plainBoard board0 -> conflictFree notDot board0 ->
  exists ok s,
    solve this board0 = Some (ok, s)
    /\ (ok = true <-> solvable board0)
    /\ (ok = true -> solution (board s) /\ completes board0 (board s))
    /\ (ok = false -> board s = board0).
Proof.
  intros _ Hwf Hplain Hfree.
  destruct (solve_returns this board0) as (ok & s & E). exists ok, s.
  split; [exact E|]. destruct ok.
  - pose proof (solve_sound this board0 s Hwf Hplain Hfree E) as Hsol.
    split; [|split; [intros _; exact Hsol|discriminate]].
    split; [intros _; exists (board s); exact Hsol|reflexivity].
  - split; [|split; [discriminate|intros _; now apply solve_false_board in E]].
    split; [discriminate|]. intros Hsolv.
    destruct (solve_complete this board0 Hwf Hsolv) as (s1 & E1). congruence.
Qed.

Lemma solve_decides_solvability_witness :
  exists ok s,
    solve new fallbackBoard = Some (ok, s)
    /\ (ok = true <-> solvable fallbackBoard)
    /\ (ok = true -> solution (board s) /\ completes fallbackBoard (board s))
    /\ (ok = false -> board s = fallbackBoard).
Proof.
  apply (solve_decides_solvability new fallbackBoard shaped_new wf_fallbackBoard
           plain_fallbackBoard conflictFree_fallbackBoard).
Defined.

(** ** What [solve] writes, on any board *)

Lemma fillsIn_refl (board0 : SudokuBoard) : fillsIn board0 board0.
Proof. intros p _. split; [reflexivity|now left]. Qed.

Lemma fillsIn_place (board0 board' : SudokuBoard) (row col num : nat) :
  placeable num ->
  cellAt board0 (row, col) = "." ->
  fillsIn (setCell board0 row col (JS.toString num)) board' -> fillsIn board0 board'.
Proof.
  intros Hnum Hdot H p Hp. destruct (H p Hp) as [H1 H2].
  destruct (toString_digit num Hnum) as [Hdig Hnd].
  rewrite cellAt_setCell in H1, H2.
  destruct (posEqb p (row, col)) eqn:Ep.
  - apply posEqb_eq in Ep. subst p. split; [congruence|].
    intros _. right. rewrite (H1 Hnd). exact Hdig.
  - split; assumption.
Qed.

Lemma tryNumbers_fills (recur : State -> option (bool * State)) (row col : nat) :
  row < 9 -> col < 9 ->
  (forall s s', recur s = Some (true, s') -> wf_board (board s) ->
                filledBefore (board s) row (col + 1) ->
                wf_board (board s') /\ full (board s') /\ fillsIn (board s) (board s')) ->
  (forall s s', recur s = Some (false, s') -> board s' = board s) ->
  forall nums s s',
    List.Forall placeable nums -> wf_board (board s) ->
    cell (board s) row col = "." -> filledBefore (board s) row col ->
    tryNumbers recur row col nums s = Some (true, s') ->
    wf_board (board s') /\ full (board s') /\ fillsIn (board s) (board s').
Proof.
  intros Hr Hc Htrue Hfalse nums.
  induction nums as [|num rest IH]; intros s s' Hnums Hwf Hdot Hbefore H; simpl in H.
  - discriminate.
  - inversion Hnums as [|? ? Hnum Hrest]; subst.
    destruct (canPlace s row col num); [|now apply IH].
    destruct (recur (place s row col num)) as [[[|] s1]|] eqn:E; try discriminate.
    + inversion H; subst s1.
      destruct (Htrue _ _ E) as (Hwf' & Hfull & Hfill).
      * cbn [place board]. now apply wf_setCell.
      * apply filledBefore_next.
        -- intros p Hp Hlt. cbn [place board]. rewrite cellAt_setCell.
           destruct (posEqb p (row, col)); [apply toString_digit, Hnum|now apply Hbefore].
        -- cbn [place board]. rewrite cellAt_setCell.
           rewrite (proj2 (posEqb_eq _ _) eq_refl). apply toString_digit, Hnum.
      * split; [exact Hwf'|]. split; [exact Hfull|].
        eapply fillsIn_place; [exact Hnum|exact Hdot|exact Hfill].
    + apply Hfalse in E.
      assert (Hb : board (unplace s1 row col num) = board s).
      { cbn [unplace board]. rewrite E. cbn [place board].
        rewrite setCell_setCell. now apply setCell_dot_id. }
      destruct (IH (unplace s1 row col num) s' Hrest) as (H1 & H2 & H3);
        try (rewrite Hb; assumption); [exact H|].
      split; [exact H1|]. split; [exact H2|]. now rewrite <- Hb.
Qed.

Lemma solveHelper_fills (fuel row col : nat) (s s' : State) :
  row <= 9 -> col <= 9 -> wf_board (board s) ->
  filledBefore (board s) row col ->
  solveHelper fuel row col s = Some (true, s') ->
  wf_board (board s') /\ full (board s') /\ fillsIn (board s) (board s').
Proof.
  revert row col s s'. induction fuel as [|fuel IH]; intros row col s s' Hr Hc Hwf Hbefore H.
  - discriminate.
  - rewrite solveHelper_unfold in H.
    destruct (Nat.eqb_spec row 9) as [->|Hr9].
    + inversion H; subst s'. split; [exact Hwf|]. split; [|apply fillsIn_refl].
      intros p Hp. apply Hbefore; [exact Hp|]. left. apply Hp.
    + destruct (Nat.eqb_spec col 9) as [->|Hc9].
      * apply IH in H; [exact H|lia|lia|exact Hwf|].
        intros p Hp Hlt. apply Hbefore; [exact Hp|]. destruct Hp as [_ Hp]. lia.
      * destruct (String.eqb_spec (cell (board s) row col) ".") as [Hdot|Hne];
          cbn [negb] in H.
        -- assert (Hr' : row < 9) by lia. assert (Hc' : col < 9) by lia.
           assert (Hnums : List.Forall placeable (seq 1 9)).
           { apply List.Forall_forall. intros n Hn. apply in_seq in Hn.
             unfold placeable. lia. }
           refine (tryNumbers_fills _ row col Hr' Hc' _ _ (seq 1 9) s s' Hnums Hwf Hdot
                                    Hbefore H).
           ++ intros u u' Hu Hwu Hbu. apply (IH row (col + 1)); try assumption; lia.
           ++ intros u u'. apply solveHelper_false_board.
        -- apply IH in H; [exact H|lia|lia|exact Hwf|].
           now apply filledBefore_next.
Qed.

Lemma solve_fills (this : SudokuSolver) (board0 : SudokuBoard) (s : State) :
  wf_board board0 -> solve this board0 = Some (true, s) ->
  wf_board (board s) /\ full (board s) /\ fillsIn board0 (board s).
Proof.
  intros Hwf H. rewrite solve_unfold in H.
  apply solveHelper_fills in H; [exact H|lia|lia|exact Hwf|].
  intros p _ [Hlt|[_ Hlt]]; lia.
Qed.

(** X2. Whatever the board holds, a call of [solve] that returns [true]
    leaves a 9x9 board without any "." in which every cell that was
    filled keeps its value (a blank string stays a blank string) and
    every cell that was "." holds a digit "1".."9". *)
Theorem solve_fills_only_empty_cells (this : SudokuSolver) (board0 : SudokuBoard)
        (s : State) :
  shaped this -> wf_board board0 ->
  solve this board0 = Some (true, s) ->
  wf_board (board s) /\ full (board s) /\ fillsIn board0 (board s)
  /\ (forall p, inGrid p -> cellAt board0 p = "." -> isDigit (cellAt (board s) p)).
Proof.
  intros _ Hwf H. destruct (solve_fills this board0 s Hwf H) as (H1 & H2 & H3).
  split; [exact H1|]. split; [exact H2|]. split; [exact H3|].
  intros p Hp Hdot. destruct (H3 p Hp) as [_ [Hd|Hd]]; [exact Hdot| |exact Hd].
  exfalso. now apply (H2 p Hp).
Qed.

Lemma solve_fills_only_empty_cells_witness :
  exists s, solve new fallbackBoard = Some (true, s)
            /\ wf_board (board s) /\ full (board s) /\ fillsIn fallbackBoard (board s)
            /\ (forall p, inGrid p -> cellAt fallbackBoard p = "." ->
                           isDigit (cellAt (board s) p)).
Proof.
  destruct solve_new_fallback as (s & E & _). exists s. split; [exact E|].
  exact (solve_fills_only_empty_cells new fallbackBoard s shaped_new wf_fallbackBoard E).
Defined.

Lemma consistent_read (board0 : SudokuBoard) (t : SudokuSolver) (i num : nat) :
  consistent (mkState board0 t) -> i < 9 -> placeable num ->
  (flag (rows t) i num = true
   <-> exists col, col < 9 /\ cell board0 i col = JS.toString num)
  /\ (flag (cols t) i num = true
      <-> exists row, row < 9 /\ cell board0 row i = JS.toString num)
  /\ (flag (blocks t) i num = true
      <-> exists row col, row < 9 /\ col < 9 /\ blockIndex row col = i
                          /\ cell board0 row col = JS.toString num).
Proof.
  intros Hcons Hi Hnum. destruct (Hcons i num Hi Hnum) as (H1 & H2 & H3).
  cbn [board tracker] in H1, H2, H3.
  split; [|split].
  - etransitivity; [exact H1|]. split.
    + intros ([r c] & [Hr Hc] & E & Hv). cbn [fst snd] in Hr, Hc, E.
      subst r. exists c. split; [exact Hc|exact Hv].
    + intros (c & Hc & Hv). exists (i, c).
      split; [split; [exact Hi|exact Hc]|]. split; [reflexivity|exact Hv].
  - etransitivity; [exact H2|]. split.
    + intros ([r c] & [Hr Hc] & E & Hv). cbn [fst snd] in Hr, Hc, E.
      subst c. exists r. split; [exact Hr|exact Hv].
    + intros (r & Hr & Hv). exists (r, i).
      split; [split; [exact Hr|exact Hi]|]. split; [reflexivity|exact Hv].
  - etransitivity; [exact H3|]. split.
    + intros ([r c] & [Hr Hc] & E & Hv). cbn [fst snd] in Hr, Hc.
      exists r, c. split; [exact Hr|]. split; [exact Hc|]. split; [exact E|exact Hv].
    + intros (r & c & Hr & Hc & E & Hv). exists (r, c).
      split; [split; [exact Hr|exact Hc]|]. split; [exact E|exact Hv].
Qed.

(** X3. Whatever the tables held before, after [initializeTracking] on a
    board of digits and "." the flag of digit [num] is set in row [i]
    exactly when the row holds the digit, and likewise for column [i]
    and block [i]. *)
Theorem tracking_tables_describe_board (this : SudokuSolver) (board0 : SudokuBoard)
        (i num : nat) :
  shaped this -> wf_board board0 -> plainBoard board0 ->
  i < 9 -> 1 <= num <= 9 ->
  (flag (rows (initializeTracking this board0)) i num = true
   <-> exists col, col < 9 /\ cell board0 i col = JS.toString num)
  /\ (flag (cols (initializeTracking this board0)) i num = true
      <-> exists row, row < 9 /\ cell board0 row i = JS.toString num)
  /\ (flag (blocks (initializeTracking this board0)) i num = true
      <-> exists row col, row < 9 /\ col < 9 /\ blockIndex row col = i
                          /\ cell board0 row col = JS.toString num).
Proof.
  intros _ _ Hplain Hi Hnum.
  exact (consistent_read board0 (initializeTracking this board0) i num
           (consistent_initializeTracking this board0 Hplain) Hi Hnum).
Qed.

Lemma tracking_tables_describe_board_witness :
  (flag (rows (initializeTracking usedSolver fallbackBoard)) 0 5 = true
   <-> exists col, col < 9 /\ cell fallbackBoard 0 col = JS.toString 5)
  /\ (flag (cols (initializeTracking usedSolver fallbackBoard)) 0 5 = true
      <-> exists row, row < 9 /\ cell fallbackBoard row 0 = JS.toString 5)
  /\ (flag (blocks (initializeTracking usedSolver fallbackBoard)) 0 5 = true
      <-> exists row col, row < 9 /\ col < 9 /\ blockIndex row col = 0
                          /\ cell fallbackBoard row col = JS.toString 5).
Proof.
  apply (tracking_tables_describe_board usedSolver fallbackBoard 0 5 shaped_usedSolver
           wf_fallbackBoard plain_fallbackBoard); lia.
Defined.

(** ** The validity checks *)

(** X4. [isValidSudoku] returns [true] exactly when no two cells of a
    row, column or block hold the same value other than "."; a blank
    string counts as a value like any other. *)
Theorem isValidSudoku_iff_no_repeat (board0 : SudokuBoard) :
  wf_board board0 ->
  isValidSudoku board0 = true
  <-> forall p q, inGrid p -> inGrid q -> p <> q -> sameUnit p q ->
                  cellAt board0 p <> "." -> cellAt board0 p <> cellAt board0 q.
Proof.
  intros _. rewrite isValidSudoku_spec. unfold conflictFree.
  split; intros H p q Hp Hq Hne Hs Hf; apply H; try assumption;
    now apply notDot_true.
Qed.

Lemma isValidSudoku_iff_no_repeat_witness :
  isValidSudoku fallbackBoard = true
  <-> forall p q, inGrid p -> inGrid q -> p <> q -> sameUnit p q ->
                  cellAt fallbackBoard p <> "." ->
                  cellAt fallbackBoard p <> cellAt fallbackBoard q.
Proof. apply (isValidSudoku_iff_no_repeat fallbackBoard wf_fallbackBoard). Defined.

Lemma filled_true (v : string) : filled v = true <-> v <> "." /\ v <> "".
Proof.
  unfold filled. rewrite andb_true_iff, !negb_true_iff.
  destruct (String.eqb_spec v "."), (String.eqb_spec v ""); split;
    try tauto; try (intros [? ?]; congruence).
Qed.

(** X5. [checkIllegalMove] returns an empty conflict list exactly when
    no two cells of a row, column or block hold the same value other
    than "." and the blank string. *)
Theorem checkIllegalMove_empty_iff_no_repeat (board0 : SudokuBoard) :
  wf_board board0 ->
  conflicts (checkIllegalMove board0) = []
  <-> forall p q, inGrid p -> inGrid q -> p <> q -> sameUnit p q ->
                  cellAt board0 p <> "." -> cellAt board0 p <> "" ->
                  cellAt board0 p <> cellAt board0 q.
Proof.
  intros _. rewrite checkIllegalMove_spec. unfold conflictFree.
  split; intros H p q Hp Hq Hne Hs.
  - intros H1 H2. apply H; try assumption. now apply filled_true.
  - intros Hf. apply filled_true in Hf as [H1 H2]. now apply H.
Qed.

Lemma checkIllegalMove_empty_iff_no_repeat_witness :
  conflicts (checkIllegalMove fallbackBoard) = []
  <-> forall p q, inGrid p -> inGrid q -> p <> q -> sameUnit p q ->
                  cellAt fallbackBoard p <> "." -> cellAt fallbackBoard p <> "" ->
                  cellAt fallbackBoard p <> cellAt fallbackBoard q.
Proof. apply (checkIllegalMove_empty_iff_no_repeat fallbackBoard wf_fallbackBoard). Defined.

(** ** Every listed conflict is one *)

Lemma markRow_In (board : SudokuBoard) (row : nat) (value : string)
      (l : list nat) (acc : list (nat * nat)) (p : nat * nat) :
  In p (fold_left
          (fun conflicts c =>
             if (cell board row c =? value)%string then JS.push conflicts (row, c)
             else conflicts)
          l acc) ->
  In p acc \/ exists c, In c l /\ p = (row, c) /\ cell board row c = value.
Proof.
  revert acc. induction l as [|c l IH]; intros acc H; cbn [fold_left] in H.
  - now left.
  - apply IH in H as [H|(c' & Hc' & E & Hv)].
    + destruct (String.eqb_spec (cell board row c) value) as [Ev|]; [|now left].
      unfold JS.push in H. apply in_app_or in H as [H|[<-|[]]]; [now left|].
      right. exists c. split; [now left|]. split; [reflexivity|exact Ev].
    + right. exists c'. split; [now right|]. split; assumption.
Qed.

Lemma markCol_In (board : SudokuBoard) (col : nat) (value : string)
      (l : list nat) (acc : list (nat * nat)) (p : nat * nat) :
  In p (fold_left
          (fun conflicts r =>
             if (cell board r col =? value)%string then
               if negb (alreadyListed conflicts r col) then JS.push conflicts (r, col)
               else conflicts
             else conflicts)
          l acc) ->
  In p acc \/ exists r, In r l /\ p = (r, col) /\ cell board r col = value.
Proof.
  revert acc. induction l as [|r l IH]; intros acc H; cbn [fold_left] in H.
  - now left.
  - apply IH in H as [H|(r' & Hr' & E & Hv)].
    + destruct (String.eqb_spec (cell board r col) value) as [Ev|]; [|now left].
      destruct (negb (alreadyListed acc r col)); [|now left].
      unfold JS.push in H. apply in_app_or in H as [H|[<-|[]]]; [now left|].
      right. exists r. split; [now left|]. split; [reflexivity|exact Ev].
    + right. exists r'. split; [now right|]. split; assumption.
Qed.

Lemma scanRow_sound (board : SudokuBoard) (row : nat) (todo : list nat)
      (seen : gset string) (acc : list (nat * nat)) (p : nat * nat) :
  row < 9 -> List.NoDup todo -> (forall c, In c todo -> c < 9) ->
  (forall v, v ∈ seen -> exists c0, c0 < 9 /\ ~ In c0 todo /\ cell board row c0 = v) ->
  In p (scanRow board row todo seen acc) -> In p acc \/ inConflict board p.
Proof.
  intros Hrow. revert seen.
  induction todo as [|col rest IH]; intros seen Hnd Hlt Hseen H; cbn [scanRow] in H.
  - now left.
  - inversion Hnd as [|? ? Hnotin Hnd']; subst.
    assert (Hcol : col < 9) by (apply Hlt; now left).
    assert (Hlt' : forall c, In c rest -> c < 9) by (intros c Hc; apply Hlt; now right).
    destruct (filled (cell board row col)) eqn:Ef.
    + destruct (bool_decide (cell board row col ∈ seen)) eqn:Es.
      * apply bool_decide_eq_true in Es.
        destruct (Hseen _ Es) as (c0 & Hc0 & Hn0 & Ev0).
        apply markRow_In in H as [H|(c & Hc & -> & Ev)]; [now left|].
        right. apply in_indices in Hc.
        split; [split; assumption|].
        split; [unfold cellAt; cbn [fst snd]; rewrite Ev; exact Ef|].
        destruct (Nat.eq_dec c col) as [->|Hne].
        -- exists (row, c0). split; [split; assumption|].
           split; [intros [= E]; apply Hn0; left; symmetry; exact E|].
           split; [left; reflexivity|]. unfold cellAt; cbn [fst snd]. congruence.
        -- exists (row, col). split; [split; assumption|].
           split; [intros [= E]; apply Hne; symmetry; exact E|].
           split; [left; reflexivity|]. unfold cellAt; cbn [fst snd]. congruence.
      * apply (IH _ Hnd' Hlt') in H; [exact H|].
        intros v Hv. apply elem_of_union in Hv as [Hv|Hv].
        -- apply elem_of_singleton in Hv. subst v. exists col.
           split; [exact Hcol|]. split; [exact Hnotin|reflexivity].
        -- destruct (Hseen v Hv) as (c0 & Hc0 & Hn0 & Ev0). exists c0.
           split; [exact Hc0|]. split; [|exact Ev0]. intros Hin. apply Hn0. now right.
    + apply (IH _ Hnd' Hlt') in H; [exact H|].
      intros v Hv. destruct (Hseen v Hv) as (c0 & Hc0 & Hn0 & Ev0). exists c0.
      split; [exact Hc0|]. split; [|exact Ev0]. intros Hin. apply Hn0. now right.
Qed.

Lemma scanCol_sound (board : SudokuBoard) (col : nat) (todo : list nat)
      (seen : gset string) (acc : list (nat * nat)) (p : nat * nat) :
  col < 9 -> List.NoDup todo -> (forall r, In r todo -> r < 9) ->
  (forall v, v ∈ seen -> exists r0, r0 < 9 /\ ~ In r0 todo /\ cell board r0 col = v) ->
  In p (scanCol board col todo seen acc) -> In p acc \/ inConflict board p.
Proof.
  intros Hcol. revert seen.
  induction todo as [|row rest IH]; intros seen Hnd Hlt Hseen H; cbn [scanCol] in H.
  - now left.
  - inversion Hnd as [|? ? Hnotin Hnd']; subst.
    assert (Hrow : row < 9) by (apply Hlt; now left).
    assert (Hlt' : forall r, In r rest -> r < 9) by (intros r Hr; apply Hlt; now right).
    destruct (filled (cell board row col)) eqn:Ef.
    + destruct (bool_decide (cell board row col ∈ seen)) eqn:Es.
      * apply bool_decide_eq_true in Es.
        destruct (Hseen _ Es) as (r0 & Hr0 & Hn0 & Ev0).
        apply markCol_In in H as [H|(r & Hr & -> & Ev)]; [now left|].
        right. apply in_indices in Hr.
        split; [split; assumption|].
        split; [unfold cellAt; cbn [fst snd]; rewrite Ev; exact Ef|].
        destruct (Nat.eq_dec r row) as [->|Hne].
        -- exists (r0, col). split; [split; assumption|].
           split; [intros [= E]; apply Hn0; left; symmetry; exact E|].
           split; [right; left; reflexivity|]. unfold cellAt; cbn [fst snd]. congruence.
        -- exists (row, col). split; [split; assumption|].
           split; [intros [= E]; apply Hne; symmetry; exact E|].
           split; [right; left; reflexivity|]. unfold cellAt; cbn [fst snd]. congruence.
      * apply (IH _ Hnd' Hlt') in H; [exact H|].
        intros v Hv. apply elem_of_union in Hv as [Hv|Hv].
        -- apply elem_of_singleton in Hv. subst v. exists row.
           split; [exact Hrow|]. split; [exact Hnotin|reflexivity].
        -- destruct (Hseen v Hv) as (r0 & Hr0 & Hn0 & Ev0). exists r0.
           split; [exact Hr0|]. split; [|exact Ev0]. intros Hin. apply Hn0. now right.
    + apply (IH _ Hnd' Hlt') in H; [exact H|].
      intros v Hv. destruct (Hseen v Hv) as (r0 & Hr0 & Hn0 & Ev0). exists r0.
      split; [exact Hr0|]. split; [|exact Ev0]. intros Hin. apply Hn0. now right.
Qed.

Lemma scanBlock_sound (board : SudokuBoard) (u todo : list (nat * nat))
      (seen : gset string) (acc : list (nat * nat)) (p : nat * nat) :
  (forall a b, In a u -> In b u -> inGrid a /\ sameUnit a b) ->
  List.NoDup todo -> (forall a, In a todo -> In a u) ->
  (forall v, v ∈ seen -> exists q, In q u /\ ~ In q todo /\ cellAt board q = v) ->
  In p (scanBlock board todo seen acc) -> In p acc \/ inConflict board p.
Proof.
  intros Hu. revert seen acc.
  induction todo as [|[row col] rest IH]; intros seen acc Hnd Hsub Hseen H;
    cbn [scanBlock] in H.
  - now left.
  - inversion Hnd as [|? ? Hnotin Hnd']; subst.
    assert (Hin : In (row, col) u) by (apply Hsub; now left).
    assert (Hsub' : forall a, In a rest -> In a u) by (intros a Ha; apply Hsub; now right).
    assert (Hkeep : forall v, v ∈ seen ->
                              exists q, In q u /\ ~ In q rest /\ cellAt board q = v).
    { intros v Hv. destruct (Hseen v Hv) as (q & Hq & Hn & Ev). exists q.
      split; [exact Hq|]. split; [|exact Ev]. intros Hr. apply Hn. now right. }
    destruct (filled (cell board row col)) eqn:Ef.
    + destruct (bool_decide (cell board row col ∈ seen)) eqn:Es.
      * apply bool_decide_eq_true in Es.
        apply (IH _ _ Hnd' Hsub' Hkeep) in H as [H|H]; [|now right].
        unfold JS.push in H. apply in_app_or in H as [H|[<-|[]]]; [now left|].
        right. destruct (Hseen _ Es) as (q & Hq & Hn & Ev).
        split; [apply (Hu _ _ Hin Hin)|]. split; [exact Ef|].
        exists q. split; [apply (Hu _ _ Hq Hq)|].
        split; [intros ->; apply Hn; now left|].
        split; [apply (Hu _ _ Hin Hq)|exact Ev].
      * apply (IH _ _ Hnd' Hsub') in H; [exact H|].
        intros v Hv. apply elem_of_union in Hv as [Hv|Hv]; [|now apply Hkeep].
        apply elem_of_singleton in Hv. subst v. exists (row, col).
        split; [exact Hin|]. split; [exact Hnotin|reflexivity].
    + apply (IH _ _ Hnd' Hsub' Hkeep) in H. exact H.
Qed.

Section FoldSound.
Context {A P : Type} (scan : list P -> A -> list P) (good : P -> Prop) (dom : A -> Prop).
Hypothesis scan_sound :
  forall acc a p, dom a -> In p (scan acc a) -> In p acc \/ good p.

Lemma fold_scan_sound (l : list A) (acc : list P) (p : P) :
  (forall a, In a l -> dom a) -> In p (fold_left scan l acc) -> In p acc \/ good p.
Proof.
  revert acc. induction l as [|a l IH]; intros acc Hdom H; cbn [fold_left] in H.
  - now left.
  - apply IH in H as [H|H]; [|now right|intros b Hb; apply Hdom; now right].
    apply scan_sound in H; [exact H|apply Hdom; now left].
Qed.

End FoldSound.

Lemma NoDup_indices : List.NoDup indices.
Proof. apply seq_NoDup. Qed.

Lemma blockCells_unit (blockRow blockCol : nat) :
  In (blockRow, blockCol) blockOrder -> In (blockCells blockRow blockCol) units.
Proof.
  intros H. unfold units. apply in_or_app. right. apply in_or_app. right.
  apply in_map_iff. exists (blockRow, blockCol). split; [reflexivity|exact H].
Qed.

Lemma checkIllegalMove_sound (board : SudokuBoard) (p : nat * nat) :
  In p (conflicts (checkIllegalMove board)) -> inConflict board p.
Proof.
  unfold checkIllegalMove. cbn [conflicts]. unfold checkBlocks, checkCols, checkRows.
  intros H.
  apply (fold_scan_sound _ (inConflict board) (fun b => In b blockOrder)) in H.
  - destruct H as [H|H]; [|exact H].
    apply (fold_scan_sound _ (inConflict board) (fun c => c < 9)) in H.
    + destruct H as [H|H]; [|exact H].
      apply (fold_scan_sound _ (inConflict board) (fun r => r < 9)) in H.
      * destruct H as [[]|H]. exact H.
      * intros acc row q Hrow Hq.
        apply (scanRow_sound board row indices ∅ acc q Hrow NoDup_indices) in Hq;
          [exact Hq|intros c; apply in_indices|].
        intros v Hv. now apply not_elem_of_empty in Hv.
      * intros r. apply in_indices.
    + intros acc col q Hcol Hq.
      apply (scanCol_sound board col indices ∅ acc q Hcol NoDup_indices) in Hq;
        [exact Hq|intros r; apply in_indices|].
      intros v Hv. now apply not_elem_of_empty in Hv.
    + intros c. apply in_indices.
  - intros acc [blockRow blockCol] q Hb Hq.
    apply in_app_or in Hq as [Hq|Hq]; [now left|].
    pose proof (blockCells_unit blockRow blockCol Hb) as Hunit.
    apply (scanBlock_sound board (blockCells blockRow blockCol)) in Hq.
    + destruct Hq as [[]|Hq]. now right.
    + intros a b Ha Hb'. exact (units_sound _ a b Hunit Ha Hb').
    + exact (units_NoDup _ Hunit).
    + intros a Ha. exact Ha.
    + intros v Hv. now apply not_elem_of_empty in Hv.
  - intros b Hb. exact Hb.
Qed.

(** X6. Every position in the list [checkIllegalMove] returns is a cell
    of the grid that holds a value (neither "." nor the blank string)
    which another cell of its row, column or block holds as well. *)
Theorem reported_conflicts_are_real (board0 : SudokuBoard) (p : nat * nat) :
  wf_board board0 ->
  In p (conflicts (checkIllegalMove board0)) ->
  inGrid p /\ cellAt board0 p <> "." /\ cellAt board0 p <> ""
  /\ exists q, inGrid q /\ q <> p /\ sameUnit p q /\ cellAt board0 q = cellAt board0 p.
Proof.
  intros _ H. destruct (checkIllegalMove_sound board0 p H) as (Hp & Hf & Hq).
  apply filled_true in Hf as [H1 H2].
  split; [exact Hp|]. split; [exact H1|]. split; [exact H2|exact Hq].
Qed.

Lemma reported_conflicts_are_real_witness :
  inGrid (1, 1) /\ cellAt diagonalFives (1, 1) <> "." /\ cellAt diagonalFives (1, 1) <> ""
  /\ exists q, inGrid q /\ q <> (1, 1) /\ sameUnit (1, 1) q
                /\ cellAt diagonalFives q = cellAt diagonalFives (1, 1).
Proof.
  apply (reported_conflicts_are_real diagonalFives (1, 1) wf_diagonalFives).
  vm_compute. left. reflexivity.
Defined.

(** ** Completion checks *)

Lemma isCompleteAndValid_spec (board0 : SudokuBoard) :
  isCompleteAndValid board0 = true <-> full board0 /\ conflictFree notDot board0.
Proof.
  unfold isCompleteAndValid.
  destruct (existsb (fun '(i, j) => (cell board0 i j =? ".")%string) positions) eqn:E.
  - split; [discriminate|]. intros [Hfull _]. exfalso.
    apply existsb_exists in E as ([i j] & Hin & Hdot).
    apply in_positions in Hin. apply String.eqb_eq in Hdot.
    exact (Hfull (i, j) Hin Hdot).
  - rewrite isValidSudoku_spec. split; [|tauto]. intros H. split; [|exact H].
    intros [i j] Hp Hdot.
    assert (Ht : existsb (fun '(i, j) => (cell board0 i j =? ".")%string) positions = true);
      [|congruence].
    apply existsb_exists. exists (i, j). split; [now apply in_positions|].
    now apply String.eqb_eq.
Qed.

Lemma isDigit_notDot (v : string) : isDigit v -> v <> ".".
Proof.
  unfold isDigit. cbn [In]. intros H E. subst v.
  repeat (destruct H as [H|H]; [discriminate|]). exact H.
Qed.

Lemma solution_spec (board0 : SudokuBoard) :
  wf_board board0 -> plainBoard board0 ->
  solution board0 <-> full board0 /\ conflictFree notDot board0.
Proof.
  intros Hwf Hplain. split.
  - intros (_ & Hdig & Hpeers). split.
    + intros p Hp. apply isDigit_notDot, Hdig, Hp.
    + intros p q Hp Hq Hne Hs _. apply Hpeers; [exact Hp|exact Hq|]. split; assumption.
  - intros [Hfull Hfree]. split; [exact Hwf|]. split.
    + intros p Hp. destruct (Hplain p Hp) as [Hdot|Hd]; [|exact Hd].
      exfalso. exact (Hfull p Hp Hdot).
    + intros p q Hp Hq [Hne Hs]. apply Hfree; try assumption.
      apply notDot_true. apply Hfull, Hp.
Qed.

(** X7. [isCompleteAndValid] returns [true] exactly when no cell holds
    "." and no value is repeated in a row, column or block; on a board
    of digits and "." that is exactly when the board is a complete,
    constraint-satisfying assignment. *)
Theorem isCompleteAndValid_iff_solution (board0 : SudokuBoard) :
  wf_board board0 ->
  (isCompleteAndValid board0 = true
   <-> (forall p, inGrid p -> cellAt board0 p <> ".")
       /\ (forall p q, inGrid p -> inGrid q -> p <> q -> sameUnit p q ->
                        cellAt board0 p <> cellAt board0 q))
  /\ (plainBoard board0 -> (isCompleteAndValid board0 = true <-> solution board0)).
Proof.
  intros Hwf. split.
  - rewrite isCompleteAndValid_spec. unfold full, conflictFree. split.
    + intros [Hfull Hfree]. split; [exact Hfull|].
      intros p q Hp Hq Hne Hs. apply Hfree; try assumption.
      apply notDot_true, Hfull, Hp.
    + intros [Hfull Hfree]. split; [exact Hfull|].
      intros p q Hp Hq Hne Hs _. now apply Hfree.
  - intros Hplain. rewrite isCompleteAndValid_spec.
    symmetry. now apply solution_spec.
Qed.

Lemma plain_fallbackSolved : plainBoard fallbackSolved.
Proof. apply plainBoardb_spec. vm_compute. reflexivity. Qed.

Lemma isCompleteAndValid_iff_solution_witness :
  (isCompleteAndValid fallbackSolved = true
   <-> (forall p, inGrid p -> cellAt fallbackSolved p <> ".")
       /\ (forall p q, inGrid p -> inGrid q -> p <> q -> sameUnit p q ->
                        cellAt fallbackSolved p <> cellAt fallbackSolved q))
  /\ (plainBoard fallbackSolved ->
      (isCompleteAndValid fallbackSolved = true <-> solution fallbackSolved)).
Proof. apply (isCompleteAndValid_iff_solution fallbackSolved wf_fallbackSolved). Defined.

Lemma checkCompletion_spec (board0 : SudokuBoard) :
  checkCompletion board0 = true
  <-> (forall p, inGrid p -> ~ blank (cellAt board0 p)) /\ conflictFree filled board0.
Proof.
  rewrite <- checkIllegalMove_spec. unfold checkCompletion.
  generalize (conflicts (checkIllegalMove board0)). intros l.
  destruct (existsb _ indices) eqn:E.
  - split; [discriminate|]. intros [Hall _]. exfalso.
    apply existsb_exists in E as (r & Hr & E).
    apply existsb_exists in E as (c & Hc & E).
    apply in_indices in Hr, Hc. apply (Hall (r, c)); [split; assumption|].
    apply orb_true_iff in E. unfold blank, cellAt. cbn [fst snd].
    destruct E as [H|H]; [left|right]; now apply String.eqb_eq.
  - rewrite Nat.eqb_eq. split.
    + intros Hl. split; [|now destruct l].
      intros [r c] [Hr Hc] Hblank. cbn [fst snd] in Hr, Hc.
      assert (Ht : existsb (fun row =>
                       existsb (fun col => (cell board0 row col =? ".")%string
                                           || (cell board0 row col =? "")%string) indices)
                    indices = true); [|congruence].
      apply existsb_exists. exists r. split; [now apply in_indices|].
      apply existsb_exists. exists c. split; [now apply in_indices|].
      apply orb_true_iff. unfold blank, cellAt in Hblank. cbn [fst snd] in Hblank.
      destruct Hblank as [H|H]; [left|right]; now apply String.eqb_eq.
    + intros [_ ->]. reflexivity.
Qed.

(** C5. [checkCompletion] returns [true] exactly when no cell is empty
    (none holds "." or the blank string) and [checkIllegalMove] reports
    no conflict, which on such a board means that no two cells of a row,
    a column or a block hold the same value; a board that is filled
    completely but holds a value twice in a unit has conflicts reported
    and yields [false]. *)
Theorem checkCompletion_iff (board0 : SudokuBoard) :
  wf_board board0 ->
  (checkCompletion board0 = true
   <-> (forall p, inGrid p -> ~ blank (cellAt board0 p))
       /\ conflicts (checkIllegalMove board0) = [])
  /\ (checkCompletion board0 = true
      <-> (forall p, inGrid p -> ~ blank (cellAt board0 p))
          /\ forall p q, inGrid p -> inGrid q -> p <> q -> sameUnit p q ->
                         cellAt board0 p <> cellAt board0 q)
  /\ (forall p q, (forall r, inGrid r -> ~ blank (cellAt board0 r)) ->
                  inGrid p -> inGrid q -> p <> q -> sameUnit p q ->
                  cellAt board0 p = cellAt board0 q ->
                  conflicts (checkIllegalMove board0) <> []
                  /\ checkCompletion board0 = false).
Proof.
  intros _.
  assert (Hfilled : (forall p, inGrid p -> ~ blank (cellAt board0 p)) ->
                    forall p, inGrid p -> filled (cellAt board0 p) = true).
  { intros Hall p Hp. apply filled_true. specialize (Hall p Hp). unfold blank in Hall.
    tauto. }
  assert (Hsem : checkCompletion board0 = true
      <-> (forall p, inGrid p -> ~ blank (cellAt board0 p))
          /\ forall p q, inGrid p -> inGrid q -> p <> q -> sameUnit p q ->
                         cellAt board0 p <> cellAt board0 q).
  { rewrite checkCompletion_spec. split; intros [Hall Hfree]; (split; [exact Hall|]).
    - intros p q Hp Hq Hne Hu. apply Hfree; try assumption. now apply Hfilled.
    - intros p q Hp Hq Hne Hu _. now apply Hfree. }
  split; [|split].
  - rewrite checkIllegalMove_spec. apply checkCompletion_spec.
  - exact Hsem.
  - intros p q Hall Hp Hq Hne Hu Heq. split.
    + intros Hnil. apply checkIllegalMove_spec in Hnil.
      apply (Hnil p q Hp Hq Hne Hu); [now apply Hfilled|exact Heq].
    + apply not_true_is_false. intros Ht. apply Hsem in Ht as [_ Hfree].
      exact (Hfree p q Hp Hq Hne Hu Heq).
Qed.

Lemma wf_doubledFiveFilled : wf_board doubledFiveFilled.
Proof. apply wf_boardb_spec. reflexivity. Qed.

Lemma doubledFiveFilled_full (r : nat * nat) :
  inGrid r -> ~ blank (cellAt doubledFiveFilled r).
Proof.
  intros Hr Hblank.
  assert (Hall : forallb (fun p => filled (cellAt doubledFiveFilled p)) positions = true)
    by (vm_compute; reflexivity).
  rewrite forallb_forall in Hall. specialize (Hall r (proj2 (in_positions r) Hr)).
  apply filled_true in Hall. unfold blank in Hblank. tauto.
Qed.

(** A full board with a conflict: [doubledFiveFilled] has no empty
    cell and holds 5 at (0, 0) and at (0, 2), in the same row. *)
Lemma checkCompletion_iff_witness :
  conflicts (checkIllegalMove doubledFiveFilled) <> []
  /\ checkCompletion doubledFiveFilled = false.
Proof.
  destruct (checkCompletion_iff doubledFiveFilled wf_doubledFiveFilled) as (_ & _ & H).
  apply (H (0, 0) (0, 2) doubledFiveFilled_full).
  - split; cbn [fst snd]; lia.
  - split; cbn [fst snd]; lia.
  - discriminate.
  - left. reflexivity.
  - reflexivity.
Defined.

Lemma plain_not_blank (v : string) : plainCell v -> (~ blank v <-> v <> ".").
Proof.
  intros Hv. unfold blank. split; [tauto|]. intros Hne [H|H]; [tauto|].
  subst v. destruct Hv as [H|H]; [discriminate|].
  unfold isDigit in H. cbn [In] in H.
  repeat (destruct H as [H|H]; [discriminate|]). exact H.
Qed.

Lemma conflictFree_plain (board0 : SudokuBoard) :
  plainBoard board0 -> (conflictFree filled board0 <-> conflictFree notDot board0).
Proof.
  intros Hplain. unfold conflictFree.
  split; intros H p q Hp Hq Hne Hs Hf; apply H; try assumption.
  - now rewrite (plainCell_fill _ (Hplain p Hp)).
  - now rewrite <- (plainCell_fill _ (Hplain p Hp)).
Qed.

Lemma completion_checks_agree_plain (board0 : SudokuBoard) :
  plainBoard board0 -> checkCompletion board0 = isCompleteAndValid board0.
Proof.
  intros Hplain. apply eq_true_iff_eq.
  rewrite checkCompletion_spec, isCompleteAndValid_spec, (conflictFree_plain _ Hplain).
  unfold full. split; intros [Hall Hfree]; (split; [|exact Hfree]); intros p Hp.
  - apply (plain_not_blank _ (Hplain p Hp)), Hall, Hp.
  - apply (plain_not_blank _ (Hplain p Hp)), Hall, Hp.
Qed.

(** X8. On a board of digits and "." the completion check of utils.ts
    and the one of the solver module give the same answer. *)
Theorem completion_checks_agree (board0 : SudokuBoard) :
  wf_board board0 -> plainBoard board0 ->
  checkCompletion board0 = isCompleteAndValid board0.
Proof. intros _. apply completion_checks_agree_plain. Qed.

Lemma completion_checks_agree_witness :
  checkCompletion fallbackBoard = isCompleteAndValid fallbackBoard.
Proof.
  apply (completion_checks_agree fallbackBoard wf_fallbackBoard plain_fallbackBoard).
Defined.

Lemma solution_plain (board0 : SudokuBoard) : solution board0 -> plainBoard board0.
Proof. intros (_ & Hdig & _) p Hp. right. apply Hdig, Hp. Qed.

(** X9. When [solve] returns [true] on a board whose filled cells are
    digits that do not conflict, the board it leaves passes every
    check of the program: [isValidSudoku], [isCompleteAndValid] and
    [checkCompletion] return [true] on it, and [checkIllegalMove] lists
    no conflict. *)
Theorem solved_board_passes_checks (this : SudokuSolver) (board0 : SudokuBoard)
        (s : State) :
  shaped this -> wf_board board0 -> plainBoard board0 -> isValidSudoku board0 = true ->
  solve this board0 = Some (true, s) ->
  isValidSudoku (board s) = true
  /\ isCompleteAndValid (board s) = true
  /\ conflicts (checkIllegalMove (board s)) = []
  /\ checkCompletion (board s) = true.
Proof.
  intros _ Hwf Hplain Hvalid H. apply isValidSudoku_spec in Hvalid.
  destruct (solve_sound this board0 s Hwf Hplain Hvalid H) as [Hsol _].
  pose proof (solution_plain _ Hsol) as Hplain'.
  pose proof Hsol as (Hwf' & _ & _).
  apply (solution_spec _ Hwf' Hplain') in Hsol as [Hfull Hfree].
  assert (Hcomplete : isCompleteAndValid (board s) = true)
    by (apply isCompleteAndValid_spec; split; assumption).
  split; [now apply isValidSudoku_spec|]. split; [exact Hcomplete|].
  split; [apply checkIllegalMove_spec; now apply conflictFree_plain|].
  rewrite (completion_checks_agree_plain (board s) Hplain'). exact Hcomplete.
Qed.

Lemma solved_board_passes_checks_witness :
  exists s, solve new fallbackBoard = Some (true, s)
            /\ isValidSudoku (board s) = true
            /\ isCompleteAndValid (board s) = true
            /\ conflicts (checkIllegalMove (board s)) = []
            /\ checkCompletion (board s) = true.
Proof.
  destruct solve_new_fallback as (s & E & _). exists s. split; [exact E|].
  apply (solved_board_passes_checks new fallbackBoard s shaped_new wf_fallbackBoard
           plain_fallbackBoard); [vm_compute; reflexivity|exact E].
Defined.

(** ** Conflicts outlive the search *)

Lemma clash_survives (board0 board' : SudokuBoard) :
  fillsIn board0 board' -> conflictFree notDot board' -> conflictFree notDot board0.
Proof.
  intros Hfill Hfree p q Hp Hq Hne Hs Hf E.
  apply notDot_true in Hf.
  assert (Hq' : cellAt board0 q <> ".") by congruence.
  destruct (Hfill p Hp) as [Hkp _]. destruct (Hfill q Hq) as [Hkq _].
  apply (Hfree p q Hp Hq Hne Hs).
  - apply notDot_true. rewrite (Hkp Hf). exact Hf.
  - rewrite (Hkp Hf), (Hkq Hq'). exact E.
Qed.

(** X10. A board on which [isValidSudoku] returns [false] has no
    solution, and when [solve] returns [true] on it all the same, the
    board it leaves fails [isValidSudoku] and [isCompleteAndValid]. *)
Theorem solve_keeps_conflicts (this : SudokuSolver) (board0 : SudokuBoard) :
  shaped this -> wf_board board0 -> isValidSudoku board0 = false ->
  unsolvable board0
  /\ forall s, solve this board0 = Some (true, s) ->
                isValidSudoku (board s) = false /\ isCompleteAndValid (board s) = false.
Proof.
  intros Hshaped Hwf Hinvalid.
  assert (Hclash : ~ conflictFree notDot board0).
  { intros H. apply isValidSudoku_spec in H. congruence. }
  split.
  - intros board' Hcomp (_ & Hdig & Hpeers). apply Hclash.
    intros p q Hp Hq Hne Hs Hf E. apply notDot_true in Hf.
    assert (Hq' : cellAt board0 q <> ".") by congruence.
    apply (Hpeers p q Hp Hq); [split; assumption|].
    rewrite (Hcomp p Hp Hf), (Hcomp q Hq Hq'). exact E.
  - intros s H.
    destruct (solve_fills this board0 s Hwf H) as (_ & _ & Hfill).
    assert (Hv : isValidSudoku (board s) = false).
    { apply not_true_is_false. intros Hv. apply isValidSudoku_spec in Hv.
      apply Hclash. exact (clash_survives _ _ Hfill Hv). }
    split; [exact Hv|]. unfold isCompleteAndValid.
    destruct (existsb _ positions); [reflexivity|exact Hv].
Qed.

Lemma solve_keeps_conflicts_witness :
  unsolvable doubledFive
  /\ forall s, solve new doubledFive = Some (true, s) ->
                isValidSudoku (board s) = false /\ isCompleteAndValid (board s) = false.
Proof.
  apply (solve_keeps_conflicts new doubledFive shaped_new);
    [apply wf_boardb_spec; reflexivity|vm_compute; reflexivity].
Defined.

(** ** How [compareBoards] sorts the cells *)

Lemma compareLoop_filters (currentBoard solvedBoard : SudokuBoard)
      (ps : list (nat * nat)) (t : Tally) :
  fold_left (compareCell currentBoard solvedBoard) ps t
  = mkTally (correct t ++ List.filter (correctb currentBoard solvedBoard) ps)
            (incorrect t ++ List.filter (incorrectb currentBoard solvedBoard) ps)
            (empty t ++ List.filter (emptyb currentBoard) ps)
            (totalFilledCells t
             + length (List.filter (fun p => negb (emptyb currentBoard p)) ps)).
Proof.
  revert t. induction ps as [|[i j] ps IH]; intros [c w e n]; cbn [fold_left List.filter].
  - cbn [correct incorrect empty totalFilledCells length]. rewrite !app_nil_r.
    f_equal. lia.
  - rewrite IH. unfold compareCell, correctb, incorrectb, emptyb, cellAt. cbn [fst snd].
    destruct (cell currentBoard i j =? ".")%string;
      [|destruct (cell currentBoard i j =? cell solvedBoard i j)%string];
      cbn [correct incorrect empty totalFilledCells negb andb length];
      unfold JS.push; rewrite <- ?List.app_assoc; cbn [app]; f_equal; lia.
Qed.

Lemma compareLoop_eq (currentBoard solvedBoard : SudokuBoard) :
  compareLoop currentBoard solvedBoard
  = mkTally (List.filter (correctb currentBoard solvedBoard) positions)
            (List.filter (incorrectb currentBoard solvedBoard) positions)
            (List.filter (emptyb currentBoard) positions)
            (length (List.filter (fun p => negb (emptyb currentBoard p)) positions)).
Proof. unfold compareLoop. now rewrite compareLoop_filters. Qed.

Lemma filter_three_lengths {A : Type} (a b c : A -> bool) (l : list A) :
  (forall x, (a x = true /\ b x = false /\ c x = false)
             \/ (a x = false /\ b x = true /\ c x = false)
             \/ (a x = false /\ b x = false /\ c x = true)) ->
  length (List.filter a l) + length (List.filter b l) + length (List.filter c l)
  = length l.
Proof.
  intros H. induction l as [|x l IH]; [reflexivity|]. cbn [List.filter length].
  destruct (H x) as [(-> & -> & ->)|[(-> & -> & ->)|(-> & -> & ->)]];
    cbn [length]; lia.
Qed.

Lemma sorted_cases (currentBoard solvedBoard : SudokuBoard) (p : nat * nat) :
  (correctb currentBoard solvedBoard p = true
   /\ incorrectb currentBoard solvedBoard p = false /\ emptyb currentBoard p = false)
  \/ (correctb currentBoard solvedBoard p = false
      /\ incorrectb currentBoard solvedBoard p = true /\ emptyb currentBoard p = false)
  \/ (correctb currentBoard solvedBoard p = false
      /\ incorrectb currentBoard solvedBoard p = false /\ emptyb currentBoard p = true).
Proof.
  unfold correctb, incorrectb.
  destruct (emptyb currentBoard p),
    (cellAt currentBoard p =? cellAt solvedBoard p)%string; cbn; tauto.
Qed.

Lemma emptyb_true (currentBoard : SudokuBoard) (p : nat * nat) :
  emptyb currentBoard p = true <-> cellAt currentBoard p = ".".
Proof. unfold emptyb. apply String.eqb_eq. Qed.

Lemma correctb_true (currentBoard solvedBoard : SudokuBoard) (p : nat * nat) :
  correctb currentBoard solvedBoard p = true
  <-> cellAt currentBoard p <> "." /\ cellAt currentBoard p = cellAt solvedBoard p.
Proof.
  unfold correctb, emptyb. rewrite andb_true_iff, negb_true_iff, String.eqb_eq.
  destruct (String.eqb_spec (cellAt currentBoard p) "."); split;
    try tauto; intros [? ?]; try congruence; tauto.
Qed.

Lemma incorrectb_true (currentBoard solvedBoard : SudokuBoard) (p : nat * nat) :
  incorrectb currentBoard solvedBoard p = true
  <-> cellAt currentBoard p <> "." /\ cellAt currentBoard p <> cellAt solvedBoard p.
Proof.
  unfold incorrectb, emptyb. rewrite andb_true_iff, !negb_true_iff.
  destruct (String.eqb_spec (cellAt currentBoard p) "."),
    (String.eqb_spec (cellAt currentBoard p) (cellAt solvedBoard p)); split;
    try tauto; intros [? ?]; try congruence; tauto.
Qed.

Lemma compareBoards_lists (currentBoard solvedBoard : SudokuBoard) (p : nat * nat) :
  (In p (emptyCells (compareBoards currentBoard solvedBoard))
   <-> inGrid p /\ cellAt currentBoard p = ".")
  /\ (In p (correctCells (compareBoards currentBoard solvedBoard))
      <-> inGrid p /\ cellAt currentBoard p <> "."
          /\ cellAt currentBoard p = cellAt solvedBoard p)
  /\ (In p (incorrectCells (compareBoards currentBoard solvedBoard))
      <-> inGrid p /\ cellAt currentBoard p <> "."
          /\ cellAt currentBoard p <> cellAt solvedBoard p).
Proof.
  unfold compareBoards. cbn [emptyCells correctCells incorrectCells].
  rewrite compareLoop_eq. cbn [correct incorrect empty].
  pose proof in_positions as Hin. revert Hin. generalize positions. intros ps Hin.
  split; [|split].
  - rewrite filter_In, Hin, emptyb_true. reflexivity.
  - rewrite filter_In, Hin, correctb_true. reflexivity.
  - rewrite filter_In, Hin, incorrectb_true. reflexivity.
Qed.

(** X11. [compareBoards] sorts the 81 cells into its three lists, each
    cell into exactly one and listed once: [emptyCells] holds the cells
    with ".", [correctCells] the other cells equal to the solved board,
    [incorrectCells] the other cells that differ from it (a cell with a
    blank string among them). *)
Theorem compareBoards_partitions (currentBoard solvedBoard : SudokuBoard) :
  wf_board currentBoard -> wf_board solvedBoard ->
  let r := compareBoards currentBoard solvedBoard in
  (forall p, In p (emptyCells r) <-> inGrid p /\ cellAt currentBoard p = ".")
  /\ (forall p, In p (correctCells r)
                 <-> inGrid p /\ cellAt currentBoard p <> "."
                     /\ cellAt currentBoard p = cellAt solvedBoard p)
  /\ (forall p, In p (incorrectCells r)
                 <-> inGrid p /\ cellAt currentBoard p <> "."
                     /\ cellAt currentBoard p <> cellAt solvedBoard p)
  /\ List.NoDup (emptyCells r) /\ List.NoDup (correctCells r)
  /\ List.NoDup (incorrectCells r)
  /\ length (correctCells r) + length (incorrectCells r) + length (emptyCells r) = 81.
Proof.
  intros _ _. cbv zeta. unfold compareBoards.
  cbn [emptyCells correctCells incorrectCells].
  rewrite compareLoop_eq. cbn [correct incorrect empty].
  pose proof NoDup_positions as Hnd. pose proof length_positions as Hlen.
  pose proof in_positions as Hin. revert Hnd Hlen Hin. generalize positions.
  intros ps Hnd Hlen Hin.
  split; [|split; [|split; [|split; [|split; [|split]]]]].
  - intros p. rewrite filter_In, Hin, emptyb_true. reflexivity.
  - intros p. rewrite filter_In, Hin, correctb_true. reflexivity.
  - intros p. rewrite filter_In, Hin, incorrectb_true. reflexivity.
  - now apply List.NoDup_filter.
  - now apply List.NoDup_filter.
  - now apply List.NoDup_filter.
  - rewrite <- Hlen. apply filter_three_lengths. apply sorted_cases.
Qed.

Lemma compareBoards_partitions_witness :
  let r := compareBoards fallbackBoard fallbackSolved in
  (forall p, In p (emptyCells r) <-> inGrid p /\ cellAt fallbackBoard p = ".")
  /\ (forall p, In p (correctCells r)
                 <-> inGrid p /\ cellAt fallbackBoard p <> "."
                     /\ cellAt fallbackBoard p = cellAt fallbackSolved p)
  /\ (forall p, In p (incorrectCells r)
                 <-> inGrid p /\ cellAt fallbackBoard p <> "."
                     /\ cellAt fallbackBoard p <> cellAt fallbackSolved p)
  /\ List.NoDup (emptyCells r) /\ List.NoDup (correctCells r)
  /\ List.NoDup (incorrectCells r)
  /\ length (correctCells r) + length (incorrectCells r) + length (emptyCells r) = 81.
Proof.
  apply (compareBoards_partitions fallbackBoard fallbackSolved wf_fallbackBoard
           wf_fallbackSolved).
Defined.

(** ** The accuracy figure at its ends *)

Lemma extremes_table :
  allUpTo (fun filled =>
             allUpTo (fun correct =>
                        extremesOk (roundTwoPlaces (percentage correct filled))
                                   correct filled = true)
                     filled)
          81.
Proof. vm_compute. repeat split. Qed.

Lemma all_correct_table :
  allUpTo (fun n => roundTwoPlaces (percentage (S n) (S n)) = 100%float) 80.
Proof. vm_compute. repeat split. Qed.

Lemma none_correct_table :
  allUpTo (fun filled => roundTwoPlaces (percentage 0 filled) = 0%float) 81.
Proof. vm_compute. repeat split. Qed.

Lemma accuracy_extremes (correct filled : nat) :
  correct <= filled -> filled <= 81 ->
  (roundTwoPlaces (percentage correct filled) = 100%float
   <-> correct = filled /\ 0 < filled)
  /\ (roundTwoPlaces (percentage correct filled) = 0%float <-> correct = 0).
Proof.
  intros Hc Hf.
  pose proof (allUpTo_spec _ _ (allUpTo_spec _ _ extremes_table filled Hf) correct Hc)
    as Hx.
  unfold extremesOk in Hx. apply andb_true_iff in Hx as [H100 H0].
  split; split.
  - intros E. rewrite E in H100.
    change (PrimFloat.eqb 100 100) with true in H100. cbn [implb] in H100.
    apply andb_true_iff in H100 as [H1 H2].
    apply Nat.eqb_eq in H1. apply Nat.ltb_lt in H2. split; assumption.
  - intros [-> Hpos]. destruct filled as [|n]; [lia|].
    apply (allUpTo_spec _ _ all_correct_table n). lia.
  - intros E. rewrite E in H0.
    change (PrimFloat.eqb 0 0) with true in H0. cbn [implb] in H0.
    now apply Nat.eqb_eq in H0.
  - intros ->. apply (allUpTo_spec _ _ none_correct_table filled Hf).
Qed.

(** X12. The accuracy [compareBoards] reports is 100 exactly when some
    cell is filled and no filled cell is incorrect, and 0 exactly when
    no cell is correct. *)
Theorem compareBoards_accuracy_extremes (currentBoard solvedBoard : SudokuBoard) :
  wf_board currentBoard -> wf_board solvedBoard ->
  let r := compareBoards currentBoard solvedBoard in
  (accuracy r = 100%float <-> incorrectCells r = [] /\ correctCells r <> [])
  /\ (accuracy r = 0%float <-> correctCells r = []).
Proof.
  intros _ _. cbv zeta.
  destruct (compareLoop_total currentBoard solvedBoard) as [H1 H2].
  unfold compareBoards. cbn [accuracy correctCells incorrectCells].
  revert H1 H2. generalize (compareLoop currentBoard solvedBoard). intros [c w e n].
  cbn [correct incorrect totalFilledCells]. intros H1 H2.
  destruct (accuracy_extremes (length c) n) as [E100 E0]; [lia|lia|].
  rewrite E100, E0. split.
  - split.
    + intros [E Hpos]. destruct w; [|cbn [length] in H1; lia].
      split; [reflexivity|]. intros ->. cbn [length] in E. lia.
    + intros [-> Hc]. cbn [length] in H1. split; [lia|].
      destruct c; [contradiction|cbn [length] in H1; lia].
  - split; [intros E; now destruct c|intros ->; reflexivity].
Qed.

Lemma compareBoards_accuracy_extremes_witness :
  let r := compareBoards fallbackBoard fallbackSolved in
  (accuracy r = 100%float <-> incorrectCells r = [] /\ correctCells r <> [])
  /\ (accuracy r = 0%float <-> correctCells r = []).
Proof.
  apply (compareBoards_accuracy_extremes fallbackBoard fallbackSolved wf_fallbackBoard
           wf_fallbackSolved).
Defined.

(** ** The counters of [getValidationStats] *)

Lemma triple_eq (a b c a' b' c' : nat) :
  a = a' -> b = b' -> c = c' -> (a, b, c) = (a', b', c').
Proof. congruence. Qed.

Lemma countLoop_filters (currentBoard solvedBoard : SudokuBoard)
      (originalCells : GivenMask) (ps : list (nat * nat)) (f c o : nat) :
  fold_left (countCell currentBoard solvedBoard originalCells) ps (f, c, o)
  = (f + length (List.filter (enteredb currentBoard originalCells) ps),
     c + length (List.filter (enteredRightb currentBoard solvedBoard originalCells) ps),
     o + length (List.filter (givenb originalCells) ps)).
Proof.
  revert f c o. induction ps as [|[i j] ps IH]; intros f c o;
    cbn [fold_left List.filter].
  - cbn [length]. rewrite !Nat.add_0_r. reflexivity.
  - unfold countCell at 2. unfold enteredRightb, enteredb, givenb, emptyb, cellAt.
    cbn [fst snd].
    destruct (given originalCells i j); cbn [negb andb]; [rewrite IH|].
    + unfold enteredRightb, enteredb, givenb, emptyb, cellAt.
      cbn [length]. apply triple_eq; lia.
    + destruct (cell currentBoard i j =? ".")%string; cbn [negb andb];
        [|destruct (cell currentBoard i j =? cell solvedBoard i j)%string];
        rewrite IH; unfold enteredRightb, enteredb, givenb, emptyb, cellAt;
        cbn [length]; apply triple_eq; lia.
Qed.

Lemma countLoop_eq (currentBoard solvedBoard : SudokuBoard) (originalCells : GivenMask) :
  countLoop currentBoard solvedBoard originalCells
  = (countCells (enteredb currentBoard originalCells),
     countCells (enteredRightb currentBoard solvedBoard originalCells),
     countCells (givenb originalCells)).
Proof. unfold countLoop. rewrite countLoop_filters. reflexivity. Qed.

Lemma stats_fields (currentBoard solvedBoard : SudokuBoard) (originalCells : GivenMask) :
  getValidationStats currentBoard solvedBoard originalCells
  = let entered := countCells (enteredb currentBoard originalCells) in
    let right := countCells (enteredRightb currentBoard solvedBoard originalCells) in
    let original := countCells (givenb originalCells) in
    mkStats 81 entered right (entered - right) original
            (roundTwoPlaces (percentage right entered))
            (entered + original =? 81)
            (isValidSudoku currentBoard && (entered - right =? 0)).
Proof. unfold getValidationStats. rewrite countLoop_eq. reflexivity. Qed.

Section Counting.
Context {A : Type}.

Lemma filter_length_le (a : A -> bool) (l : list A) :
  length (List.filter a l) <= length l.
Proof.
  induction l as [|x l IH]; [reflexivity|]. cbn [List.filter].
  destruct (a x); cbn [length]; lia.
Qed.

Lemma filter_and_le (a b : A -> bool) (l : list A) :
  length (List.filter (fun x => a x && b x) l) <= length (List.filter a l).
Proof.
  induction l as [|x l IH]; [reflexivity|]. cbn [List.filter].
  destruct (a x), (b x); cbn [andb length]; lia.
Qed.

Lemma filter_split (a b : A -> bool) (l : list A) :
  length (List.filter (fun x => a x && b x) l)
  + length (List.filter (fun x => a x && negb (b x)) l)
  = length (List.filter a l).
Proof.
  induction l as [|x l IH]; [reflexivity|]. cbn [List.filter].
  destruct (a x), (b x); cbn [andb negb length]; lia.
Qed.

Lemma filter_all (a : A -> bool) (l : list A) :
  length (List.filter a l) = length l <-> forall x, In x l -> a x = true.
Proof.
  induction l as [|x l IH]; cbn [List.filter length].
  - split; [intros _ x []|reflexivity].
  - pose proof (filter_length_le a l) as Hle. destruct (a x) eqn:E; cbn [length].
    + split.
      * intros H y [<-|Hy]; [exact E|]. apply IH; [lia|exact Hy].
      * intros H. f_equal. apply IH. intros y Hy. apply H. now right.
    + split; [lia|]. intros H. specialize (H x (or_introl eq_refl)). congruence.
Qed.

Lemma filter_and_all (a b : A -> bool) (l : list A) :
  length (List.filter (fun x => a x && b x) l) = length (List.filter a l)
  <-> forall x, In x l -> a x = true -> b x = true.
Proof.
  induction l as [|x l IH]; cbn [List.filter length].
  - split; [intros _ x []|reflexivity].
  - pose proof (filter_and_le a b l) as Hle.
    destruct (a x) eqn:Ea, (b x) eqn:Eb; cbn [andb length].
    + split.
      * intros H y [<-|Hy] Hay; [exact Eb|]. apply IH; [lia|exact Hy|exact Hay].
      * intros H. f_equal. apply IH. intros y Hy. apply H. now right.
    + split; [lia|]. intros H. specialize (H x (or_introl eq_refl) Ea). congruence.
    + rewrite IH. split.
      * intros H y [<-|Hy] Hay; [congruence|]. now apply H.
      * intros H y Hy. apply H. now right.
    + rewrite IH. split.
      * intros H y [<-|Hy] Hay; [congruence|]. now apply H.
      * intros H y Hy. apply H. now right.
Qed.

Lemma filter_disjoint_le (a b : A -> bool) (l : list A) :
  (forall x, a x = true -> b x = false) ->
  length (List.filter a l) + length (List.filter b l) <= length l.
Proof.
  intros Hdis. induction l as [|y l IHl]; [reflexivity|]. cbn [List.filter].
  destruct (a y) eqn:Ea; [rewrite (Hdis y Ea)|destruct (b y)]; cbn [length]; lia.
Qed.

Lemma filter_two_all (a b : A -> bool) (l : list A) :
  (forall x, a x = true -> b x = false) ->
  length (List.filter a l) + length (List.filter b l) = length l
  <-> forall x, In x l -> a x = true \/ b x = true.
Proof.
  intros Hdis. induction l as [|x l IH]; cbn [List.filter length].
  - split; [intros _ x []|reflexivity].
  - pose proof (filter_disjoint_le a b l Hdis) as Hle.
    destruct (a x) eqn:Ea; [rewrite (Hdis x Ea)|destruct (b x) eqn:Eb]; cbn [length].
    + split.
      * intros H y [<-|Hy]; [now left|]. apply IH; [lia|exact Hy].
      * intros H. assert (E : length (List.filter a l) + length (List.filter b l)
                              = length l); [|lia].
        apply IH. intros y Hy. apply H. now right.
    + split.
      * intros H y [<-|Hy]; [now right|]. apply IH; [lia|exact Hy].
      * intros H. assert (E : length (List.filter a l) + length (List.filter b l)
                              = length l); [|lia].
        apply IH. intros y Hy. apply H. now right.
    + split; [lia|]. intros H.
      destruct (H x (or_introl eq_refl)); congruence.
Qed.

End Counting.

Lemma entered_not_given (currentBoard : SudokuBoard) (originalCells : GivenMask)
      (p : nat * nat) :
  enteredb currentBoard originalCells p = true -> givenb originalCells p = false.
Proof.
  unfold enteredb. intros H. apply andb_true_iff in H as [H _].
  now apply negb_true_iff in H.
Qed.

(** X13. The counters of [getValidationStats]: the given cells are
    counted by the mask alone, the filled cells are the cells not given
    that hold something other than ".", the correct ones those among
    them equal to the solved board and the incorrect ones the rest; so
    correct and incorrect add up to filled, and filled and given never
    exceed the 81 cells. *)
Theorem validation_stats_counts (currentBoard solvedBoard : SudokuBoard)
        (originalCells : GivenMask) :
  wf_board currentBoard -> wf_board solvedBoard -> wf_mask originalCells ->
  let st := getValidationStats currentBoard solvedBoard originalCells in
  totalCells st = 81
  /\ originalCount st = countCells (givenb originalCells)
  /\ filledCells st = countCells (enteredb currentBoard originalCells)
  /\ correctCount st = countCells (enteredRightb currentBoard solvedBoard originalCells)
  /\ incorrectCount st
     = countCells (enteredWrongb currentBoard solvedBoard originalCells)
  /\ correctCount st + incorrectCount st = filledCells st
  /\ filledCells st + originalCount st <= 81.
Proof.
  intros _ _ _. cbv zeta. rewrite stats_fields. cbv zeta.
  cbn [totalCells originalCount filledCells correctCount incorrectCount].
  unfold countCells. rewrite <- length_positions at 3. generalize positions. intros ps.
  assert (Hsplit :
            length (List.filter (enteredRightb currentBoard solvedBoard originalCells) ps)
            + length (List.filter (enteredWrongb currentBoard solvedBoard originalCells) ps)
            = length (List.filter (enteredb currentBoard originalCells) ps)).
  { exact (filter_split (enteredb currentBoard originalCells)
             (fun p => (cellAt currentBoard p =? cellAt solvedBoard p)%string) ps). }
  pose proof (filter_disjoint_le (enteredb currentBoard originalCells)
                (givenb originalCells) ps (entered_not_given _ _)) as Hle.
  repeat split; try reflexivity; lia.
Qed.

Lemma validation_stats_counts_witness :
  let st := getValidationStats fallbackBoard fallbackSolved (maskOf fallbackBoard) in
  totalCells st = 81
  /\ originalCount st = countCells (givenb (maskOf fallbackBoard))
  /\ filledCells st = countCells (enteredb fallbackBoard (maskOf fallbackBoard))
  /\ correctCount st
     = countCells (enteredRightb fallbackBoard fallbackSolved (maskOf fallbackBoard))
  /\ incorrectCount st
     = countCells (enteredWrongb fallbackBoard fallbackSolved (maskOf fallbackBoard))
  /\ correctCount st + incorrectCount st = filledCells st
  /\ filledCells st + originalCount st <= 81.
Proof.
  apply (validation_stats_counts fallbackBoard fallbackSolved (maskOf fallbackBoard)
           wf_fallbackBoard wf_fallbackSolved
           (wf_mask_maskOf fallbackBoard wf_fallbackBoard)).
Defined.

Lemma stats_flags_spec (currentBoard solvedBoard : SudokuBoard)
      (originalCells : GivenMask) :
  (isComplete (getValidationStats currentBoard solvedBoard originalCells) = true
   <-> forall p, inGrid p -> given originalCells (fst p) (snd p) = false ->
                 cellAt currentBoard p <> ".")
  /\ (isValid (getValidationStats currentBoard solvedBoard originalCells) = true
      <-> isValidSudoku currentBoard = true
          /\ forall p, inGrid p -> given originalCells (fst p) (snd p) = false ->
                        cellAt currentBoard p <> "." ->
                        cellAt currentBoard p = cellAt solvedBoard p).
Proof.
  rewrite stats_fields. cbv zeta. cbn [isComplete isValid].
  unfold countCells. rewrite <- length_positions.
  pose proof in_positions as Hin. revert Hin. generalize positions. intros ps Hin.
  split.
  - rewrite Nat.eqb_eq.
    rewrite (filter_two_all _ _ ps (entered_not_given currentBoard originalCells)).
    split.
    + intros H p Hp Hg Hdot. apply Hin in Hp.
      destruct (H p Hp) as [He|He]; [|unfold givenb in He; congruence].
      unfold enteredb in He. apply andb_true_iff in He as [_ He].
      apply negb_true_iff in He. apply emptyb_true in Hdot. congruence.
    + intros H p Hp. apply Hin in Hp. unfold enteredb, givenb.
      destruct (given originalCells (fst p) (snd p)) eqn:Eg; [now right|left].
      cbn [negb andb]. apply negb_true_iff. apply not_true_is_false.
      intros He. apply emptyb_true in He. exact (H p Hp Eg He).
  - rewrite andb_true_iff, Nat.eqb_eq.
    assert (Hle : length (List.filter
                            (enteredRightb currentBoard solvedBoard originalCells) ps)
                  <= length (List.filter (enteredb currentBoard originalCells) ps)).
    { exact (filter_and_le (enteredb currentBoard originalCells)
               (fun p => (cellAt currentBoard p =? cellAt solvedBoard p)%string) ps). }
    assert (Hall : length (List.filter
                             (enteredRightb currentBoard solvedBoard originalCells) ps)
                   = length (List.filter (enteredb currentBoard originalCells) ps)
                   <-> forall p, In p ps -> enteredb currentBoard originalCells p = true ->
                                 (cellAt currentBoard p =? cellAt solvedBoard p)%string
                                 = true).
    { exact (filter_and_all (enteredb currentBoard originalCells)
               (fun p => (cellAt currentBoard p =? cellAt solvedBoard p)%string) ps). }
    split; intros [Hv Hz]; (split; [exact Hv|]).
    + intros p Hp Hg Hdot. apply Hin in Hp.
      assert (E : length (List.filter
                            (enteredRightb currentBoard solvedBoard originalCells) ps)
                  = length (List.filter (enteredb currentBoard originalCells) ps))
        by lia.
      apply String.eqb_eq. apply (proj1 Hall E p Hp).
      unfold enteredb, givenb. rewrite Hg. cbn [negb andb].
      apply negb_true_iff. apply not_true_is_false.
      intros He. apply emptyb_true in He. exact (Hdot He).
    + assert (E : length (List.filter
                            (enteredRightb currentBoard solvedBoard originalCells) ps)
                  = length (List.filter (enteredb currentBoard originalCells) ps));
        [|lia].
      apply (proj2 Hall). intros p Hp He. apply String.eqb_eq.
      unfold enteredb, givenb in He. apply andb_true_iff in He as [Hg Hd].
      apply negb_true_iff in Hg, Hd. apply Hz; [now apply Hin|exact Hg|].
      intros Hdot. apply emptyb_true in Hdot. congruence.
Qed.

(** X14. [getValidationStats] reports [isComplete] exactly when every
    cell that is not given holds something other than ".", and
    [isValid] exactly when [isValidSudoku] accepts the board and every
    such cell equals the solved board. *)
Theorem validation_stats_flags (currentBoard solvedBoard : SudokuBoard)
        (originalCells : GivenMask) :
  wf_board currentBoard -> wf_board solvedBoard -> wf_mask originalCells ->
  let st := getValidationStats currentBoard solvedBoard originalCells in
  (isComplete st = true
   <-> forall p, inGrid p -> given originalCells (fst p) (snd p) = false ->
                 cellAt currentBoard p <> ".")
  /\ (isValid st = true
      <-> isValidSudoku currentBoard = true
          /\ forall p, inGrid p -> given originalCells (fst p) (snd p) = false ->
                        cellAt currentBoard p <> "." ->
                        cellAt currentBoard p = cellAt solvedBoard p).
Proof. intros _ _ _. cbv zeta. apply stats_flags_spec. Qed.

Lemma validation_stats_flags_witness :
  let st := getValidationStats fallbackBoard fallbackSolved (maskOf fallbackBoard) in
  (isComplete st = true
   <-> forall p, inGrid p -> given (maskOf fallbackBoard) (fst p) (snd p) = false ->
                 cellAt fallbackBoard p <> ".")
  /\ (isValid st = true
      <-> isValidSudoku fallbackBoard = true
          /\ forall p, inGrid p -> given (maskOf fallbackBoard) (fst p) (snd p) = false ->
                        cellAt fallbackBoard p <> "." ->
                        cellAt fallbackBoard p = cellAt fallbackSolved p).
Proof.
  apply (validation_stats_flags fallbackBoard fallbackSolved (maskOf fallbackBoard)
           wf_fallbackBoard wf_fallbackSolved
           (wf_mask_maskOf fallbackBoard wf_fallbackBoard)).
Defined.

Lemma stats_flags_counts (currentBoard solvedBoard : SudokuBoard)
      (originalCells : GivenMask) :
  isComplete (getValidationStats currentBoard solvedBoard originalCells)
  = (filledCells (getValidationStats currentBoard solvedBoard originalCells)
     + originalCount (getValidationStats currentBoard solvedBoard originalCells) =? 81)
  /\ isValid (getValidationStats currentBoard solvedBoard originalCells)
     = isValidSudoku currentBoard
       && (incorrectCount (getValidationStats currentBoard solvedBoard originalCells)
           =? 0).
Proof. rewrite stats_fields. split; reflexivity. Qed.

Lemma no_member_nil {A : Type} (l : list A) : (forall x, ~ In x l) -> l = [].
Proof. destruct l as [|x l]; [reflexivity|]. intros H. destruct (H x). now left. Qed.

(** X15. After a call of [solve] that returns [true] on a board whose
    filled cells are digits that do not conflict, checking the board
    against itself, with the mask of the puzzle, reports a complete and
    valid board with no incorrect cell, and [compareBoards] finds no
    incorrect and no empty cell. *)
Theorem stats_after_solve (this : SudokuSolver) (board0 : SudokuBoard) (s : State) :
  shaped this -> wf_board board0 -> plainBoard board0 -> isValidSudoku board0 = true ->
  solve this board0 = Some (true, s) ->
  let st := getValidationStats (board s) (board s) (maskOf board0) in
  isComplete st = true /\ isValid st = true /\ incorrectCount st = 0
  /\ filledCells st + originalCount st = 81
  /\ incorrectCells (compareBoards (board s) (board s)) = []
  /\ emptyCells (compareBoards (board s) (board s)) = [].
Proof.
  intros _ Hwf Hplain Hvalid H. cbv zeta. apply isValidSudoku_spec in Hvalid.
  destruct (solve_sound this board0 s Hwf Hplain Hvalid H) as [Hsol _].
  pose proof (solution_plain _ Hsol) as Hplain'.
  pose proof Hsol as (Hwf' & _ & _).
  apply (solution_spec _ Hwf' Hplain') in Hsol as [Hfull Hfree].
  destruct (stats_flags_spec (board s) (board s) (maskOf board0)) as [Hc Hv].
  destruct (stats_flags_counts (board s) (board s) (maskOf board0)) as [Ec Ev].
  assert (Hcomplete : isComplete (getValidationStats (board s) (board s) (maskOf board0))
                      = true).
  { apply (proj2 Hc). intros p Hp _. apply Hfull, Hp. }
  assert (Hisvalid : isValid (getValidationStats (board s) (board s) (maskOf board0))
                     = true).
  { apply (proj2 Hv). split; [now apply isValidSudoku_spec|reflexivity]. }
  split; [exact Hcomplete|]. split; [exact Hisvalid|].
  rewrite Ec in Hcomplete. rewrite Ev in Hisvalid.
  apply Nat.eqb_eq in Hcomplete. apply andb_true_iff in Hisvalid as [_ Hz].
  apply Nat.eqb_eq in Hz. split; [exact Hz|]. split; [exact Hcomplete|].
  split; apply no_member_nil; intros p Hp.
  - apply (proj1 (proj2 (proj2 (compareBoards_lists _ _ p)))) in Hp.
    destruct Hp as (_ & _ & Hne). now apply Hne.
  - apply (proj1 (proj1 (compareBoards_lists _ _ p))) in Hp.
    destruct Hp as (Hp & Hdot). exact (Hfull p Hp Hdot).
Qed.

Lemma stats_after_solve_witness :
  exists s,
    solve new fallbackBoard = Some (true, s)
    /\ let st := getValidationStats (board s) (board s) (maskOf fallbackBoard) in
       isComplete st = true /\ isValid st = true /\ incorrectCount st = 0
       /\ filledCells st + originalCount st = 81
       /\ incorrectCells (compareBoards (board s) (board s)) = []
       /\ emptyCells (compareBoards (board s) (board s)) = [].
Proof.
  destruct solve_new_fallback as (s & E & _). exists s. split; [exact E|].
  apply (stats_after_solve new fallbackBoard s shaped_new wf_fallbackBoard
           plain_fallbackBoard); [vm_compute; reflexivity|exact E].
Defined.

(** ** The marks on the cells *)




(** X17. [validateCell] and [compareBoards] judge a cell alike, except
    for the blank string: a cell is listed in [incorrectCells] exactly
    when [validateCell] rejects its value, or it holds a blank string
    where the solved board holds something else. *)
Theorem validateCell_vs_compareBoards (currentBoard solved : SudokuBoard)
        (p : nat * nat) :
  wf_board currentBoard -> wf_board solved -> inGrid p ->
  In p (incorrectCells (compareBoards currentBoard solved))
  <-> validateCell (fst p) (snd p) (cellAt currentBoard p) solved = false
      \/ (cellAt currentBoard p = "" /\ cellAt solved p <> "").
Proof.
  intros _ _ Hp.
  rewrite (proj2 (proj2 (compareBoards_lists currentBoard solved p))).
  unfold validateCell. fold (cellAt solved p).
  destruct (String.eqb_spec (cellAt currentBoard p) ".") as [Ed|Ed]; cbn [orb].
  - split; [intros (_ & H & _); tauto|]. intros [H|[H _]]; [discriminate|].
    rewrite Ed in H. discriminate.
  - destruct (String.eqb_spec (cellAt currentBoard p) "") as [Eb|Eb].
    + split.
      * intros (_ & _ & Hne). right. split; [exact Eb|congruence].
      * intros [H|[_ H]]; [discriminate|]. split; [exact Hp|]. split; [exact Ed|].
        congruence.
    + destruct (String.eqb_spec (cellAt currentBoard p) (cellAt solved p)) as [Es|Es].
      * split; [intros (_ & _ & H); tauto|]. intros [H|[H _]]; [discriminate|tauto].
      * split; [intros _; now left|]. intros _. split; [exact Hp|]. split; assumption.
Qed.

Lemma validateCell_vs_compareBoards_witness :
  In (0, 2) (incorrectCells (compareBoards doubledFive fallbackSolved))
  <-> validateCell 0 2 (cellAt doubledFive (0, 2)) fallbackSolved = false
      \/ (cellAt doubledFive (0, 2) = "" /\ cellAt fallbackSolved (0, 2) <> "").
Proof.
  apply (validateCell_vs_compareBoards doubledFive fallbackSolved (0, 2));
    [apply wf_boardb_spec; reflexivity|exact wf_fallbackSolved|split; simpl; lia].
Defined.

(** ** What the player may type *)

Lemma matchesDigit_spec (v : string) : matchesDigit v = true <-> isDigit v.
Proof.
  split.
  - destruct v as [|c [|c' rest]]; try discriminate. cbn [matchesDigit].
    unfold oneToNine. intros H. apply andb_true_iff in H as [Hlo Hhi].
    apply Nat.leb_le in Hlo, Hhi.
    change (nat_of_ascii "1") with 49 in Hlo. change (nat_of_ascii "9") with 57 in Hhi.
    rewrite <- (ascii_nat_embedding c).
    assert (Hn : nat_of_ascii c = 49 \/ nat_of_ascii c = 50 \/ nat_of_ascii c = 51
                 \/ nat_of_ascii c = 52 \/ nat_of_ascii c = 53 \/ nat_of_ascii c = 54
                 \/ nat_of_ascii c = 55 \/ nat_of_ascii c = 56 \/ nat_of_ascii c = 57)
      by lia.
    unfold isDigit.
    destruct Hn as [E|[E|[E|[E|[E|[E|[E|[E|E]]]]]]]]; rewrite E; cbn; tauto.
  - unfold isDigit. cbn [In]. intros H.
    repeat (destruct H as [<-|H]; [reflexivity|]). contradiction.
Qed.

Lemma validateInput_spec (v : string) : validateInput v = true <-> v = "" \/ isDigit v.
Proof.
  unfold validateInput. rewrite orb_true_iff, String.eqb_eq, matchesDigit_spec.
  reflexivity.
Qed.

(** X18. [validateInput] accepts the blank string and the nine strings
    "1".."9", and nothing else: not ".", not "0", no longer string. *)
Theorem validateInput_accepts_blank_and_digits (cellValue : string) :
  (validateInput cellValue = true
   <-> In cellValue [""; "1"; "2"; "3"; "4"; "5"; "6"; "7"; "8"; "9"])
  /\ validateInput "." = false /\ validateInput "0" = false
  /\ (2 <= String.length cellValue -> validateInput cellValue = false).
Proof.
  split; [|split; [reflexivity|split; [reflexivity|]]].
  - rewrite validateInput_spec. unfold isDigit. cbn [In]. split.
    + intros [->|H]; [now left|now right].
    + intros [<-|H]; [now left|now right].
  - intros Hlen. destruct cellValue as [|c [|c' rest]]; cbn [String.length] in Hlen;
      try lia. reflexivity.
Qed.

Lemma validateInput_accepts_blank_and_digits_witness :
  (validateInput "12" = true
   <-> In "12" [""; "1"; "2"; "3"; "4"; "5"; "6"; "7"; "8"; "9"])
  /\ validateInput "." = false /\ validateInput "0" = false
  /\ (2 <= String.length "12" -> validateInput "12" = false).
Proof. apply (validateInput_accepts_blank_and_digits "12"). Defined.

(** ** Cells that share a unit with the focus *)

(** X19. For cells of the grid, [isRelatedCell] highlights exactly the
    cells that share a row, a column or a block with the focused cell
    (the focused cell among them), the blocks being those the solver
    and the validity checks use; without a focus it highlights none. *)
Theorem isRelatedCell_iff_sameUnit (focus : nat * nat) (row col : nat) :
  inGrid focus -> row < 9 -> col < 9 ->
  (isRelatedCell (Some focus) row col = true <-> sameUnit (row, col) focus)
  /\ isRelatedCell None row col = false.
Proof.
  intros [Hfr Hfc] Hr Hc. split; [|reflexivity].
  destruct focus as [fr fc]. cbn [fst snd] in Hfr, Hfc.
  unfold isRelatedCell, sameUnit. cbn [fst snd].
  assert (Hb : blockIndex row col = blockIndex fr fc
               <-> row / 3 = fr / 3 /\ col / 3 = fc / 3).
  { pose proof (Nat.Div0.div_lt_upper_bound col 3 3) as H1.
    pose proof (Nat.Div0.div_lt_upper_bound fc 3 3) as H2.
    unfold blockIndex. split; [|intros [-> ->]; reflexivity]. lia. }
  rewrite Hb.
  destruct (Nat.eqb_spec row fr) as [E1|E1]; cbn [orb].
  - split; [now left|reflexivity].
  - destruct (Nat.eqb_spec col fc) as [E2|E2].
    + split; [right; now left|reflexivity].
    + destruct (Nat.eqb_spec (row / 3) (fr / 3)) as [E3|E3]; cbn [andb].
      * destruct (Nat.eqb_spec (col / 3) (fc / 3)) as [E4|E4].
        -- split; [intros _; right; right; split; assumption|reflexivity].
        -- split; [discriminate|]. intros [H|[H|[_ H]]]; contradiction.
      * split; [discriminate|]. intros [H|[H|[H _]]]; contradiction.
Qed.

Lemma isRelatedCell_iff_sameUnit_witness :
  (isRelatedCell (Some (4, 4)) 3 5 = true <-> sameUnit (3, 5) (4, 4))
  /\ isRelatedCell None 3 5 = false.
Proof.
  apply (isRelatedCell_iff_sameUnit (4, 4) 3 5); [split; simpl; lia|lia|lia].
Defined.

(** ** The game keeps its boards in shape *)

Lemma copyBoard_id (board0 : SudokuBoard) : copyBoard board0 = board0.
Proof.
  unfold copyBoard. rewrite <- (map_id board0) at 2.
  apply map_ext. intros r. apply map_id.
Qed.

Lemma nth_map_hole {A B : Type} (f : A -> B) (d : A) (d' : B) (l : list A) (k : nat) :
  f d = d' -> nth k (map f l) d' = f (nth k l d).
Proof.
  intros Hd. revert k. induction l as [|x l IH]; intros [|k]; cbn [map nth]; auto.
Qed.

Lemma given_maskOf (board0 : SudokuBoard) (row col : nat) :
  given (maskOf board0) row col = filled (cell board0 row col).
Proof.
  unfold given, maskOf, cell, JS.get.
  rewrite (nth_map_hole _ [] [] board0 row eq_refl).
  now rewrite (nth_map_hole _ "" false _ col eq_refl).
Qed.

Lemma cell_filledGrid {A : Type} (hole v : A) (row col : nat) :
  row < 9 -> col < 9 ->
  JS.get hole (JS.get [] (Game.filledGrid v) row) col = v.
Proof.
  intros Hr Hc. unfold Game.filledGrid, JS.get.
  do 9 (destruct row as [|row]; [do 9 (destruct col as [|col]; [reflexivity|]); lia|]).
  lia.
Qed.

Ltac game_fields :=
  cbn [Game.board Game.originalCells Game.originalBoard Game.solvedBoard
       Game.focusedCell Game.boardToSolve].

Lemma invariant_initial : gameInvariant Game.initial.
Proof.
  unfold gameInvariant, Game.initial. game_fields.
  split; [apply wf_boardb_spec; reflexivity|].
  split; [split; [reflexivity|repeat constructor]|].
  split; [discriminate|]. split; [discriminate|]. split; [|discriminate].
  intros _ p [Hr Hc]. unfold given. now apply cell_filledGrid.
Qed.

Lemma invariant_loadNewPuzzle (newBoard : SudokuBoard) (g : Game.GameState) :
  wf_board newBoard -> gameInvariant g -> gameInvariant (Game.loadNewPuzzle newBoard g).
Proof.
  intros Hwf (_ & _ & _ & _ & _ & Hwait). unfold gameInvariant, Game.loadNewPuzzle.
  game_fields. rewrite copyBoard_id.
  split; [exact Hwf|]. split; [now apply wf_mask_maskOf|].
  split; [discriminate|]. split; [|split; [discriminate|exact Hwait]].
  intros original [= <-]. split; [exact Hwf|reflexivity].
Qed.

Lemma invariant_handleCellChange (g : Game.GameState) (row col : nat) (value : string) :
  row < 9 -> col < 9 -> gameInvariant g ->
  gameInvariant (Game.handleCellChange g row col value).
Proof.
  intros Hr Hc Hinv. unfold Game.handleCellChange.
  destruct (given (Game.originalCells g) row col); [exact Hinv|].
  destruct (negb (validateInput value)); [exact Hinv|].
  destruct Hinv as (Hwf & Hrest).
  unfold gameInvariant. game_fields. rewrite copyBoard_id.
  split; [now apply wf_setCell|exact Hrest].
Qed.

Lemma invariant_navigateToCell (g : Game.GameState) (row col : Z) :
  (0 <= row < 9)%Z -> (0 <= col < 9)%Z -> gameInvariant g ->
  gameInvariant (Game.navigateToCell g row col).
Proof.
  intros Hr Hc (Hwf & Hmask & _ & Hrest).
  unfold gameInvariant, Game.navigateToCell. game_fields.
  split; [exact Hwf|]. split; [exact Hmask|]. split; [|exact Hrest].
  intros f [= <-]. split; cbn [fst snd]; lia.
Qed.

Lemma invariant_handleKeyDown (g : Game.GameState) (key : string) (shiftKey : bool)
      (row col : nat) :
  row < 9 -> col < 9 -> gameInvariant g ->
  gameInvariant (Game.handleKeyDown g key shiftKey row col).
Proof.
  intros Hr Hc Hinv. unfold Game.handleKeyDown. cbv zeta.
  destruct (key =? "ArrowUp")%string; [apply invariant_navigateToCell; [lia|lia|exact Hinv]|].
  destruct (key =? "ArrowDown")%string;
    [apply invariant_navigateToCell; [lia|lia|exact Hinv]|].
  destruct (key =? "ArrowLeft")%string;
    [apply invariant_navigateToCell; [lia|lia|exact Hinv]|].
  destruct (key =? "ArrowRight")%string;
    [apply invariant_navigateToCell; [lia|lia|exact Hinv]|].
  destruct (key =? "Tab")%string.
  { destruct shiftKey; apply invariant_navigateToCell; try lia; exact Hinv. }
  destruct ((key =? "Backspace")%string || (key =? "Delete")%string);
    [now apply invariant_handleCellChange|].
  destruct (existsb _ _); [|exact Hinv].
  pose proof (invariant_handleCellChange g row col key Hr Hc Hinv) as Hinv'.
  destruct (Nat.ltb_spec col 8); [apply invariant_navigateToCell; [lia|lia|exact Hinv']|].
  destruct (Nat.ltb_spec row 8); [apply invariant_navigateToCell; [lia|lia|exact Hinv']|].
  exact Hinv'.
Qed.

Lemma invariant_handleCellClick (g : Game.GameState) (row col : nat) :
  row < 9 -> col < 9 -> gameInvariant g -> gameInvariant (Game.handleCellClick g row col).
Proof.
  intros Hr Hc Hinv. unfold Game.handleCellClick.
  destruct (negb (given (Game.originalCells g) row col)); [|exact Hinv].
  destruct Hinv as (Hwf & Hmask & _ & Hrest).
  unfold gameInvariant. game_fields.
  split; [exact Hwf|]. split; [exact Hmask|]. split; [|exact Hrest].
  intros f [= <-]. split; assumption.
Qed.

Lemma invariant_startSolve (g : Game.GameState) :
  gameInvariant g -> gameInvariant (Game.startSolve g).
Proof.
  intros (Hwf & Hmask & Hfocus & Horig & Hnone & _).
  unfold gameInvariant, Game.startSolve. game_fields. rewrite copyBoardForSolving_id.
  repeat (split; [assumption|]). now intros waiting [= <-].
Qed.

(** What the timer of [handleSolve] does to the state. *)
Lemma solveTimeout_cases (g : Game.GameState) (waiting : SudokuBoard) :
  Game.boardToSolve g = Some waiting ->
  (exists s, solve new waiting = Some (true, s)
             /\ Game.solveTimeout g
                = Game.mkGame (board s) (Game.originalCells g) (Game.originalBoard g)
                              (Some (board s)) (Game.focusedCell g) None)
  \/ ((exists s, solve new waiting = Some (false, s))
      /\ Game.solveTimeout g
         = Game.mkGame (Game.board g) (Game.originalCells g) (Game.originalBoard g)
                       (Game.solvedBoard g) (Game.focusedCell g) None).
Proof.
  intros Ew. unfold Game.solveTimeout. rewrite Ew, solveSudoku_unfold.
  destruct (solve_returns new waiting) as ([|] & s & E); rewrite E.
  - left. exists s. split; [reflexivity|]. now rewrite copyBoard_id.
  - right. split; [exists s|]; reflexivity.
Qed.

Lemma handleSolve_cases (g : Game.GameState) :
  (exists s, solve new (Game.board g) = Some (true, s)
             /\ Game.board (Game.handleSolve g) = board s)
  \/ ((exists s, solve new (Game.board g) = Some (false, s))
      /\ Game.board (Game.handleSolve g) = Game.board g).
Proof.
  unfold Game.handleSolve.
  destruct (solveTimeout_cases (Game.startSolve g) (Game.board g))
    as [(s & E & ->)|[Hs ->]].
  - unfold Game.startSolve. game_fields. now rewrite copyBoardForSolving_id.
  - left. exists s. split; [exact E|reflexivity].
  - right. split; [exact Hs|reflexivity].
Qed.

Lemma invariant_solveTimeout (g : Game.GameState) :
  gameInvariant g -> gameInvariant (Game.solveTimeout g).
Proof.
  intros Hinv. destruct (Game.boardToSolve g) as [waiting|] eqn:Ew.
  - destruct Hinv as (Hwf & Hmask & Hfocus & Horig & Hnone & Hwait).
    destruct (solveTimeout_cases g waiting Ew) as [(s & E & ->)|[_ ->]];
      unfold gameInvariant; game_fields.
    + destruct (solve_fills new waiting s (Hwait waiting Ew) E) as (Hwf' & _).
      repeat (split; [assumption|]). discriminate.
    + repeat (split; [assumption|]). discriminate.
  - unfold Game.solveTimeout. rewrite Ew. exact Hinv.
Qed.

Lemma invariant_handleResetToOriginal (g : Game.GameState) :
  gameInvariant g -> gameInvariant (Game.handleResetToOriginal g).
Proof.
  intros Hinv. unfold Game.handleResetToOriginal.
  destruct (Game.originalBoard g) as [original|] eqn:Eo; [|exact Hinv].
  destruct Hinv as (Hwf & Hmask & Hfocus & Horig & Hnone & Hwait).
  destruct (Horig original Eo) as (Hwfo & Emask).
  unfold gameInvariant. game_fields. rewrite copyBoard_id.
  split; [exact Hwfo|]. split; [now apply wf_mask_maskOf|]. split; [exact Hfocus|].
  split; [|split; [discriminate|exact Hwait]].
  intros original' [= <-]. split; [exact Hwfo|reflexivity].
Qed.

Lemma invariant_clearAll (g : Game.GameState) :
  gameInvariant g -> gameInvariant (Game.clearAll g).
Proof.
  intros (_ & _ & _ & _ & _ & Hwait).
  unfold gameInvariant, Game.clearAll. game_fields.
  split; [apply wf_boardb_spec; reflexivity|].
  split; [split; [reflexivity|repeat constructor]|].
  split; [discriminate|]. split; [discriminate|]. split; [|exact Hwait].
  intros _ p [Hr Hc]. unfold given. now apply cell_filledGrid.
Qed.

Lemma invariant_step (g : Game.GameState) (e : Game.Event) :
  legal e -> gameInvariant g -> gameInvariant (Game.step g e).
Proof.
  destruct e as [newBoard|row col value|key shiftKey row col|row col| | | |];
    cbn [legal Game.step]; intros Hlegal Hinv.
  - now apply invariant_loadNewPuzzle.
  - destruct Hlegal. now apply invariant_handleCellChange.
  - destruct Hlegal. now apply invariant_handleKeyDown.
  - destruct Hlegal. now apply invariant_handleCellClick.
  - destruct (Game.isSolving g); [exact Hinv|now apply invariant_startSolve].
  - now apply invariant_solveTimeout.
  - destruct (Game.isSolving g); [exact Hinv|now apply invariant_handleResetToOriginal].
  - now apply invariant_clearAll.
Qed.

Lemma invariant_run (events : list Game.Event) (g : Game.GameState) :
  List.Forall legal events -> gameInvariant g -> gameInvariant (Game.run events g).
Proof.
  unfold Game.run. revert g.
  induction events as [|e events IH]; intros g Hlegal Hinv; cbn [fold_left].
  - exact Hinv.
  - inversion Hlegal as [|? ? He Hrest]; subst.
    apply IH; [exact Hrest|]. now apply invariant_step.
Qed.

(** *** The alphabet of the boards *)

Lemma alphabet_handleCellChange (g : Game.GameState) (row col : nat) (value : string) :
  alphabetInvariant g -> alphabetInvariant (Game.handleCellChange g row col value).
Proof.
  intros Hinv. unfold Game.handleCellChange.
  destruct (given (Game.originalCells g) row col); [exact Hinv|].
  destruct (validateInput value) eqn:Ev; cbn [negb]; [|exact Hinv].
  destruct Hinv as (Hboard & Hrest).
  unfold alphabetInvariant. game_fields. rewrite copyBoard_id.
  split; [|exact Hrest].
  intros p Hp. rewrite cellAt_setCell. destruct (posEqb p (row, col)); [|now apply Hboard].
  apply validateInput_spec in Ev. unfold editedCell. tauto.
Qed.

Lemma alphabet_handleKeyDown (g : Game.GameState) (key : string) (shiftKey : bool)
      (row col : nat) :
  alphabetInvariant g -> alphabetInvariant (Game.handleKeyDown g key shiftKey row col).
Proof.
  intros Hinv.
  assert (Hnav : forall g' r c, alphabetInvariant g' ->
                                alphabetInvariant (Game.navigateToCell g' r c))
    by (intros g' r c H; exact H).
  unfold Game.handleKeyDown. cbv zeta.
  repeat match goal with
         | |- alphabetInvariant (if ?b then _ else _) => destruct b
         end;
    repeat first [exact Hinv | apply Hnav | apply alphabet_handleCellChange].
Qed.

Lemma alphabet_solved (waiting : SudokuBoard) (s : State) :
  wf_board waiting -> overAlphabet waiting -> solve new waiting = Some (true, s) ->
  overAlphabet (board s).
Proof.
  intros Hwf Halpha E p Hp.
  destruct (solve_fills new waiting s Hwf E) as (_ & _ & Hfill).
  destruct (Hfill p Hp) as [Hkeep Hnew].
  destruct (String.eqb_spec (cellAt waiting p) ".") as [Hdot|Hne].
  - destruct (Hnew Hdot) as [->|Hd]; unfold editedCell; tauto.
  - rewrite (Hkeep Hne). now apply Halpha.
Qed.

Lemma alphabet_step (g : Game.GameState) (e : Game.Event) :
  tidy e -> gameInvariant g -> alphabetInvariant g -> alphabetInvariant (Game.step g e).
Proof.
  intros Htidy Hshape Hinv.
  destruct e as [newBoard|row col value|key shiftKey row col|row col| | | |];
    cbn [tidy Game.step] in *.
  - destruct Hinv as (_ & _ & Hwait).
    unfold alphabetInvariant, Game.loadNewPuzzle. game_fields. rewrite copyBoard_id.
    split; [exact Htidy|]. split; [|exact Hwait]. now intros original [= <-].
  - now apply alphabet_handleCellChange.
  - now apply alphabet_handleKeyDown.
  - unfold Game.handleCellClick. destruct (negb _); exact Hinv.
  - destruct (Game.isSolving g); [exact Hinv|].
    destruct Hinv as (Hboard & Horig & _).
    unfold alphabetInvariant, Game.startSolve. game_fields.
    rewrite copyBoardForSolving_id.
    split; [exact Hboard|]. split; [exact Horig|]. now intros waiting [= <-].
  - destruct (Game.boardToSolve g) as [waiting|] eqn:Ew.
    + destruct Hinv as (Hboard & Horig & Hwait).
      destruct Hshape as (_ & _ & _ & _ & _ & Hwfw).
      destruct (solveTimeout_cases g waiting Ew) as [(s & E & ->)|[_ ->]];
        unfold alphabetInvariant; game_fields.
      * split; [|split; [exact Horig|discriminate]].
        exact (alphabet_solved waiting s (Hwfw waiting Ew) (Hwait waiting Ew) E).
      * split; [exact Hboard|]. split; [exact Horig|discriminate].
    + unfold Game.solveTimeout. rewrite Ew. exact Hinv.
  - destruct (Game.isSolving g); [exact Hinv|].
    unfold Game.handleResetToOriginal.
    destruct (Game.originalBoard g) as [original|] eqn:Eo; [|exact Hinv].
    destruct Hinv as (_ & Horig & Hwait).
    unfold alphabetInvariant. game_fields. rewrite copyBoard_id.
    split; [now apply Horig|]. split; [|exact Hwait].
    intros original' [= <-]. now apply Horig.
  - destruct Hinv as (_ & _ & Hwait).
    unfold alphabetInvariant, Game.clearAll. game_fields.
    split; [|split; [discriminate|exact Hwait]].
    intros p [Hr Hc]. left. unfold cellAt, cell. now apply cell_filledGrid.
Qed.

Lemma alphabet_run (events : list Game.Event) (g : Game.GameState) :
  List.Forall legal events -> List.Forall tidy events ->
  gameInvariant g -> alphabetInvariant g -> alphabetInvariant (Game.run events g).
Proof.
  unfold Game.run. revert g.
  induction events as [|e events IH]; intros g Hlegal Htidy Hshape Hinv; cbn [fold_left].
  - exact Hinv.
  - inversion Hlegal as [|? ? He Hrest]; subst.
    inversion Htidy as [|? ? Ht Htrest]; subst.
    apply IH; [exact Hrest|exact Htrest|now apply invariant_step|now apply alphabet_step].
Qed.

Lemma alphabet_initial : alphabetInvariant Game.initial.
Proof.
  unfold alphabetInvariant, Game.initial. game_fields.
  split; [|split; discriminate].
  intros p [Hr Hc]. left. unfold cellAt, cell. now apply cell_filledGrid.
Qed.

(** *** The cells a puzzle gave *)

Lemma showsGiven_setCell (puzzle board0 : SudokuBoard) (row col : nat) (value : string) :
  row < 9 -> col < 9 -> given (maskOf puzzle) row col = false ->
  showsGiven puzzle board0 -> showsGiven puzzle (setCell board0 row col value).
Proof.
  intros Hr Hc Hg [Hwf Hcells]. split; [now apply wf_setCell|].
  intros p Hp Hfilled. rewrite cellAt_setCell.
  destruct (posEqb p (row, col)) eqn:Ep; [|now apply Hcells].
  apply posEqb_eq in Ep. subst p. rewrite given_maskOf in Hg.
  unfold cellAt in Hfilled. cbn [fst snd] in Hfilled. congruence.
Qed.

Lemma showsGiven_solved (puzzle waiting : SudokuBoard) (s : State) :
  showsGiven puzzle waiting -> solve new waiting = Some (true, s) ->
  showsGiven puzzle (board s).
Proof.
  intros [Hwf Hcells] E.
  destruct (solve_fills new waiting s Hwf E) as (Hwf' & _ & Hfill).
  split; [exact Hwf'|]. intros p Hp Hfilled.
  destruct (Hfill p Hp) as [Hkeep _]. rewrite Hkeep; [now apply Hcells|].
  rewrite (Hcells p Hp Hfilled). apply filled_true in Hfilled. tauto.
Qed.

Lemma playing_handleCellChange (puzzle : SudokuBoard) (g : Game.GameState)
      (row col : nat) (value : string) :
  row < 9 -> col < 9 -> playing puzzle g ->
  playing puzzle (Game.handleCellChange g row col value).
Proof.
  intros Hr Hc Hplay. unfold Game.handleCellChange.
  destruct (given (Game.originalCells g) row col) eqn:Eg; [exact Hplay|].
  destruct (negb (validateInput value)); [exact Hplay|].
  destruct Hplay as (Eo & Em & Hboard & Hwait).
  unfold playing. game_fields. rewrite copyBoard_id.
  split; [exact Eo|]. split; [exact Em|]. split; [|exact Hwait].
  apply showsGiven_setCell; try assumption. now rewrite <- Em.
Qed.

Lemma playing_handleKeyDown (puzzle : SudokuBoard) (g : Game.GameState)
      (key : string) (shiftKey : bool) (row col : nat) :
  row < 9 -> col < 9 -> playing puzzle g ->
  playing puzzle (Game.handleKeyDown g key shiftKey row col).
Proof.
  intros Hr Hc Hplay.
  assert (Hnav : forall g' r c, playing puzzle g' ->
                                playing puzzle (Game.navigateToCell g' r c))
    by (intros g' r c H; exact H).
  unfold Game.handleKeyDown. cbv zeta.
  repeat match goal with
         | |- playing _ (if ?b then _ else _) => destruct b
         end;
    repeat first [exact Hplay | apply Hnav | apply playing_handleCellChange; try assumption].
Qed.

Lemma playing_step (puzzle : SudokuBoard) (g : Game.GameState) (e : Game.Event) :
  wf_board puzzle -> legal e -> keepsPuzzle e ->
  playing puzzle g -> playing puzzle (Game.step g e).
Proof.
  intros Hwf Hlegal Hkeep Hplay.
  destruct e as [newBoard|row col value|key shiftKey row col|row col| | | |];
    cbn [legal keepsPuzzle Game.step] in *; try contradiction.
  - destruct Hlegal. now apply playing_handleCellChange.
  - destruct Hlegal. now apply playing_handleKeyDown.
  - unfold Game.handleCellClick. destruct (negb _); exact Hplay.
  - destruct (Game.isSolving g); [exact Hplay|].
    destruct Hplay as (Eo & Em & Hboard & _).
    unfold playing, Game.startSolve. game_fields. rewrite copyBoardForSolving_id.
    split; [exact Eo|]. split; [exact Em|]. split; [exact Hboard|].
    now intros waiting [= <-].
  - destruct (Game.boardToSolve g) as [waiting|] eqn:Ew.
    + destruct Hplay as (Eo & Em & Hboard & Hwait).
      destruct (solveTimeout_cases g waiting Ew) as [(s & E & ->)|[_ ->]];
        unfold playing; game_fields.
      * split; [exact Eo|]. split; [exact Em|]. split; [|discriminate].
        exact (showsGiven_solved puzzle waiting s (Hwait waiting Ew) E).
      * split; [exact Eo|]. split; [exact Em|]. split; [exact Hboard|discriminate].
    + unfold Game.solveTimeout. rewrite Ew. exact Hplay.
  - destruct (Game.isSolving g); [exact Hplay|].
    destruct Hplay as (Eo & Em & Hboard & Hwait).
    unfold Game.handleResetToOriginal. rewrite Eo.
    unfold playing. game_fields. rewrite copyBoard_id.
    split; [reflexivity|]. split; [reflexivity|]. split; [|exact Hwait].
    split; [exact Hwf|]. intros p _ _. reflexivity.
Qed.

Lemma playing_run (puzzle : SudokuBoard) (events : list Game.Event) (g : Game.GameState) :
  wf_board puzzle -> List.Forall legal events -> List.Forall keepsPuzzle events ->
  playing puzzle g -> playing puzzle (Game.run events g).
Proof.
  intros Hwf. unfold Game.run. revert g.
  induction events as [|e events IH]; intros g Hlegal Hkeep Hplay; cbn [fold_left].
  - exact Hplay.
  - inversion Hlegal as [|? ? He Hrest]; subst.
    inversion Hkeep as [|? ? Hk Hkrest]; subst.
    apply IH; [exact Hrest|exact Hkrest|now apply playing_step].
Qed.

(** X20. Once a puzzle is loaded while no solver run is waiting for
    its timer, no sequence of cell edits, key presses, clicks, solver
    runs (clicks on Solve and their timers firing, with whatever in
    between) and resets changes a cell the puzzle gave: the mask stays
    the mask of the puzzle, the board stays 9x9, and every cell the
    puzzle filled still holds the puzzle's value. *)
Theorem given_cells_never_change (newBoard : SudokuBoard) (g0 : Game.GameState)
        (events : list Game.Event) :
  wf_board newBoard -> Game.boardToSolve g0 = None ->
  List.Forall legal events -> List.Forall keepsPuzzle events ->
  let g := Game.run events (Game.loadNewPuzzle newBoard g0) in
  wf_board (Game.board g)
  /\ Game.originalCells g = maskOf newBoard
  /\ forall p, inGrid p -> cellAt newBoard p <> "." -> cellAt newBoard p <> "" ->
                cellAt (Game.board g) p = cellAt newBoard p.
Proof.
  intros Hwf Hidle Hlegal Hkeep. cbv zeta.
  destruct (playing_run newBoard events (Game.loadNewPuzzle newBoard g0) Hwf Hlegal Hkeep)
    as (_ & Em & [Hwf' Hcells] & _).
  { unfold playing, Game.loadNewPuzzle. game_fields. rewrite copyBoard_id, Hidle.
    split; [reflexivity|]. split; [reflexivity|]. split; [|discriminate].
    split; [exact Hwf|]. intros p _ _. reflexivity. }
  split; [exact Hwf'|]. split; [exact Em|].
  intros p Hp Hd Hb. apply Hcells; [exact Hp|]. apply filled_true. now split.
Qed.

(** The player types over a cell, clears another, clicks Solve, goes on
    typing while the timer waits, sees the solution, types again and
    resets. *)
Lemma given_cells_never_change_witness :
  let g := Game.run [Game.CellChange 0 2 "4"; Game.KeyDown "Delete" false 0 0;
                     Game.Solve; Game.CellChange 0 3 "9"; Game.Timeout;
                     Game.CellChange 0 0 "9"; Game.Reset]
                    (Game.loadNewPuzzle fallbackBoard Game.initial) in
  wf_board (Game.board g)
  /\ Game.originalCells g = maskOf fallbackBoard
  /\ forall p, inGrid p -> cellAt fallbackBoard p <> "." -> cellAt fallbackBoard p <> "" ->
                cellAt (Game.board g) p = cellAt fallbackBoard p.
Proof.
  apply (given_cells_never_change fallbackBoard Game.initial
           [Game.CellChange 0 2 "4"; Game.KeyDown "Delete" false 0 0;
            Game.Solve; Game.CellChange 0 3 "9"; Game.Timeout;
            Game.CellChange 0 0 "9"; Game.Reset]
           wf_fallbackBoard eq_refl).
  - repeat first [apply List.Forall_nil | apply List.Forall_cons]; cbn [legal];
      try exact I; lia.
  - repeat first [apply List.Forall_nil | apply List.Forall_cons]; exact I.
Defined.

(** The timer of [handleSolve] outlives the puzzle it was started on:
    with Solve clicked on the classic puzzle and another puzzle loaded
    before the 100 ms are over, the timer shows the solution of the
    classic puzzle under the mask of the new one, and the 1 the new
    puzzle gave at (8, 0) is lost to a 3. *)
Example solve_timer_outlives_the_puzzle :
  let g := Game.run [Game.Load fallbackBoard; Game.Solve; Game.Load backtrackBoard;
                     Game.Timeout] Game.initial in
  Game.board g = fallbackSolved
  /\ Game.originalCells g = maskOf backtrackBoard
  /\ given (Game.originalCells g) 8 0 = true
  /\ cell backtrackBoard 8 0 = "1"
  /\ cell (Game.board g) 8 0 = "3".
Proof. vm_compute. repeat split. Qed.

(** X21. From the moment the component is mounted, whatever happens
    (puzzles loaded, edits, keys, clicks, Solve clicked, its timer
    firing, resets, clearing), the board stays 9x9, the mask stays 9x9,
    the focus stays inside the grid, the puzzle kept for resetting is
    9x9 and the mask is its mask, no cell is marked as given when no
    puzzle is kept, and the board a waiting timer holds is 9x9; and as
    long as the puzzles loaded are over ".", the blank string and the
    digits, so is the board. *)
Theorem game_state_stays_well_formed (events : list Game.Event) :
  List.Forall legal events ->
  let g := Game.run events Game.initial in
  wf_board (Game.board g)
  /\ wf_mask (Game.originalCells g)
  /\ (forall f, Game.focusedCell g = Some f -> inGrid f)
  /\ (forall original, Game.originalBoard g = Some original ->
                        wf_board original /\ Game.originalCells g = maskOf original)
  /\ (Game.originalBoard g = None ->
      forall p, inGrid p -> given (Game.originalCells g) (fst p) (snd p) = false)
  /\ (forall waiting, Game.boardToSolve g = Some waiting -> wf_board waiting)
  /\ (List.Forall tidy events ->
      forall p, inGrid p -> In (cellAt (Game.board g) p)
                               ["."; ""; "1"; "2"; "3"; "4"; "5"; "6"; "7"; "8"; "9"]).
Proof.
  intros Hlegal. cbv zeta.
  pose proof (invariant_run events _ Hlegal invariant_initial)
    as (Hwf & Hmask & Hfocus & Horig & Hnone & Hwait).
  repeat (split; [assumption|]).
  intros Htidy p Hp.
  destruct (alphabet_run events _ Hlegal Htidy invariant_initial alphabet_initial)
    as (Halpha & _).
  destruct (Halpha p Hp) as [->|[->|H]];
    [now left|right; now left|right; right; exact H].
Qed.

Lemma game_state_stays_well_formed_witness :
  let g := Game.run [Game.Load fallbackBoard; Game.Click 0 2; Game.KeyDown "7" false 0 2;
                     Game.KeyDown "ArrowUp" false 0 3; Game.Solve; Game.ClearAll;
                     Game.Timeout; Game.Solve; Game.Load backtrackBoard; Game.Timeout]
                    Game.initial in
  wf_board (Game.board g)
  /\ wf_mask (Game.originalCells g)
  /\ (forall f, Game.focusedCell g = Some f -> inGrid f)
  /\ (forall original, Game.originalBoard g = Some original ->
                        wf_board original /\ Game.originalCells g = maskOf original)
  /\ (Game.originalBoard g = None ->
      forall p, inGrid p -> given (Game.originalCells g) (fst p) (snd p) = false)
  /\ (forall waiting, Game.boardToSolve g = Some waiting -> wf_board waiting)
  /\ (List.Forall tidy
        [Game.Load fallbackBoard; Game.Click 0 2; Game.KeyDown "7" false 0 2;
         Game.KeyDown "ArrowUp" false 0 3; Game.Solve; Game.ClearAll;
         Game.Timeout; Game.Solve; Game.Load backtrackBoard; Game.Timeout] ->
      forall p, inGrid p -> In (cellAt (Game.board g) p)
                               ["."; ""; "1"; "2"; "3"; "4"; "5"; "6"; "7"; "8"; "9"]).
Proof.
  apply (game_state_stays_well_formed
           [Game.Load fallbackBoard; Game.Click 0 2; Game.KeyDown "7" false 0 2;
            Game.KeyDown "ArrowUp" false 0 3; Game.Solve; Game.ClearAll;
            Game.Timeout; Game.Solve; Game.Load backtrackBoard; Game.Timeout]).
  repeat first [apply List.Forall_nil | apply List.Forall_cons]; cbn [legal];
    try exact I; try lia.
  - exact wf_fallbackBoard.
  - exact wf_backtrackBoard.
Defined.

(** X22. A cell the player has cleared holds the blank string, which
    the solver takes for a filled cell: after clearing a cell that is
    not given and running the solver, the cell is still blank whatever
    the solver answered, and [checkCompletion] rejects the board. *)
Theorem cleared_cell_survives_solve (g : Game.GameState) (row col : nat) :
  wf_board (Game.board g) -> row < 9 -> col < 9 ->
  given (Game.originalCells g) row col = false ->
  let g' := Game.handleSolve (Game.handleCellChange g row col "") in
  cellAt (Game.board g') (row, col) = ""
  /\ checkCompletion (Game.board g') = false.
Proof.
  intros Hwf Hr Hc Hg. cbv zeta.
  assert (Hin : inGrid (row, col)) by (split; assumption).
  assert (E1 : Game.handleCellChange g row col ""
               = Game.mkGame (setCell (Game.board g) row col "") (Game.originalCells g)
                             (Game.originalBoard g) (Game.solvedBoard g)
                             (Game.focusedCell g) (Game.boardToSolve g)).
  { unfold Game.handleCellChange. rewrite Hg. cbn [validateInput negb].
    change (validateInput "") with true. cbn [negb]. now rewrite copyBoard_id. }
  rewrite E1.
  assert (Hwf1 : wf_board (setCell (Game.board g) row col "")) by now apply wf_setCell.
  assert (Hblank : cellAt (setCell (Game.board g) row col "") (row, col) = "").
  { rewrite cellAt_setCell. now rewrite (proj2 (posEqb_eq _ _) eq_refl). }
  assert (Hcell : cellAt (Game.board
                            (Game.handleSolve
                               (Game.mkGame (setCell (Game.board g) row col "")
                                            (Game.originalCells g) (Game.originalBoard g)
                                            (Game.solvedBoard g) (Game.focusedCell g)
                                            (Game.boardToSolve g))))
                         (row, col) = "").
  { match goal with |- cellAt (Game.board (Game.handleSolve ?g1)) _ = _ =>
      destruct (handleSolve_cases g1) as [(s & E & ->)|[_ ->]]
    end; cbn [Game.board] in *; [|exact Hblank].
    destruct (solve_fills new _ s Hwf1 E) as (_ & _ & Hfill).
    destruct (Hfill (row, col) Hin) as [Hkeep _].
    rewrite Hkeep; [exact Hblank|]. rewrite Hblank. discriminate. }
  split; [exact Hcell|].
  apply not_true_is_false. intros Hdone. apply checkCompletion_spec in Hdone as [Hall _].
  apply (Hall (row, col) Hin). right. exact Hcell.
Qed.

Lemma cleared_cell_survives_solve_witness :
  let g' := Game.handleSolve
              (Game.handleCellChange
                 (Game.mkGame fallbackSolved (maskOf fallbackBoard) (Some fallbackBoard)
                              None None None)
                 0 2 "") in
  cellAt (Game.board g') (0, 2) = "" /\ checkCompletion (Game.board g') = false.
Proof.
  apply (cleared_cell_survives_solve
           (Game.mkGame fallbackSolved (maskOf fallbackBoard) (Some fallbackBoard)
                        None None None) 0 2);
    [exact wf_fallbackSolved|lia|lia|reflexivity].
Defined.

(** ** Puzzles from the API *)

Ltac nine l H :=
  do 9 (destruct l as [|? l]; [cbn [length] in H; lia|]);
  destruct l; [|cbn [length] in H; lia]; clear H.

Lemma digitCell_cases (n : nat) :
  n <= 9 ->
  plainCell (Fetch.digitCell n)
  /\ (Fetch.digitCell n = "." <-> n = 0)
  /\ (n <> 0 -> Fetch.digitCell n = JS.toString n
                 /\ JS.parseInt (Fetch.digitCell n) = Some (Z.of_nat n)).
Proof.
  intros Hn. unfold plainCell, isDigit.
  do 10 (destruct n as [|n];
         [cbn; repeat split; intros; try tauto; try discriminate; try lia;
          auto 12|]).
  lia.
Qed.

Lemma grid_rows (rows : list (list nat)) :
  length rows = 9 -> Forall (fun r => length r = 9) rows ->
  Fetch.fetchPuzzle (Some (Fetch.nested rows)) = map (map Fetch.digitCell) rows
  /\ Fetch.fetchPuzzle (Some (Fetch.flat rows)) = map (map Fetch.digitCell) rows.
Proof.
  intros Hlen Hrows.
  destruct rows as [|r0 [|r1 [|r2 [|r3 [|r4 [|r5 [|r6 [|r7 [|r8 [|r9 rest]]]]]]]]]];
    try discriminate Hlen. clear Hlen.
  repeat match goal with
         | H : Forall _ (_ :: _) |- _ => inversion H; clear H; subst
         end.
  cbv beta in *.
  repeat match goal with
         | H : length ?l = 9 |- _ => is_var l; nine l H
         end.
  split; reflexivity.
Qed.

Lemma cell_of_rows (rows : list (list nat)) (i j : nat) :
  length rows = 9 -> Forall (fun r => length r = 9) rows -> i < 9 -> j < 9 ->
  cell (map (map Fetch.digitCell) rows) i j = Fetch.digitCell (sent rows i j).
Proof.
  intros Hlen Hrows Hi Hj. unfold cell, JS.get, sent.
  rewrite (nth_map_hole (map Fetch.digitCell) [] [] rows i eq_refl).
  assert (Hrow : length (nth i rows []) = 9).
  { rewrite List.Forall_forall in Hrows. apply Hrows, nth_In. lia. }
  rewrite (nth_indep _ "" (Fetch.digitCell 0)) by (rewrite length_map; lia).
  apply map_nth.
Qed.

(** X24. A grid of nine rows of nine numbers 0..9, as the API sends
    it, becomes a 9x9 board of digits and ".": 0 becomes ".", any other
    number its numeral, which [parseInt] reads back; the mask computed
    from the board marks exactly the cells sent as non-zero. *)
Theorem fetchPuzzle_decodes_digits (rows : list (list nat)) :
  length rows = 9 -> Forall (fun r => length r = 9) rows ->
  (forall i j, i < 9 -> j < 9 -> sent rows i j <= 9) ->
  let board0 := Fetch.fetchPuzzle (Some (Fetch.nested rows)) in
  wf_board board0 /\ plainBoard board0
  /\ forall i j, i < 9 -> j < 9 ->
       (cell board0 i j = "." <-> sent rows i j = 0)
       /\ (sent rows i j <> 0 ->
           cell board0 i j = JS.toString (sent rows i j)
           /\ JS.parseInt (cell board0 i j) = Some (Z.of_nat (sent rows i j)))
       /\ given (maskOf board0) i j = negb (sent rows i j =? 0).
Proof.
  intros Hlen Hrows Hsmall. cbv zeta.
  rewrite (proj1 (grid_rows rows Hlen Hrows)).
  split; [|split].
  - split; [now rewrite length_map|]. apply List.Forall_forall. intros r Hr.
    apply in_map_iff in Hr as (r0 & <- & Hr0). rewrite length_map.
    rewrite List.Forall_forall in Hrows. now apply Hrows.
  - intros [i j] [Hi Hj]. unfold cellAt. cbn [fst snd] in *.
    rewrite (cell_of_rows rows i j Hlen Hrows Hi Hj).
    apply digitCell_cases, Hsmall; assumption.
  - intros i j Hi Hj. rewrite given_maskOf.
    rewrite (cell_of_rows rows i j Hlen Hrows Hi Hj).
    destruct (digitCell_cases (sent rows i j) (Hsmall i j Hi Hj)) as (Hp & Hdot & Hnum).
    split; [exact Hdot|]. split; [exact Hnum|].
    rewrite (plainCell_fill _ Hp). unfold notDot.
    destruct (Nat.eqb_spec (sent rows i j) 0) as [E|E]; cbn [negb].
    + apply negb_false_iff, String.eqb_eq, Hdot, E.
    + apply negb_true_iff, String.eqb_neq. intros Hd. now apply Hdot in Hd.
Qed.

Lemma fallbackRows_small (i j : nat) : i < 9 -> j < 9 -> sent fallbackRows i j <= 9.
Proof.
  intros Hi Hj.
  do 9 (destruct i as [|i]; [do 9 (destruct j as [|j]; [cbn; lia|]); lia|]). lia.
Qed.

Lemma fetchPuzzle_decodes_digits_witness :
  let board0 := Fetch.fetchPuzzle (Some (Fetch.nested fallbackRows)) in
  wf_board board0 /\ plainBoard board0
  /\ forall i j, i < 9 -> j < 9 ->
       (cell board0 i j = "." <-> sent fallbackRows i j = 0)
       /\ (sent fallbackRows i j <> 0 ->
           cell board0 i j = JS.toString (sent fallbackRows i j)
           /\ JS.parseInt (cell board0 i j) = Some (Z.of_nat (sent fallbackRows i j)))
       /\ given (maskOf board0) i j = negb (sent fallbackRows i j =? 0).
Proof.
  apply (fetchPuzzle_decodes_digits fallbackRows);
    [reflexivity|repeat constructor|exact fallbackRows_small].
Defined.

(** X25. The two forms of a grid give the same board: nine rows of nine
    numbers sent flat, as 81 numbers row after row, are converted to
    the board the nested form gives. *)
Theorem fetchPuzzle_flat_agrees_with_nested (rows : list (list nat)) :
  length rows = 9 -> Forall (fun r => length r = 9) rows ->
  Fetch.fetchPuzzle (Some (Fetch.flat rows)) = Fetch.fetchPuzzle (Some (Fetch.nested rows)).
Proof.
  intros Hlen Hrows. destruct (grid_rows rows Hlen Hrows) as [-> ->]. reflexivity.
Qed.

Lemma fetchPuzzle_flat_agrees_with_nested_witness :
  Fetch.fetchPuzzle (Some (Fetch.flat fallbackRows))
  = Fetch.fetchPuzzle (Some (Fetch.nested fallbackRows)).
Proof.
  apply (fetchPuzzle_flat_agrees_with_nested fallbackRows);
    [reflexivity|repeat constructor].
Defined.

(** ** What a failed search leaves in the tables *)

Lemma related_flags (s : State) (board0 : SudokuBoard) (t : SudokuSolver) (i num : nat) :
  related s (mkState board0 t) -> i < 9 -> num <= 9 ->
  flag (rows (tracker s)) i num = flag (rows t) i num
  /\ flag (cols (tracker s)) i num = flag (cols t) i num
  /\ flag (blocks (tracker s)) i num = flag (blocks t) i num.
Proof.
  intros [_ Hagree] Hi Hnum. cbn [tracker] in Hagree.
  specialize (Hagree i num Hi ltac:(lia)). unfold flagsAt in Hagree.
  injection Hagree as H1 H2 H3. split; [exact H1|]. split; [exact H2|exact H3].
Qed.

(** X26. When [solve] returns [false], backtracking has undone every
    flag it set: for each unit and each digit the three tables hold
    what [initializeTracking] put there for the board. *)
Theorem failed_solve_restores_tables (this : SudokuSolver) (board0 : SudokuBoard)
        (s : State) (i num : nat) :
  shaped this -> wf_board board0 -> solve this board0 = Some (false, s) ->
  i < 9 -> num <= 9 ->
  flag (rows (tracker s)) i num = flag (rows (initializeTracking this board0)) i num
  /\ flag (cols (tracker s)) i num = flag (cols (initializeTracking this board0)) i num
  /\ flag (blocks (tracker s)) i num
     = flag (blocks (initializeTracking this board0)) i num.
Proof.
  intros _ _ H Hi Hnum. rewrite solve_unfold in H.
  apply solveHelper_false_related in H.
  exact (related_flags s board0 (initializeTracking this board0) i num H Hi Hnum).
Qed.

(** On [backtrackBoard] the search marks 1 as used in row 0, column 2
    and block 0 when it fills (0, 2); once it has failed the three flags
    are back to what [initializeTracking] computed, which is unset. *)
Lemma failed_solve_restores_tables_witness :
  canPlace (mkState backtrackBoard (initializeTracking new backtrackBoard)) 0 2 1 = true
  /\ exists s,
      solve new backtrackBoard = Some (false, s)
      /\ flag (rows (tracker s)) 0 1
         = flag (rows (initializeTracking new backtrackBoard)) 0 1
      /\ flag (cols (tracker s)) 2 1
         = flag (cols (initializeTracking new backtrackBoard)) 2 1
      /\ flag (blocks (tracker s)) 0 1
         = flag (blocks (initializeTracking new backtrackBoard)) 0 1.
Proof.
  destruct solve_false_on_backtrackBoard as (_ & Hplace & s & E).
  split; [exact Hplace|]. exists s. split; [exact E|].
  pose proof (failed_solve_restores_tables new backtrackBoard s 0 1 shaped_new
                wf_backtrackBoard E ltac:(lia) ltac:(lia)) as (Hr & _ & Hb).
  pose proof (failed_solve_restores_tables new backtrackBoard s 2 1 shaped_new
                wf_backtrackBoard E ltac:(lia) ltac:(lia)) as (_ & Hc & _).
  split; [exact Hr|]. split; [exact Hc|exact Hb].
Defined.

(** ** Taking a hint *)

Lemma filter_one_less {A : Type} (f g : A -> bool) (x : A) (l : list A) :
  List.NoDup l -> In x l -> f x = true -> g x = false ->
  (forall y, y <> x -> g y = f y) ->
  length (List.filter g l) + 1 = length (List.filter f l).
Proof.
  intros Hnd Hin Hf Hg Hsame. induction l as [|a l IH]; [contradiction|].
  inversion Hnd as [|? ? Hnotin Hnd']; subst. cbn [List.filter].
  destruct Hin as [->|Hin].
  - rewrite Hf, Hg. cbn [length].
    rewrite (List.filter_ext_in g f l); [lia|].
    intros y Hy. apply Hsame. intros ->. contradiction.
  - rewrite (Hsame a) by (intros ->; contradiction).
    specialize (IH Hnd' Hin). destruct (f a); cbn [length]; lia.
Qed.

Lemma getHint_returns (currentBoard solvedBoard : SudokuBoard) (originalCells : GivenMask)
      (random : float) (h : Hint) :
  getHint currentBoard solvedBoard originalCells random = Returned (Some h) ->
  hintCandidate currentBoard originalCells (row h, col h)
  /\ value h = cell solvedBoard (row h) (col h).
Proof.
  unfold getHint.
  pose proof (fun q => proj1 (in_availableHints currentBoard originalCells q)) as Hin.
  revert Hin. generalize (availableHints currentBoard originalCells). intros hints Hin.
  destruct (length hints =? 0); [discriminate|].
  destruct (JS.item hints _) as [[r c]|] eqn:E; [|discriminate].
  intros [= <-]. cbn [row col value]. split; [|reflexivity].
  apply Hin. unfold JS.item in E.
  destruct (List.find _ _); [|discriminate]. exact (nth_error_In _ _ E).
Qed.

(** X27. Writing the hint [getHint] returns into the board makes
    progress: the cell was empty and not given, it now agrees with the
    solved board, no other cell changes, and one cell fewer is left to
    hint at. *)
Theorem hint_makes_progress (currentBoard solvedBoard : SudokuBoard)
        (originalCells : GivenMask) (random : float) (h : Hint) :
  wf_board currentBoard -> wf_board solvedBoard -> wf_mask originalCells ->
  getHint currentBoard solvedBoard originalCells random = Returned (Some h) ->
  value h <> "." ->
  let board' := setCell currentBoard (row h) (col h) (value h) in
  cell currentBoard (row h) (col h) = "."
  /\ given originalCells (row h) (col h) = false
  /\ In (row h, col h) (correctCells (compareBoards board' solvedBoard))
  /\ (forall p, p <> (row h, col h) -> cellAt board' p = cellAt currentBoard p)
  /\ length (availableHints board' originalCells) + 1
     = length (availableHints currentBoard originalCells).
Proof.
  intros _ _ _ Hhint Hvalue. cbv zeta.
  destruct (getHint_returns _ _ _ _ _ Hhint) as [(Hin & Hdot & Hgiven) Hv].
  unfold cellAt in Hdot. cbn [fst snd] in Hdot, Hgiven.
  assert (Hcell : forall p, cellAt (setCell currentBoard (row h) (col h) (value h)) p
                            = if posEqb p (row h, col h) then value h
                              else cellAt currentBoard p)
    by (intros p; apply cellAt_setCell).
  split; [exact Hdot|]. split; [exact Hgiven|]. split; [|split].
  - apply (proj2 (proj1 (proj2 (compareBoards_lists _ solvedBoard (row h, col h))))).
    split; [exact Hin|]. rewrite Hcell, (proj2 (posEqb_eq _ _) eq_refl).
    split; [exact Hvalue|exact Hv].
  - intros p Hne. rewrite Hcell. destruct (posEqb p (row h, col h)) eqn:E; [|reflexivity].
    apply posEqb_eq in E. contradiction.
  - rewrite !availableHints_filter.
    apply (filter_one_less _ _ (row h, col h)).
    + exact NoDup_positions.
    + now apply in_positions.
    + unfold candidateb, cellAt. cbn [fst snd]. rewrite Hdot, Hgiven. reflexivity.
    + unfold candidateb. rewrite Hcell, (proj2 (posEqb_eq _ _) eq_refl).
      apply andb_false_iff. left. now apply String.eqb_neq.
    + intros p Hne. unfold candidateb. rewrite Hcell.
      destruct (posEqb p (row h, col h)) eqn:E; [|reflexivity].
      apply posEqb_eq in E. contradiction.
Qed.

Lemma hint_makes_progress_witness :
  let board' := setCell oneCellLeft 0 0 "5" in
  cell oneCellLeft 0 0 = "."
  /\ given oneCellLeftMask 0 0 = false
  /\ In (0, 0) (correctCells (compareBoards board' fallbackSolved))
  /\ (forall p, p <> (0, 0) -> cellAt board' p = cellAt oneCellLeft p)
  /\ length (availableHints board' oneCellLeftMask) + 1
     = length (availableHints oneCellLeft oneCellLeftMask).
Proof.
  apply (hint_makes_progress oneCellLeft fallbackSolved oneCellLeftMask 0.5%float
           (mkHint 0 0 "5") wf_oneCellLeft wf_fallbackSolved
           (wf_mask_maskOf oneCellLeft wf_oneCellLeft));
    [vm_compute; reflexivity|discriminate].
Defined.

(** ** Which solution the search finds *)

Lemma tryNumbers_first (recur : State -> option (bool * State))
      (target : SudokuBoard) (row col num : nat) :
  row < 9 -> col < 9 -> placeable num -> solution target ->
  cellAt target (row, col) = JS.toString num ->
  (forall u u', recur u = Some (false, u') -> related u' u) ->
  (forall u u', sound u -> completes (board u) target ->
                recur u = Some (false, u') -> False) ->
  (forall u u', sound u -> filledBefore (board u) row (col + 1) ->
                completes (board u) target -> recur u = Some (true, u') ->
                sameGrid (board u') target \/ precedes (board u') target) ->
  (forall u u', wf_board (board u) -> filledBefore (board u) row (col + 1) ->
                recur u = Some (true, u') -> fillsIn (board u) (board u')) ->
  forall k a s s',
    1 <= a <= num -> num < a + k ->
    sound s -> filledBefore (board s) row col -> completes (board s) target ->
    cell (board s) row col = "." ->
    tryNumbers recur row col (seq a k) s = Some (true, s') ->
    sameGrid (board s') target \/ precedes (board s') target.
Proof.
  intros Hr Hc Hnum Hsol Htarget Hfalse Hnever Horder Hfills k.
  assert (Hgrid : inGrid (row, col)) by (split; assumption).
  induction k as [|k IH]; intros a s s' Ha Hk Hs Hbefore Hcomp Hdot H; [lia|].
  cbn [seq tryNumbers] in H.
  assert (Hpa : placeable a) by (unfold placeable in *; lia).
  destruct (canPlace s row col a) eqn:Hcan.
  - assert (Hs1 : sound (place s row col a)) by now apply sound_place.
    assert (Hb1 : filledBefore (board (place s row col a)) row (col + 1)).
    { apply filledBefore_next.
      - intros p Hp Hlt. cbn [place board]. rewrite cellAt_setCell.
        destruct (posEqb p (row, col)); [apply toString_digit, Hpa|now apply Hbefore].
      - cbn [place board]. rewrite cellAt_setCell, (proj2 (posEqb_eq _ _) eq_refl).
        apply toString_digit, Hpa. }
    destruct (recur (place s row col a)) as [[[|] s1]|] eqn:E; try discriminate.
    + injection H as <-.
      destruct (Nat.eq_dec a num) as [->|Hne].
      * apply (Horder _ _ Hs1 Hb1) in E; [exact E|].
        cbn [place board]. now apply completes_place_digit.
      * right. exists (row, col), a, num.
        pose proof (Hfills _ _ (proj1 Hs1) Hb1 E) as Hfill.
        cbn [place board] in Hfill.
        split; [exact Hgrid|]. split; [|split; [|split; [exact Htarget|lia]]].
        -- intros q Hq Hlt. destruct (Hfill q Hq) as [Hkeep _].
           rewrite cellAt_setCell in Hkeep.
           assert (Eq : posEqb q (row, col) = false).
           { apply not_true_is_false. intros Eq. apply posEqb_eq in Eq. subst q.
             unfold before in Hlt. cbn [fst snd] in Hlt. lia. }
           rewrite Eq in Hkeep.
           pose proof (Hbefore q Hq Hlt) as Hq1.
           rewrite (Hkeep Hq1). symmetry. now apply Hcomp.
        -- destruct (Hfill (row, col) Hgrid) as [Hkeep _].
           rewrite cellAt_setCell, (proj2 (posEqb_eq _ _) eq_refl) in Hkeep.
           apply Hkeep. apply toString_digit, Hpa.
    + destruct (Nat.eq_dec a num) as [->|Hne].
      * exfalso. apply (Hnever _ _ Hs1) in E; [exact E|].
        cbn [place board]. now apply completes_place_digit.
      * apply Hfalse in E.
        assert (Hback : related (unplace s1 row col a) s).
        { eapply related_trans; [apply related_unplace, E|].
          now apply unplace_place_related. }
        pose proof (sound_related _ _ Hback Hs) as Hs2.
        destruct Hback as [Hb _].
        apply (IH (S a) (unplace s1 row col a) s'); try assumption;
          try (rewrite Hb; assumption); lia.
  - destruct (Nat.eq_dec a num) as [->|Hne].
    + rewrite (canPlace_solution_digit s target row col num) in Hcan; try assumption.
      discriminate.
    + apply (IH (S a) s s'); try assumption; lia.
Qed.

Lemma solveHelper_first (target : SudokuBoard) (fuel row col : nat) (s s' : State) :
  row <= 9 -> col <= 9 -> solution target ->
  sound s -> filledBefore (board s) row col -> completes (board s) target ->
  solveHelper fuel row col s = Some (true, s') ->
  sameGrid (board s') target \/ precedes (board s') target.
Proof.
  intros Hr Hc Hsol. revert row col s s' Hr Hc.
  induction fuel as [|fuel IH]; intros row col s s' Hr Hc Hs Hbefore Hcomp H.
  - discriminate.
  - rewrite solveHelper_unfold in H.
    destruct (Nat.eqb_spec row 9) as [->|Hr9].
    + injection H as <-. left. intros p Hp. symmetry. apply Hcomp; [exact Hp|].
      apply Hbefore; [exact Hp|]. left. apply Hp.
    + destruct (Nat.eqb_spec col 9) as [->|Hc9].
      * apply (IH (row + 1) 0 s s'); try assumption; try lia.
        intros p Hp Hlt. apply Hbefore; [exact Hp|]. destruct Hp as [_ Hp]. lia.
      * destruct (String.eqb_spec (cell (board s) row col) ".") as [Hdot|Hne];
          cbn [negb] in H.
        -- assert (Hgrid : inGrid (row, col)) by (split; simpl; lia).
           assert (Hr' : row < 9) by lia. assert (Hc' : col < 9) by lia.
           destruct (digit_placeable _ (proj1 (proj2 Hsol) (row, col) Hgrid))
             as (num & Hnum & Enum).
           assert (Hfalse : forall u u',
                      solveHelper fuel row (col + 1) u = Some (false, u') -> related u' u)
             by (intros u u'; apply solveHelper_false_related).
           assert (Hnever : forall u u', sound u -> completes (board u) target ->
                      solveHelper fuel row (col + 1) u = Some (false, u') -> False)
             by (intros u u' Hu Hcu; apply (solveHelper_complete target fuel row (col + 1));
                 try assumption; lia).
           assert (Horder : forall u u', sound u -> filledBefore (board u) row (col + 1) ->
                      completes (board u) target ->
                      solveHelper fuel row (col + 1) u = Some (true, u') ->
                      sameGrid (board u') target \/ precedes (board u') target)
             by (intros u u' Hu Hbu Hcu; apply (IH row (col + 1)); try assumption; lia).
           assert (Hfills : forall u u', wf_board (board u) ->
                      filledBefore (board u) row (col + 1) ->
                      solveHelper fuel row (col + 1) u = Some (true, u') ->
                      fillsIn (board u) (board u')).
           { intros u u' Hwu Hbu Hu.
             apply (solveHelper_fills fuel row (col + 1) u u') in Hu; try assumption;
               try lia. apply Hu. }
           assert (Hrange : 1 <= 1 <= num) by (unfold placeable in Hnum; lia).
           assert (Hlast : num < 1 + 9) by (unfold placeable in Hnum; lia).
           exact (tryNumbers_first _ target row col num Hr' Hc' Hnum Hsol (eq_sym Enum)
                                   Hfalse Hnever Horder Hfills 9 1 s s' Hrange Hlast
                                   Hs Hbefore Hcomp Hdot H).
        -- apply (IH row (col + 1) s s'); try assumption; try lia.
           now apply filledBefore_next.
Qed.

(** X28. Among the solutions that extend the board, [solve] leaves the
    first one: for every complete valid grid that keeps the filled
    cells, the board [solve] leaves is that grid, or at the first cell
    in reading order where the two differ it holds the smaller digit. *)
Theorem solve_finds_first_solution (this : SudokuSolver) (board0 target : SudokuBoard)
        (s : State) :
  shaped this -> wf_board board0 ->
  solution target -> completes board0 target ->
  solve this board0 = Some (true, s) ->
  sameGrid (board s) target \/ precedes (board s) target.
Proof.
  intros _ Hwf Hsol Hcomp H.
  destruct (solvable_plain board0 (ex_intro _ target (conj Hsol Hcomp)))
    as [Hplain Hfree].
  rewrite solve_unfold in H.
  apply (solveHelper_first target) in H; try assumption; try lia.
  - unfold sound. cbn [board].
    split; [exact Hwf|]. split; [exact Hplain|]. split; [exact Hfree|].
    now apply consistent_initializeTracking.
  - intros p _ [Hlt|[_ Hlt]]; lia.
Qed.

Lemma solve_finds_first_solution_witness :
  exists s, solve new fallbackBoard = Some (true, s)
            /\ (sameGrid (board s) fallbackSolved \/ precedes (board s) fallbackSolved).
Proof.
  destruct solve_new_fallback as (s & E & _). exists s. split; [exact E|].
  exact (solve_finds_first_solution new fallbackBoard fallbackSolved s shaped_new
           wf_fallbackBoard (proj1 solve_sound_on_fallbackBoard)
           (proj2 solve_sound_on_fallbackBoard) E).
Defined.
